(** * Cancellation contexts (src/context.ts): a shallow embedding

    The TypeScript module builds a tree of context objects on the JavaScript
    heap.  The heap is modelled as a list of objects addressed by allocation
    index, the host's timer table and the pending [Promise.race] observers are
    explicit components of the world, and every method is a computation in a
    state-and-exception monad that also records the calls it makes. *)

From stdpp Require Import numbers list.

(** ** Data *)

(** [Error] objects.  The module exports two distinguished instances; a foreign
    context may report any other one. *)
Inductive Error :=
  | cancelledErr
  | deadlineExceededErr
  | otherErr (tag : nat).

(** [type ErrorType = Error | null]. *)
Definition ErrorType := option Error.

(** Promises, by identity.  [blockForever] and [alwaysResolve] are the two
    module-level constants; [newPromise c r] is the promise allocated by
    [done()] of heap object [c], whose resolver is kept in the object's
    [resolve] field, and [r] tells whether that resolver has run. *)
Inductive Promise :=
  | blockForever
  | alwaysResolve
  | newPromise (owner : nat) (resolved : bool)
  | foreignPromise (k : nat).

(** Values of the interface type [Context]: the singleton [backgroundCtx],
    a reference to a [CancelCtx]/[TimerCtx] object on the heap, or a reference
    to an implementation of the interface that lives outside this module. *)
Inductive Context :=
  | backgroundCtx
  | ctxRef (id : nat)
  | foreignRef (k : nat).

#[global] Instance Error_eq_dec : EqDecision Error.
Proof. solve_decision. Defined.
#[global] Instance Context_eq_dec : EqDecision Context.
Proof. solve_decision. Defined.

(** Numbers.  The module computes with time values and timeouts, in
    milliseconds; the model keeps the whole numbers, NaN and the two
    infinities ([Infinity true] is the negative one).  A timeout with a
    fractional part is not modelled. *)
Inductive number :=
  | Num (z : Z)
  | NaN
  | Infinity (negative : bool).

#[global] Instance number_eq_dec : EqDecision number.
Proof. solve_decision. Defined.

(** [a + b], [a - b], [a < b] and [a <= b]. *)
Definition number_add (a b : number) : number :=
  match a, b with
  | NaN, _ | _, NaN => NaN
  | Num x, Num y => Num (x + y)
  | Num _, Infinity s | Infinity s, Num _ => Infinity s
  | Infinity s, Infinity t => if bool_decide (s = t) then Infinity s else NaN
  end.

Definition number_sub (a b : number) : number :=
  match a, b with
  | NaN, _ | _, NaN => NaN
  | Num x, Num y => Num (x - y)
  | Num _, Infinity s => Infinity (negb s)
  | Infinity s, Num _ => Infinity s
  | Infinity s, Infinity t => if bool_decide (s = t) then NaN else Infinity s
  end.

Definition number_lt (a b : number) : bool :=
  match a, b with
  | NaN, _ | _, NaN => false
  | Num x, Num y => bool_decide (x < y)%Z
  | Num _, Infinity s => negb s
  | Infinity s, Num _ => s
  | Infinity s, Infinity t => s && negb t
  end.

Definition number_le (a b : number) : bool :=
  match a, b with
  | NaN, _ | _, NaN => false
  | Num x, Num y => bool_decide (x ≤ y)%Z
  | Num _, Infinity s => negb s
  | Infinity s, Num _ => s
  | Infinity s, Infinity t => s || negb t
  end.

(** A [Date] object: a time value, or an invalid date, whose [getTime()] is
    NaN. *)
Inductive Date :=
  | date (t : Z)
  | invalidDate.

#[global] Instance Date_eq_dec : EqDecision Date.
Proof. solve_decision. Defined.

Definition getTime (d : Date) : number :=
  match d with
  | date t => Num t
  | invalidDate => NaN
  end.

(** [new Date(v)] for a number [v].  The constructor clips the time value: a
    value that is not finite or lies more than 8.64e15 ms from the epoch
    gives an invalid date. *)
Definition new_Date (v : number) : Date :=
  match v with
  | Num z =>
      if bool_decide (Z.abs z ≤ 8640000000000000)%Z then date z
      else invalidDate
  | _ => invalidDate
  end.

(** The fields [TimerCtx] adds to [CancelCtx].  A timer handle returned by the
    host's [setTimeout] is truthy (a positive integer in browsers, an object
    in Node), so [if (this.timer)] is a test for presence. *)
Record TimerCtx := mkTimerCtx {
  _deadline : Date;
  timer : option positive
}.

(** A [CancelCtx] object; [asTimer] is [Some] exactly for instances of the
    subclass [TimerCtx].  [children] is a JavaScript [Set]: insertion ordered,
    without duplicates, [None] while the field is still undefined. *)
Record CancelCtx := mkCancelCtx {
  parent : Context;
  _done : option Promise;
  err : ErrorType;
  children : option (list nat);
  asTimer : option TimerCtx
}.

(** What a foreign implementation of [Context] currently answers. *)
Record ForeignCtx := mkForeignCtx {
  f_deadline : option Date;
  f_done : Promise;
  f_error : ErrorType
}.

(** A pending [setTimeout(() => c.cancel(true, deadlineExceededErr), d)]. *)
Record Timeout := mkTimeout {
  handle : positive;
  target : nat;
  delay : number
}.

Record World := mkWorld {
  heap : list CancelCtx;
  foreign : list ForeignCtx;
  timers : list Timeout;
  nextTimer : positive;
  races : list (Context * nat)
}.

Definition emptyWorld : World := mkWorld [] [] [] 1%positive [].

(** Calls observed while a method runs. *)
Inductive Event :=
  | EvCancel (this : nat) (removeFromParent : bool) (reason : ErrorType)
  | EvResolve (this : nat)
  | EvClearTimeout (h : positive).

Inductive Exception :=
  | MissingCancelError
  | TypeError.

(** ** The monad of methods *)

Inductive Result (A : Type) :=
  | Returned (a : A) (w : World) (tr : list Event)
  | Threw (x : Exception) (w : World) (tr : list Event)
  | OutOfFuel.
Arguments Returned {A} a w tr.
Arguments Threw {A} x w tr.
Arguments OutOfFuel {A}.

Definition M (A : Type) := World → Result A.

Definition ret {A} (a : A) : M A := λ w, Returned a w [].
Definition throw {A} (x : Exception) : M A := λ w, Threw x w [].
Definition emit (e : Event) : M unit := λ w, Returned tt w [e].

(** [pre tr r]: the result [r] of a continuation, after the calls [tr]. *)
Definition pre {A} (tr : list Event) (r : Result A) : Result A :=
  match r with
  | Returned a w tr' => Returned a w (tr ++ tr')
  | Threw x w tr' => Threw x w (tr ++ tr')
  | OutOfFuel => OutOfFuel
  end.

Definition bind {A B} (m : M A) (k : A → M B) : M B := λ w,
  match m w with
  | Returned a w1 tr1 => pre tr1 (k a w1)
  | Threw x w1 tr1 => Threw x w1 tr1
  | OutOfFuel => OutOfFuel
  end.

Notation "'let!' x ':=' m 'in' k" := (bind m (λ x, k))
  (at level 10, x pattern, m at level 100, k at level 200).
Notation "m ';;' k" := (bind m (λ _, k))
  (at level 100, k at level 200, right associativity).

(** ** Field updates *)

Definition set_heap (f : list CancelCtx → list CancelCtx) (w : World) : World :=
  mkWorld (f (heap w)) (foreign w) (timers w) (nextTimer w) (races w).
Definition set_timers (f : list Timeout → list Timeout) (w : World) : World :=
  mkWorld (heap w) (foreign w) (f (timers w)) (nextTimer w) (races w).
Definition set_races (f : list (Context * nat) → list (Context * nat)) (w : World) : World :=
  mkWorld (heap w) (foreign w) (timers w) (nextTimer w) (f (races w)).
Definition set_foreign (f : list ForeignCtx → list ForeignCtx) (w : World) : World :=
  mkWorld (heap w) (f (foreign w)) (timers w) (nextTimer w) (races w).

Definition with_done (p : option Promise) (o : CancelCtx) : CancelCtx :=
  mkCancelCtx (parent o) p (err o) (children o) (asTimer o).
Definition with_err (e : ErrorType) (o : CancelCtx) : CancelCtx :=
  mkCancelCtx (parent o) (_done o) e (children o) (asTimer o).
Definition with_children (cs : option (list nat)) (o : CancelCtx) : CancelCtx :=
  mkCancelCtx (parent o) (_done o) (err o) cs (asTimer o).
Definition with_timer (h : option positive) (o : CancelCtx) : CancelCtx :=
  mkCancelCtx (parent o) (_done o) (err o) (children o)
    (match asTimer o with
     | Some t => Some (mkTimerCtx (_deadline t) h)
     | None => None
     end).

(** Reading and writing an object through a reference.  A reference that
    points nowhere cannot arise in JavaScript; the model raises [TypeError]. *)
Definition getObj (this : nat) : M CancelCtx := λ w,
  match heap w !! this with
  | Some o => Returned o w []
  | None => Threw TypeError w []
  end.

Definition modObj (this : nat) (f : CancelCtx → CancelCtx) : M unit := λ w,
  match heap w !! this with
  | Some o => Returned tt (set_heap (λ h, <[this := f o]> h) w) []
  | None => Threw TypeError w []
  end.

(** [Set.prototype.add] and [Set.prototype.delete]. *)
Definition Set_add (x : nat) (s : list nat) : list nat :=
  if decide (x ∈ s) then s else s ++ [x].
Definition Set_delete (x : nat) (s : list nat) : list nat :=
  filter (λ y, y ≠ x) s.

(** The host's timer table. *)
Definition setTimeout (c : nat) (d : number) : M positive := λ w,
  let h := nextTimer w in
  Returned h
    (mkWorld (heap w) (foreign w) (timers w ++ [mkTimeout h c d])
       (Pos.succ h) (races w)) [].

Definition clearTimeout (h : positive) : M unit := λ w,
  Returned tt (set_timers (filter (λ t, handle t ≠ h)) w) [EvClearTimeout h].

(** ** The [Context] interface *)

(** [deadline()]: [EmptyCtx] and [CancelCtx] return null, [TimerCtx] returns
    its [_deadline]. *)
Definition deadline (c : Context) (w : World) : option Date :=
  match c with
  | backgroundCtx => None
  | ctxRef id =>
      match heap w !! id with
      | Some o =>
          match asTimer o with
          | Some t => Some (_deadline t)
          | None => None
          end
      | None => None
      end
  | foreignRef k =>
      match foreign w !! k with
      | Some f => f_deadline f
      | None => None
      end
  end.

(** [error()]. *)
Definition error (c : Context) (w : World) : ErrorType :=
  match c with
  | backgroundCtx => None
  | ctxRef id =>
      match heap w !! id with
      | Some o => err o
      | None => None
      end
  | foreignRef k =>
      match foreign w !! k with
      | Some f => f_error f
      | None => None
      end
  end.

(** [CancelCtx.done()]: the promise is created on first use. *)
Definition CancelCtx_done (this : nat) : M Promise :=
  let! o := getObj this in
  match _done o with
  | Some p => ret p
  | None =>
      let p := newPromise this false in
      modObj this (with_done (Some p));;
      ret p
  end.

(** [done()]. *)
Definition done (c : Context) : M Promise :=
  match c with
  | backgroundCtx => ret blockForever
  | ctxRef id => CancelCtx_done id
  | foreignRef k => λ w,
      match foreign w !! k with
      | Some f => Returned (f_done f) w []
      | None => Threw TypeError w []
      end
  end.

Definition is_blockForever (p : Promise) : bool :=
  match p with
  | blockForever => true
  | _ => false
  end.

(** ** Cancellation *)

(** [parentCancelCtx]: an [instanceof CancelCtx] test on the parent itself. *)
Definition parentCancelCtx (parent : Context) : option nat :=
  match parent with
  | ctxRef id => Some id
  | _ => None
  end.

(** [removeChild]. *)
Definition removeChild (parent : Context) (child : nat) : M unit :=
  match parentCancelCtx parent with
  | None => ret tt
  | Some p =>
      let! po := getObj p in
      match children po with
      | Some cs => modObj p (with_children (Some (Set_delete child cs)))
      | None => ret tt
      end
  end.

(** [for (const child of s) body(child)]. *)
Fixpoint for_of (s : list nat) (body : nat → M unit) : M unit :=
  match s with
  | [] => ret tt
  | child :: rest => body child;; for_of rest body
  end.

(** [CancelCtx.cancel]; [dispatch] is the virtual call [child.cancel]. *)
Definition CancelCtx_cancel (dispatch : nat → bool → ErrorType → M unit)
    (this : nat) (removeFromParent : bool) (err' : ErrorType) : M unit :=
  match err' with
  | None => throw MissingCancelError
  | Some _ =>
      let! o := getObj this in
      match err o with
      | Some _ => ret tt
      | None =>
          modObj this (with_err err');;
          match _done o with
          | None => modObj this (with_done (Some alwaysResolve))
          | Some (newPromise i _) =>
              modObj this (with_done (Some (newPromise i true)));;
              emit (EvResolve this)
          | Some _ => throw TypeError
          end;;
          match children o with
          | Some cs => for_of cs (λ child, dispatch child false err')
          | None => ret tt
          end;;
          if removeFromParent then removeChild (parent o) this else ret tt
      end
  end.

(** [TimerCtx.cancel]: the inherited method, then the timer is cleared. *)
Definition TimerCtx_cancel (dispatch : nat → bool → ErrorType → M unit)
    (this : nat) (removeFromParent : bool) (err' : ErrorType) : M unit :=
  CancelCtx_cancel dispatch this removeFromParent err';;
  let! o := getObj this in
  match asTimer o with
  | Some t =>
      match timer t with
      | Some h => clearTimeout h;; modObj this (with_timer None)
      | None => ret tt
      end
  | None => ret tt
  end.

(** [x.cancel(removeFromParent, err)] with dynamic dispatch on the class of
    [x].  The recursion follows the heap, so it is bounded by [fuel]. *)
Fixpoint cancel (fuel : nat) (this : nat) (removeFromParent : bool)
    (err' : ErrorType) : M unit :=
  match fuel with
  | 0 => λ _, OutOfFuel
  | S fuel =>
      emit (EvCancel this removeFromParent err');;
      let! o := getObj this in
      match asTimer o with
      | None => CancelCtx_cancel (cancel fuel) this removeFromParent err'
      | Some _ => TimerCtx_cancel (cancel fuel) this removeFromParent err'
      end
  end.

(** A call from outside: the fuel covers every object of the heap. *)
Definition call_cancel (this : nat) (removeFromParent : bool)
    (err' : ErrorType) : M unit := λ w,
  cancel (S (length (heap w))) this removeFromParent err' w.

(** The closure [() => { c.cancel(true, cancelledErr) }]. *)
Definition CancelFunc := M unit.
Definition cancelFunc (c : nat) : CancelFunc :=
  call_cancel c true (Some cancelledErr).

(** ** Derivation *)

Definition new_CancelCtx (parent : Context) : M nat := λ w,
  Returned (length (heap w))
    (set_heap (λ h, h ++ [mkCancelCtx parent None None None None]) w) [].

Definition new_TimerCtx (parent : Context) (deadline' : Date) : M nat := λ w,
  Returned (length (heap w))
    (set_heap (λ h, h ++ [mkCancelCtx parent None None None
                            (Some (mkTimerCtx deadline' None))]) w) [].

(** [propagateCancel].  The last branch registers the continuation of
    [Promise.race]; it runs later, see [raceCallback]. *)
Definition propagateCancel (parent : Context) (child : nat) : M unit :=
  let! pd := done parent in
  if is_blockForever pd then ret tt
  else
    match parentCancelCtx parent with
    | Some p =>
        let! po := getObj p in
        match err po with
        | Some e => call_cancel child false (Some e)
        | None =>
            modObj p (with_children
                        (Some (Set_add child (default [] (children po)))))
        end
    | None =>
        done parent;;
        done (ctxRef child);;
        λ w, Returned tt (set_races (λ r, r ++ [(parent, child)]) w) []
    end.

(** The continuation [(cancelChild) => { if (cancelChild) child.cancel(false,
    parent.error()) }]. *)
Definition raceCallback (parent : Context) (child : nat) (cancelChild : bool)
    : M unit :=
  if cancelChild then λ w, call_cancel child false (error parent w) w
  else ret tt.

(** [withCancel]. *)
Definition withCancel (parent : Context) : M (Context * CancelFunc) :=
  let! c := new_CancelCtx parent in
  propagateCancel parent c;;
  ret (ctxRef c, cancelFunc c).

(** [withDeadline]; [now] is what [Date.now()] answers.  A [Date] is an
    object and so passes the test [parentDeadline &&] also when it is invalid;
    [<] then compares the two time values, and a comparison with NaN is
    false. *)
Definition withDeadline (parent : Context) (deadline' : Date) (now : Z)
    : M (Context * CancelFunc) := λ w0,
  let parentDeadline := deadline parent w0 in
  if match parentDeadline with
     | Some pd => number_lt (getTime pd) (getTime deadline')
     | None => false
     end
  then withCancel parent w0
  else
    (let! c := new_TimerCtx parent deadline' in
     propagateCancel parent c;;
     let d := number_sub (getTime deadline') (Num now) in
     if number_le d (Num 0) then
       call_cancel c true (Some deadlineExceededErr);;
       ret (ctxRef c, cancelFunc c)
     else
       let! o := getObj c in
       match err o with
       | None =>
           let! h := setTimeout c d in
           modObj c (with_timer (Some h))
       | Some _ => ret tt
       end;;
       ret (ctxRef c, cancelFunc c)) w0.

(** [withTimeout]; [Date.now()] is read once here and once in
    [withDeadline]. *)
Definition withTimeout (parent : Context) (timeout : number) (now now' : Z)
    : M (Context * CancelFunc) :=
  withDeadline parent (new_Date (number_add (Num now) timeout)) now'.

(** The callback the host runs when timer [h] expires. *)
Definition timerCallback (t : Timeout) : M unit :=
  call_cancel (target t) true (Some deadlineExceededErr).

(** ** The environment *)

(** What can happen to a world: the public functions are called, a returned
    cancel closure is called, the host runs an expired timer or a
    [Promise.race] continuation, and foreign contexts change on their own. *)
Inductive Action :=
  | ActWithCancel (parent : Context)
  | ActWithDeadline (parent : Context) (deadline' : Date) (now : Z)
  | ActWithTimeout (parent : Context) (timeout : number) (now now' : Z)
  | ActCancelFunc (c : nat)
  | ActDone (c : Context)
  | ActTimer (h : positive)
  | ActRace (i : nat) (cancelChild : bool)
  | ActForeignNew (f : ForeignCtx)
  | ActForeignSet (k : nat) (f : ForeignCtx).

(** The world a call leaves behind, whether it returned or threw. *)
Definition final {A} (r : Result A) (w0 : World) : World :=
  match r with
  | Returned _ w _ => w
  | Threw _ w _ => w
  | OutOfFuel => w0
  end.

Definition exec (a : Action) (w : World) : World :=
  match a with
  | ActWithCancel p => final (withCancel p w) w
  | ActWithDeadline p d now => final (withDeadline p d now w) w
  | ActWithTimeout p t now now' => final (withTimeout p t now now' w) w
  | ActCancelFunc c => final (cancelFunc c w) w
  | ActDone c => final (done c w) w
  | ActTimer h =>
      match head (filter (λ t, handle t = h) (timers w)) with
      | Some t =>
          let w1 := set_timers (filter (λ t, handle t ≠ h)) w in
          final (timerCallback t w1) w1
      | None => w
      end
  | ActRace i b =>
      match races w !! i with
      | Some (p, c) =>
          let w1 := set_races (delete i) w in
          final (raceCallback p c b w1) w1
      | None => w
      end
  | ActForeignNew f => set_foreign (λ l, l ++ [f]) w
  | ActForeignSet k f => set_foreign (λ l, <[k := f]> l) w
  end.

(** A context value that refers to an existing object. *)
Definition valid_ctx (c : Context) (w : World) : bool :=
  match c with
  | backgroundCtx => true
  | ctxRef id => bool_decide (id < length (heap w))
  | foreignRef k => bool_decide (k < length (foreign w))
  end.

(** The contract of the [Context] interface that a foreign implementation
    is expected to honour: successive calls to [deadline()] return the same
    result, and once [error()] is non-null it stays the same. *)
Definition keeps_contract (f f' : ForeignCtx) : bool :=
  bool_decide (f_deadline f' = f_deadline f) &&
  match f_error f with
  | Some x => bool_decide (f_error f' = Some x)
  | None => true
  end.

(** Derivations are called with contexts that exist, and foreign contexts
    evolve within their contract. *)
Definition enabled (a : Action) (w : World) : bool :=
  match a with
  | ActWithCancel p => valid_ctx p w
  | ActWithDeadline p _ _ => valid_ctx p w
  | ActWithTimeout p _ _ _ => valid_ctx p w
  | ActForeignSet k f' =>
      match foreign w !! k with
      | Some f => keeps_contract f f'
      | None => true
      end
  | _ => true
  end.

Inductive reachable : World → Prop :=
  | reach_init : reachable emptyWorld
  | reach_step a w : reachable w → enabled a w = true → reachable (exec a w).

(** ** Specification vocabulary *)

Definition live (w : World) (i : nat) : Prop :=
  ∃ o, heap w !! i = Some o ∧ err o = None.

(** [tracks w p c]: [c] is in the [children] set of [p]. *)
Definition tracks (w : World) (p c : nat) : Prop :=
  ∃ op cs, heap w !! p = Some op ∧ children op = Some cs ∧ c ∈ cs.

(** Tracked children, grandchildren and so on. *)
Inductive descendant (w : World) (n : nat) : nat → Prop :=
  | desc_child c : tracks w n c → descendant w n c
  | desc_step d c : descendant w n d → tracks w d c → descendant w n c.

(** What settling does to a promise slot and to an object. *)
Definition resolved_done (d : option Promise) : option Promise :=
  match d with
  | None => Some alwaysResolve
  | Some (newPromise i _) => Some (newPromise i true)
  | Some p => Some p
  end.

Definition settle (e : Error) (o : CancelCtx) : CancelCtx :=
  with_timer None (with_done (resolved_done (_done o)) (with_err (Some e) o)).

(** The object at index [i] after the objects in [V] were settled with [e]
    and, when [b] holds, [c] was deleted from the children of [p]. *)
Definition upd (V : list nat) (e : Error) (b : bool) (p : Context) (c : nat)
    (i : nat) (o : CancelCtx) : CancelCtx :=
  let o1 := if decide (i ∈ V) then settle e o else o in
  if b && bool_decide (p = ctxRef i)
  then with_children (Set_delete c <$> children o1) o1
  else o1.

(** The timer handles held by the objects in [V]. *)
Definition timerOf (w : World) (i : nat) : option positive :=
  match heap w !! i with
  | Some o =>
      match asTimer o with
      | Some tc => timer tc
      | None => None
      end
  | None => None
  end.
Definition cleared (V : list nat) (w : World) : list positive :=
  omap (timerOf w) V.

Record effect (V : list nat) (e : Error) (b : bool) (p : Context) (c : nat)
    (w w' : World) : Prop := mkEffect {
  eff_length : length (heap w') = length (heap w);
  eff_heap : ∀ i o, heap w !! i = Some o → heap w' !! i = Some (upd V e b p c i o);
  eff_timers : timers w' = filter (λ t, handle t ∉ cleared V w) (timers w);
  eff_foreign : foreign w' = foreign w;
  eff_next : nextTimer w' = nextTimer w;
  eff_races : races w' = races w
}.

(** The objects a cascade started at [roots] settles: live ones only, closed
    under live tracked children, and nothing else. *)
Record cascade_set (roots V : list nat) (w : World) : Prop := mkCascade {
  cs_live : ∀ i, i ∈ V → live w i;
  cs_roots : ∀ r, r ∈ roots → live w r → r ∈ V;
  cs_closed : ∀ i c, i ∈ V → tracks w i c → live w c → c ∈ V;
  cs_origin : ∀ i, i ∈ V → i ∈ roots ∨ ∃ q, q ∈ V ∧ tracks w q i;
  cs_bound : ∀ i, i ∈ V → ∃ r, r ∈ roots ∧ r ≤ i
}.

(** What [cancel] needs of the heap to run to completion from object [lo]:
    children are allocated after their parent, parent references point into
    the heap, a live object has either no promise yet or one with a resolver,
    and from [lo] on no settled object holds a timer. *)
Record cancel_pre (w : World) (lo : nat) : Prop := mkPre {
  pre_order : ∀ p c, tracks w p c → p < c < length (heap w);
  pre_parent : ∀ i o pi, heap w !! i = Some o → parent o = ctxRef pi →
     pi < length (heap w);
  pre_done : ∀ i o, heap w !! i = Some o → err o = None →
     _done o = None ∨ ∃ j r, _done o = Some (newPromise j r);
  pre_timer : ∀ i o tc, lo ≤ i → heap w !! i = Some o → err o ≠ None →
     asTimer o = Some tc → timer tc = None
}.

Definition is_live (o : CancelCtx) : bool :=
  match err o with
  | None => true
  | Some _ => false
  end.

(** The calls a cascade makes below its entry point all pass
    [removeFromParent = false] and the reason of the entry. *)
Definition cascade_calls (e : Error) (tr : list Event) : Prop :=
  ∀ j r x, EvCancel j r x ∈ tr → r = false ∧ x = Some e.

Definition base_settle (e : Error) (o : CancelCtx) : CancelCtx :=
  with_done (resolved_done (_done o)) (with_err (Some e) o).

Definition resolve_events (this : nat) (o : CancelCtx) : list Event :=
  match _done o with
  | Some (newPromise _ _) => [EvResolve this]
  | _ => []
  end.

Ltac by_nil :=
  match goal with H : _ ∈ [] |- _ => by apply elem_of_nil in H end.

(** Every tracked child of an object in [V] was sent the cascade's call. *)
Definition calls_children (w : World) (V : list nat) (e : Error)
    (tr : list Event) : Prop :=
  ∀ i c, i ∈ V → tracks w i c → EvCancel c false (Some e) ∈ tr.

Definition cancel_post (this : nat) (rfp : bool) (e : Error) (o : CancelCtx)
    (w : World) (r : Result unit) : Prop :=
  ∃ V w' tr,
    r = Returned tt w' (EvCancel this rfp (Some e) :: tr) ∧
    effect V e (rfp && is_live o) (parent o) this w w' ∧
    cascade_set [this] V w ∧
    cascade_calls e tr ∧
    calls_children w V e tr.

Definition cancel_ok (fuel : nat) (e : Error) : Prop :=
  ∀ this rfp w o,
    cancel_pre w this → heap w !! this = Some o →
    length (heap w) < fuel + this →
    cancel_post this rfp e o w (cancel fuel this rfp (Some e) w).

(** The last step of [TimerCtx.cancel], as a function on worlds. *)
Definition timer_of (o : CancelCtx) : option positive :=
  match asTimer o with
  | Some t => timer t
  | None => None
  end.

Definition clear_timer (this : nat) (o : CancelCtx) (w : World) : World :=
  match timer_of o with
  | Some h =>
      set_heap (λ l, <[this := with_timer None o]> l)
        (set_timers (filter (λ t, handle t ≠ h)) w)
  | None => w
  end.

Definition clear_events (o : CancelCtx) : list Event :=
  match timer_of o with
  | Some h => [EvClearTimeout h]
  | None => []
  end.

(** The world right after [this.err = err] and the update of [_done]. *)
Definition base_world (this : nat) (e : Error) (o : CancelCtx) (w : World) : World :=
  set_heap (λ h, <[this := base_settle e o]> h) w.

(** The promise slot of an object holds nothing, its own promise, or the
    shared resolved promise once the object is settled. *)
Definition done_ok (o : CancelCtx) : Prop :=
  match _done o with
  | None => True
  | Some (newPromise _ _) => True
  | Some alwaysResolve => err o ≠ None
  | Some _ => False
  end.

(** Well-formed worlds. *)
Record wf (w : World) : Prop := mkWf {
  wf_child : ∀ p c, tracks w p c →
    ∃ oc, heap w !! c = Some oc ∧ parent oc = ctxRef p;
  wf_parent : ∀ n o p, heap w !! n = Some o → parent o = ctxRef p → p < n;
  wf_live : ∀ p c, live w p → tracks w p c → live w c;
  wf_done : ∀ n o, heap w !! n = Some o → done_ok o;
  wf_timers : ∀ t, t ∈ timers w → timerOf w (target t) = Some (handle t);
  wf_timer : ∀ n o, heap w !! n = Some o → err o ≠ None → timer_of o = None;
  wf_unique : ∀ i j h, timerOf w i = Some h → timerOf w j = Some h → i = j;
  wf_next : ∀ i h, timerOf w i = Some h → (h < nextTimer w)%positive;
  wf_races : ∀ p c, (p, c) ∈ races w →
    parentCancelCtx p = None ∧ ∃ oc, heap w !! c = Some oc ∧ parent oc = p
}.

Definition deadline_of (o : CancelCtx) : option Date :=
  match asTimer o with
  | Some t => Some (_deadline t)
  | None => None
  end.

(** What every operation of the module guarantees about the objects that
    already exist: they stay, keep their parent and deadline, keep their
    error once it is set, and do not acquire a timer. *)
Record evolves (w w' : World) : Prop := mkEvolves {
  ev_length : length (heap w) ≤ length (heap w');
  ev_heap : ∀ i o, heap w !! i = Some o →
    ∃ o', heap w' !! i = Some o' ∧
      parent o' = parent o ∧
      deadline_of o' = deadline_of o ∧
      (∀ x, err o = Some x → err o' = Some x) ∧
      (timer_of o' = timer_of o ∨ timer_of o' = None);
  ev_foreign : ∀ k f, foreign w !! k = Some f →
    ∃ f', foreign w' !! k = Some f' ∧
      f_deadline f' = f_deadline f ∧
      (∀ x, f_error f = Some x → f_error f' = Some x)
}.

(** Only promise slots changed. *)
Record done_only (w w' : World) : Prop := mkDoneOnly {
  do_length : length (heap w') = length (heap w);
  do_heap : ∀ i o, heap w !! i = Some o →
    ∃ d, heap w' !! i = Some (with_done d o);
  do_timers : timers w' = timers w;
  do_foreign : foreign w' = foreign w;
  do_next : nextTimer w' = nextTimer w;
  do_races : races w' = races w
}.

Definition fresh (parent : Context) (tm : option TimerCtx) : CancelCtx :=
  mkCancelCtx parent None None None tm.

Definition alloc (parent : Context) (tm : option TimerCtx) (w : World) : World :=
  set_heap (λ h, h ++ [fresh parent tm]) w.

(** Registration of a child in its parent's set. *)
Definition register (p : nat) (po : CancelCtx) (c : nat) (w : World) : World :=
  set_heap (λ h, <[p := with_children
                          (Some (Set_add c (default [] (children po)))) po]> h) w.

(** Scheduling the expiry timer of a live [TimerCtx]. *)
Definition arm (c : nat) (d : number) (o : CancelCtx) (w : World) : World :=
  set_heap (λ h, <[c := with_timer (Some (nextTimer w)) o]> h)
    (mkWorld (heap w) (foreign w)
       (timers w ++ [mkTimeout (nextTimer w) c d])
       (Pos.succ (nextTimer w)) (races w)).

(** Worlds that enabled actions lead to. *)
Inductive reaches (w : World) : World → Prop :=
  | reaches_refl : reaches w w
  | reaches_step a w' :
      reaches w w' → enabled a w' = true → reaches w (exec a w').

(** ** Example worlds *)

(** A parent (0) with two children (1, 3); child 1 has a child (2) that is
    bound to a 50 ms timeout. *)
Definition ex_family : World :=
  exec (ActWithCancel (ctxRef 0))
    (exec (ActWithTimeout (ctxRef 1) (Num 50) 0 0)
       (exec (ActWithCancel (ctxRef 0))
          (exec (ActWithCancel backgroundCtx) emptyWorld))).

(** The same family after the cancel closure of the parent was called. *)
Definition ex_cancelled : World := exec (ActCancelFunc 0) ex_family.

(** A single context with the deadline 100, created at time 0. *)
Definition ex_deadline : World :=
  exec (ActWithDeadline backgroundCtx (date 100) 0) emptyWorld.


(** A foreign context that reports [cancelledErr]. *)
Definition ex_foreign : World :=
  exec (ActForeignNew (mkForeignCtx None (foreignPromise 0) (Some cancelledErr)))
    emptyWorld.

(** A child (0) of the foreign context of [ex_foreign], with its race
    pending. *)
Definition ex_race : World := exec (ActWithCancel (foreignRef 0)) ex_foreign.

(** A child (0) of a foreign context that reports no error. *)
Definition ex_quiet : World :=
  exec (ActWithCancel (foreignRef 0))
    (exec (ActForeignNew (mkForeignCtx None (foreignPromise 0) None)) emptyWorld).

Ltac reach :=
  repeat first
    [ apply reach_init
    | apply reach_step; [|vm_compute; reflexivity] ].

(** ** Vocabulary of the further properties *)

(** The elementary changes [propagateCancel], the closures and the callbacks
    make to a well-formed world. *)
Inductive link_step (w : World) : World → Prop :=
  | ls_done i o :
      heap w !! i = Some o → _done o = None →
      link_step w
        (set_heap (λ h, <[i := with_done (Some (newPromise i false)) o]> h) w)
  | ls_cancel n rfp e o V w' :
      heap w !! n = Some o →
      rfp = true ∨ (∀ q, ¬ tracks w q n) →
      effect V e (rfp && is_live o) (parent o) n w w' →
      cascade_set [n] V w →
      link_step w w'
  | ls_register p po c oc :
      heap w !! p = Some po → err po = None →
      heap w !! c = Some oc → parent oc = ctxRef p → err oc = None →
      link_step w (register p po c w)
  | ls_race p c oc :
      parentCancelCtx p = None → heap w !! c = Some oc → parent oc = p →
      link_step w (set_races (λ r, r ++ [(p, c)]) w).

(** Sequences of such changes, each made to a well-formed world. *)
Inductive steps : World → World → Prop :=
  | steps_nil w : steps w w
  | steps_cons w w1 w2 : wf w → link_step w w1 → steps w1 w2 → steps w w2.

(** What [propagateCancel parent child] has done when it returns. *)
Definition link_outcome (p : Context) (c : nat) (w w2 : World) : Prop :=
  timers w2 = timers w ∧ nextTimer w2 = nextTimer w ∧ foreign w2 = foreign w ∧
  (∀ j, j ≠ c → error (ctxRef j) w2 = error (ctxRef j) w) ∧
  match p with
  | backgroundCtx => w2 = w
  | ctxRef i =>
      match error (ctxRef i) w with
      | Some e =>
          error (ctxRef c) w2 = Some e ∧ races w2 = races w ∧
          ∀ q d, tracks w2 q d ↔ tracks w q d
      | None =>
          error (ctxRef c) w2 = None ∧ races w2 = races w ∧
          ∀ q d, tracks w2 q d ↔ tracks w q d ∨ (q = i ∧ d = c)
      end
  | foreignRef k =>
      match foreign w !! k with
      | Some f =>
          if is_blockForever (f_done f) then w2 = w
          else
            error (ctxRef c) w2 = None ∧ races w2 = races w ++ [(p, c)] ∧
            ∀ q d, tracks w2 q d ↔ tracks w q d
      | None => True
      end
  end.

(** How [withDeadline] ends once the timer node is linked. *)
Inductive deadline_tail (c : nat) (dl : Date) (now : Z) (o2 : CancelCtx)
    (w2 w' : World) : Prop :=
  | dt_passed V :
      number_le (number_sub (getTime dl) (Num now)) (Num 0) = true →
      effect V deadlineExceededErr (true && is_live o2) (parent o2) c w2 w' →
      cascade_set [c] V w2 →
      deadline_tail c dl now o2 w2 w'
  | dt_settled :
      number_le (number_sub (getTime dl) (Num now)) (Num 0) = false →
      err o2 ≠ None → w' = w2 →
      deadline_tail c dl now o2 w2 w'
  | dt_armed :
      number_le (number_sub (getTime dl) (Num now)) (Num 0) = false →
      err o2 = None →
      w' = arm c (number_sub (getTime dl) (Num now)) o2 w2 →
      deadline_tail c dl now o2 w2 w'.

(** The shape of what one action does. *)
Inductive shape (w w' : World) : Prop :=
  | sh_steps w1 :
      heap w1 = heap w → timers w1 = timers w → wf w1 → steps w1 w' →
      shape w w'
  | sh_plain p :
      valid_ctx p w = true → steps (alloc p None w) w' → shape w w'
  | sh_timer p dl now w2 o2 :
      valid_ctx p w = true →
      steps (alloc p (Some (mkTimerCtx dl None)) w) w2 → wf w2 →
      heap w2 !! length (heap w) = Some o2 →
      asTimer o2 = Some (mkTimerCtx dl None) →
      deadline_tail (length (heap w)) dl now o2 w2 w' →
      shape w w'.

(** Whether a promise has been resolved. *)
Definition is_resolved (p : Promise) : bool :=
  match p with
  | alwaysResolve => true
  | newPromise _ r => r
  | _ => false
  end.

(** The promise slot of an object agrees with its error slot: a live object
    has no promise yet or its own pending one, a settled object has the
    shared resolved promise or its own resolved one. *)
Definition signal_ok (n : nat) (o : CancelCtx) : Prop :=
  match err o with
  | None => _done o = None ∨ _done o = Some (newPromise n false)
  | Some _ => _done o = Some alwaysResolve ∨ _done o = Some (newPromise n true)
  end.

Definition signals_ok (w : World) : Prop :=
  ∀ n o, heap w !! n = Some o → signal_ok n o.

(** Every live timer node other than [x] has its expiry timer pending. *)
Definition armed (x : option nat) (w : World) : Prop :=
  ∀ n o tc, heap w !! n = Some o → err o = None → asTimer o = Some tc →
    x ≠ Some n →
    ∃ t, t ∈ timers w ∧ target t = n ∧ timer tc = Some (handle t) ∧
         number_le (delay t) (Num 0) = false.

(** The error [propagateCancel] hands to the child at once: the one of a
    settled [CancelCtx] parent, nothing for any other parent. *)
Definition linked_error (p : Context) (w : World) : ErrorType :=
  match p with
  | ctxRef _ => error p w
  | _ => None
  end.

(** A tracked child has the error of the node that tracks it. *)
Definition family_ok (w : World) : Prop :=
  ∀ p c, tracks w p c → error (ctxRef c) w = error (ctxRef p) w.

(** * Reasoning about the embedding *)

(** ** Evaluation of monadic code *)

Lemma pre_nil {A} (r : Result A) : pre [] r = r.
Proof. by destruct r. Qed.

Lemma pre_pre {A} tr1 tr2 (r : Result A) : pre tr1 (pre tr2 r) = pre (tr1 ++ tr2) r.
Proof. destruct r; simpl; by rewrite ?app_assoc. Qed.

Lemma bind_eq {A B} (m : M A) (k : A → M B) w a w1 tr1 :
  m w = Returned a w1 tr1 → bind m k w = pre tr1 (k a w1).
Proof. unfold bind. by intros ->. Qed.

Lemma bind_ret {A B} (a : A) (k : A → M B) w : bind (ret a) k w = k a w.
Proof. unfold bind, ret. apply pre_nil. Qed.

Lemma bind_emit {B} ev (k : unit → M B) w : bind (emit ev) k w = pre [ev] (k tt w).
Proof. done. Qed.

Lemma bind_getObj {B} this (k : CancelCtx → M B) w o :
  heap w !! this = Some o → bind (getObj this) k w = k o w.
Proof. unfold bind, getObj. intros ->. apply pre_nil. Qed.

Lemma bind_modObj {B} this f (k : unit → M B) w o :
  heap w !! this = Some o →
  bind (modObj this f) k w = k tt (set_heap (λ h, <[this := f o]> h) w).
Proof. unfold bind, modObj. intros ->. apply pre_nil. Qed.

Lemma bind_assoc {A B C} (m : M A) (k : A → M B) (k' : B → M C) w :
  bind (bind m k) k' w = bind m (λ a, bind (k a) k') w.
Proof.
  unfold bind. destruct (m w) as [a w1 tr1| |]; [|done..].
  destruct (k a w1) as [b w2 tr2| |]; simpl; [|done..].
  by rewrite pre_pre.
Qed.

(** ** The effect of a cascade *)

Lemma upd_nil e p c i o : upd [] e false p c i o = o.
Proof.
  unfold upd. destruct (decide (i ∈ [])) as [H|_]; [|done].
  by apply not_elem_of_nil in H.
Qed.

Lemma effect_refl e p c w : effect [] e false p c w w.
Proof.
  split; [done| | |done..].
  - intros i o Hi. by rewrite upd_nil.
  - simpl. induction (timers w) as [|t l IH]; [done|].
    rewrite filter_cons_True by apply not_elem_of_nil. by rewrite <- IH.
Qed.

Lemma with_children_id o : with_children (children o) o = o.
Proof. by destruct o. Qed.

Lemma with_timer_id o :
  (∀ tc, asTimer o = Some tc → timer tc = None) → with_timer None o = o.
Proof.
  destruct o as [p d e cs [[dl t]|]]; unfold with_timer; simpl; [|done].
  intros H. specialize (H _ eq_refl). simpl in H. by subst.
Qed.

(** ** Unfolding [CancelCtx.cancel] *)

Lemma set_heap_insert_insert w i x y :
  set_heap (λ h, <[i := x]> h) (set_heap (λ h, <[i := y]> h) w)
  = set_heap (λ h, <[i := x]> h) w.
Proof. unfold set_heap. simpl. by rewrite list_insert_insert_eq. Qed.

Lemma CancelCtx_cancel_settled dispatch this rfp e w o x :
  heap w !! this = Some o → err o = Some x →
  CancelCtx_cancel dispatch this rfp (Some e) w = Returned tt w [].
Proof.
  intros Ho Hx. unfold CancelCtx_cancel.
  rewrite (bind_getObj _ _ _ _ Ho), Hx. done.
Qed.

Lemma CancelCtx_cancel_live dispatch this rfp e w o :
  heap w !! this = Some o → err o = None →
  (_done o = None ∨ ∃ j r, _done o = Some (newPromise j r)) →
  CancelCtx_cancel dispatch this rfp (Some e) w =
  pre (resolve_events this o)
    (bind (for_of (default [] (children o)) (λ c, dispatch c false (Some e)))
       (λ _, if rfp then removeChild (parent o) this else ret tt)
       (set_heap (λ h, <[this := base_settle e o]> h) w)).
Proof.
  intros Ho He Hd. unfold CancelCtx_cancel.
  rewrite (bind_getObj _ _ _ _ Ho), He.
  rewrite (bind_modObj _ _ _ _ _ Ho).
  assert (Hlt : this < length (heap w)) by (by eapply lookup_lt_Some).
  set (w1 := set_heap _ w).
  assert (H1 : heap w1 !! this = Some (with_err (Some e) o)).
  { subst w1. simpl. by apply list_lookup_insert_eq. }
  assert (Hcs : ∀ k : unit → M unit, ∀ w2,
    bind (match children o with
          | Some cs => for_of cs (λ child, dispatch child false (Some e))
          | None => ret tt
          end) k w2
    = bind (for_of (default [] (children o)) (λ c, dispatch c false (Some e))) k w2).
  { intros k w2. by destruct (children o). }
  unfold resolve_events, base_settle.
  destruct Hd as [Hd|(j & r & Hd)]; rewrite Hd; simpl.
  - rewrite (bind_modObj _ _ _ _ _ H1). subst w1.
    rewrite set_heap_insert_insert. rewrite Hcs.
    by rewrite pre_nil.
  - rewrite bind_assoc. rewrite (bind_modObj _ _ _ _ _ H1). subst w1.
    rewrite set_heap_insert_insert. rewrite bind_emit. rewrite Hcs. done.
Qed.

Lemma err_settle e o : err (settle e o) = Some e.
Proof. by destruct o as [p d x cs [[dl t]|]]. Qed.
Lemma children_settle e o : children (settle e o) = children o.
Proof. by destruct o as [p d x cs [[dl t]|]]. Qed.
Lemma parent_settle e o : parent (settle e o) = parent o.
Proof. by destruct o as [p d x cs [[dl t]|]]. Qed.

Lemma upd_false V e p c i o :
  upd V e false p c i o = if decide (i ∈ V) then settle e o else o.
Proof. done. Qed.

Lemma upd_not_in V e b p c i o :
  i ∉ V → upd V e b p c i o =
    if b && bool_decide (p = ctxRef i)
    then with_children (Set_delete c <$> children o) o else o.
Proof. intros Hi. unfold upd. by rewrite decide_False. Qed.

Lemma children_upd_false V e p c i o :
  children (upd V e false p c i o) = children o.
Proof. rewrite upd_false. destruct (decide _); [apply children_settle|done]. Qed.

Lemma parent_upd V e b p c i o : parent (upd V e b p c i o) = parent o.
Proof.
  unfold upd. destruct (decide _), (b && _); simpl;
    rewrite ?parent_settle; done.
Qed.

Lemma err_upd V e b p c i o :
  err (upd V e b p c i o) = if decide (i ∈ V) then Some e else err o.
Proof.
  unfold upd. destruct (decide _), (b && _); simpl; rewrite ?err_settle; done.
Qed.

Section effect.
Context {V : list nat} {e : Error} {b : bool} {p : Context} {c : nat}.
Context {w w' : World} (E : effect V e b p c w w').

Lemma effect_lookup_None i : heap w !! i = None → heap w' !! i = None.
Proof.
  rewrite !lookup_ge_None. by rewrite (eff_length _ _ _ _ _ _ _ E).
Qed.

Lemma effect_lookup_inv i o' :
  heap w' !! i = Some o' →
  ∃ o, heap w !! i = Some o ∧ o' = upd V e b p c i o.
Proof.
  intros Hi. destruct (heap w !! i) as [o|] eqn:Ho.
  - exists o. split; [done|].
    rewrite (eff_heap _ _ _ _ _ _ _ E _ _ Ho) in Hi. by simplify_eq.
  - apply effect_lookup_None in Ho. congruence.
Qed.

Lemma effect_live i : live w' i → live w i ∧ i ∉ V.
Proof.
  intros (o' & Ho' & He). apply effect_lookup_inv in Ho' as (o & Ho & ->).
  rewrite err_upd in He. destruct (decide (i ∈ V)) as [Hi|Hi]; [done|].
  split; [|done]. by exists o.
Qed.

Lemma effect_live_back i : live w i → i ∉ V → live w' i.
Proof.
  intros (o & Ho & He) Hi. eexists. split; [by apply (eff_heap _ _ _ _ _ _ _ E)|].
  rewrite err_upd. by rewrite decide_False.
Qed.

Lemma effect_timerOf i : i ∉ V → timerOf w' i = timerOf w i.
Proof.
  intros Hi. unfold timerOf. destruct (heap w !! i) as [o|] eqn:Ho.
  - rewrite (eff_heap _ _ _ _ _ _ _ E _ _ Ho), upd_not_in by done.
    by destruct (b && _).
  - by rewrite effect_lookup_None.
Qed.

Lemma effect_cleared V' : (∀ i, i ∈ V' → i ∉ V) → cleared V' w' = cleared V' w.
Proof.
  intros HV. unfold cleared. induction V' as [|i V' IH]; [done|].
  csimpl. rewrite effect_timerOf by (apply HV; left).
  rewrite IH; [done|]. intros j Hj. apply HV. by right.
Qed.
End effect.

Lemma effect_tracks V e p c w w' q d :
  effect V e false p c w w' → tracks w' q d ↔ tracks w q d.
Proof.
  intros E. split.
  - intros (oq & cs & Hq & Hcs & Hd).
    apply (effect_lookup_inv E) in Hq as (o & Ho & ->).
    rewrite children_upd_false in Hcs. by exists o, cs.
  - intros (oq & cs & Hq & Hcs & Hd).
    eexists _, cs. split; [by apply (eff_heap _ _ _ _ _ _ _ E)|].
    by rewrite children_upd_false.
Qed.

Lemma cleared_app V1 V2 w : cleared (V1 ++ V2) w = cleared V1 w ++ cleared V2 w.
Proof. unfold cleared. apply omap_app. Qed.

Lemma effect_trans V1 V2 e p c w w1 w2 :
  effect V1 e false p c w w1 →
  effect V2 e false p c w1 w2 →
  (∀ i, i ∈ V2 → live w1 i) →
  effect (V1 ++ V2) e false p c w w2.
Proof.
  intros E1 E2 HV2.
  assert (Hdisj : ∀ i, i ∈ V2 → i ∉ V1).
  { intros i Hi. by apply (effect_live E1), HV2. }
  split.
  - by rewrite (eff_length _ _ _ _ _ _ _ E2), (eff_length _ _ _ _ _ _ _ E1).
  - intros i o Ho.
    rewrite (eff_heap _ _ _ _ _ _ _ E2 _ _ (eff_heap _ _ _ _ _ _ _ E1 _ _ Ho)).
    f_equal. rewrite !upd_false.
    destruct (decide (i ∈ V1)) as [H1|H1].
    + rewrite decide_False by (intros H2; by apply Hdisj in H2).
      rewrite decide_True; [done|]. apply elem_of_app. by left.
    + destruct (decide (i ∈ V2)) as [H2|H2].
      * rewrite decide_True; [done|]. apply elem_of_app. by right.
      * rewrite decide_False; [done|]. rewrite elem_of_app. tauto.
  - rewrite (eff_timers _ _ _ _ _ _ _ E2), (eff_timers _ _ _ _ _ _ _ E1).
    rewrite list_filter_filter. apply list_filter_iff. intros t.
    rewrite (effect_cleared E1) by done.
    rewrite cleared_app, elem_of_app. tauto.
  - by rewrite (eff_foreign _ _ _ _ _ _ _ E2), (eff_foreign _ _ _ _ _ _ _ E1).
  - by rewrite (eff_next _ _ _ _ _ _ _ E2), (eff_next _ _ _ _ _ _ _ E1).
  - by rewrite (eff_races _ _ _ _ _ _ _ E2), (eff_races _ _ _ _ _ _ _ E1).
Qed.

Lemma cancel_pre_mono w lo lo' : cancel_pre w lo → lo ≤ lo' → cancel_pre w lo'.
Proof.
  intros [H1 H0 H2 H3] Hle. split; [done..|].
  intros i o tc Hi. apply H3. lia.
Qed.

Lemma timer_settle e o tc : asTimer (settle e o) = Some tc → timer tc = None.
Proof. destruct o as [p d x cs [[dl t]|]]; simpl; intros; by simplify_eq. Qed.

Lemma done_upd_live V e b p c i o :
  err (upd V e b p c i o) = None → _done (upd V e b p c i o) = _done o.
Proof.
  rewrite err_upd. unfold upd. destruct (decide _); [done|].
  by destruct (b && _).
Qed.

Lemma effect_pre V e p c w w' lo :
  effect V e false p c w w' → cancel_pre w lo → cancel_pre w' lo.
Proof.
  intros E [H1 H0 H2 H3]. split.
  - intros q d Ht. rewrite (eff_length _ _ _ _ _ _ _ E).
    apply H1. by apply (effect_tracks _ _ _ _ _ _ _ _ E).
  - intros i o' pi Ho' Hp. rewrite (eff_length _ _ _ _ _ _ _ E).
    apply (effect_lookup_inv E) in Ho' as (o & Ho & ->).
    rewrite parent_upd in Hp. by eapply H0.
  - intros i o' Ho' He.
    apply (effect_lookup_inv E) in Ho' as (o & Ho & ->).
    rewrite (done_upd_live _ _ _ _ _ _ _ He). apply (H2 _ _ Ho).
    rewrite err_upd in He. by destruct (decide _).
  - intros i o' tc Hi Ho' He Ht.
    apply (effect_lookup_inv E) in Ho' as (o & Ho & ->).
    rewrite upd_false in He, Ht. destruct (decide _).
    + by eapply timer_settle.
    + by eapply H3.
Qed.

Lemma effect_irrel V e p c p' c' w w' :
  effect V e false p c w w' → effect V e false p' c' w w'.
Proof. intros [H1 H2 H3 H4 H5 H6]. split; try done. Qed.

Lemma cascade_set_app c rest V1 V2 e p q w w1 :
  effect V1 e false p q w w1 →
  cascade_set [c] V1 w →
  cascade_set rest V2 w1 →
  cascade_set (c :: rest) (V1 ++ V2) w.
Proof.
  intros E [L1 R1 C1 O1 B1] [L2 R2 C2 O2 B2]. split.
  - intros i [Hi|Hi]%elem_of_app; [by apply L1|].
    by apply (effect_live E), L2.
  - intros r Hr Hl. apply elem_of_app.
    apply elem_of_cons in Hr as [->|Hr].
    + left. apply R1; [by left|done].
    + destruct (decide (r ∈ V1)); [by left|right].
      apply R2; [done|]. by apply (effect_live_back E).
  - intros i d [Hi|Hi]%elem_of_app Ht Hl; apply elem_of_app.
    + left. by eapply C1.
    + destruct (decide (d ∈ V1)); [by left|right].
      eapply C2; [done| |by apply (effect_live_back E)].
      by apply (effect_tracks _ _ _ _ _ _ _ _ E).
  - intros i [Hi|Hi]%elem_of_app.
    + destruct (O1 _ Hi) as [Hr|(x & Hx & Ht)].
      * left. apply list_elem_of_singleton in Hr as ->. by left.
      * right. exists x. split; [|done]. apply elem_of_app. by left.
    + destruct (O2 _ Hi) as [Hr|(x & Hx & Ht)].
      * left. by right.
      * right. exists x. split; [apply elem_of_app; by right|].
        by apply (effect_tracks _ _ _ _ _ _ _ _ E).
  - intros i [Hi|Hi]%elem_of_app.
    + destruct (B1 _ Hi) as (r & Hr & Hle).
      apply list_elem_of_singleton in Hr as ->. exists c. split; [by left|done].
    + destruct (B2 _ Hi) as (r & Hr & Hle). exists r. split; [by right|done].
Qed.

Lemma for_of_spec fuel e (IH : cancel_ok fuel e) cs :
  ∀ w lo,
    cancel_pre w lo →
    (∀ c, c ∈ cs → lo ≤ c < length (heap w)) →
    length (heap w) < fuel + lo →
    ∃ V w' tr,
      for_of cs (λ c, cancel fuel c false (Some e)) w = Returned tt w' tr ∧
      effect V e false backgroundCtx 0 w w' ∧
      cascade_set cs V w ∧
      cascade_calls e tr ∧
      (∀ c, c ∈ cs → EvCancel c false (Some e) ∈ tr) ∧
      calls_children w V e tr.
Proof.
  induction cs as [|c rest IHcs]; intros w lo Hpre Hcs Hfuel.
  - exists [], w, []. split; [done|]. split; [apply effect_refl|].
    split; [|split; [|split]].
    + split; intros; by_nil.
    + intros j r x Hj. by apply elem_of_nil in Hj.
    + intros d Hd. by apply elem_of_nil in Hd.
    + intros i d Hi. by apply elem_of_nil in Hi.
  - destruct (Hcs c) as [Hlo Hlt]; [by left|].
    destruct (lookup_lt_is_Some_2 _ _ Hlt) as [oc Hoc].
    destruct (IH c false w oc) as (V1 & w1 & tr1 & Hr1 & E1 & S1 & T1 & K1).
    { by eapply cancel_pre_mono. } { done. } { lia. }
    simpl in E1. apply (effect_irrel _ _ _ _ backgroundCtx 0) in E1.
    destruct (IHcs w1 lo) as (V2 & w2 & tr2 & Hr2 & E2 & S2 & T2 & R2 & K2).
    { by eapply effect_pre. }
    { intros d Hd. rewrite (eff_length _ _ _ _ _ _ _ E1). apply Hcs. by right. }
    { by rewrite (eff_length _ _ _ _ _ _ _ E1). }
    exists (V1 ++ V2), w2, ((EvCancel c false (Some e) :: tr1) ++ tr2).
    split; [|split; [|split; [|split; [|split]]]].
    + simpl. erewrite bind_eq by exact Hr1. by rewrite Hr2.
    + eapply effect_trans; [done..|]. apply S2.
    + by eapply cascade_set_app.
    + intros j r x [Hj|Hj]%elem_of_app; [|by eapply T2].
      apply elem_of_cons in Hj as [Hj|Hj]; [by simplify_eq|by eapply T1].
    + intros d [->|Hd]%elem_of_cons; apply elem_of_app; [left; by left|].
      right. by apply R2.
    + intros i d [Hi|Hi]%elem_of_app Ht; apply elem_of_app.
      * left. right. by eapply K1.
      * right. eapply K2; [done|]. by apply (effect_tracks _ _ _ _ _ _ _ _ E1).
Qed.

Lemma filter_all_nil (l : list Timeout) :
  filter (λ t, handle t ∉ @nil positive) l = l.
Proof.
  induction l as [|t l IH]; [done|].
  rewrite filter_cons_True by apply not_elem_of_nil. by rewrite IH.
Qed.

Lemma removeChild_spec e p c w :
  (∀ pi, p = ctxRef pi → pi < length (heap w)) →
  ∃ w', removeChild p c w = Returned tt w' [] ∧ effect [] e true p c w w'.
Proof.
  intros Hp. unfold removeChild. destruct p as [|pi|k]; simpl.
  - exists w. split; [done|]. split; try done.
    symmetry. apply filter_all_nil.
  - destruct (lookup_lt_is_Some_2 (heap w) pi) as [po Hpo]; [by apply Hp|].
    rewrite (bind_getObj _ _ _ _ Hpo).
    destruct (children po) as [cs|] eqn:Hcs.
    + unfold modObj. rewrite Hpo. eexists. split; [done|].
      split; simpl; [| | |done..].
      * by rewrite length_insert.
      * intros i o Hi. unfold upd. simpl.
        rewrite list_lookup_insert. case_bool_decide as Hpi.
        -- simplify_eq. rewrite decide_True by (split; [done|by eapply lookup_lt_Some]).
           by rewrite Hcs.
        -- rewrite decide_False; [done|]. intros [-> _]. done.
      * symmetry. apply filter_all_nil.
    + exists w. split; [done|]. split; [done| | |done..].
      * intros i o Hi. rewrite Hi. f_equal. unfold upd. simpl.
        case_bool_decide as Hpi; [|done].
        assert (o = po) as -> by congruence.
        rewrite Hcs. simpl. by rewrite <- Hcs, with_children_id.
      * symmetry. apply filter_all_nil.
  - exists w. split; [done|]. split; try done.
    symmetry. apply filter_all_nil.
Qed.

Lemma effect_then_remove V e p c w w1 w2 :
  effect V e false p c w w1 →
  effect [] e true p c w1 w2 →
  effect V e true p c w w2.
Proof.
  intros E1 E2. split.
  - by rewrite (eff_length _ _ _ _ _ _ _ E2), (eff_length _ _ _ _ _ _ _ E1).
  - intros i o Ho.
    by rewrite (eff_heap _ _ _ _ _ _ _ E2 _ _ (eff_heap _ _ _ _ _ _ _ E1 _ _ Ho)).
  - rewrite (eff_timers _ _ _ _ _ _ _ E2), (eff_timers _ _ _ _ _ _ _ E1).
    unfold cleared; simpl. by rewrite filter_all_nil.
  - by rewrite (eff_foreign _ _ _ _ _ _ _ E2), (eff_foreign _ _ _ _ _ _ _ E1).
  - by rewrite (eff_next _ _ _ _ _ _ _ E2), (eff_next _ _ _ _ _ _ _ E1).
  - by rewrite (eff_races _ _ _ _ _ _ _ E2), (eff_races _ _ _ _ _ _ _ E1).
Qed.

Lemma TimerCtx_finish this w o :
  heap w !! this = Some o →
  bind (getObj this) (λ o,
    match asTimer o with
    | Some t =>
        match timer t with
        | Some h => clearTimeout h;; modObj this (with_timer None)
        | None => ret tt
        end
    | None => ret tt
    end) w = Returned tt (clear_timer this o w) (clear_events o).
Proof.
  intros Ho. rewrite (bind_getObj _ _ _ _ Ho).
  unfold clear_timer, clear_events, timer_of.
  destruct (asTimer o) as [t|]; [|done].
  destruct (timer t) as [h|]; [|done].
  unfold bind, clearTimeout, modObj. simpl. by rewrite Ho.
Qed.

Lemma with_timer_children cs o :
  with_timer None (with_children cs o) = with_children cs (with_timer None o).
Proof. done. Qed.

Lemma upd_head this V e b p c o :
  this ∉ V →
  with_timer None (upd V e b p c this (base_settle e o))
  = upd (this :: V) e b p c this o.
Proof.
  intros Hn. unfold upd. rewrite decide_False by done.
  rewrite decide_True by (by left).
  destruct (b && _); [|done].
  by rewrite with_timer_children.
Qed.

Lemma upd_tail this V e b p c i o :
  i ≠ this → upd V e b p c i o = upd (this :: V) e b p c i o.
Proof.
  intros Hn. unfold upd.
  destruct (decide (i ∈ V)) as [Hi|Hi].
  - rewrite decide_True; [done|]. by right.
  - rewrite decide_False; [done|]. intros [?|?]%elem_of_cons; done.
Qed.

Section base.
Context (this : nat) (e : Error) (o : CancelCtx) (w : World).
Context (Ho : heap w !! this = Some o).

Lemma base_lookup i :
  heap (base_world this e o w) !! i = if decide (i = this) then Some (base_settle e o) else heap w !! i.
Proof using Ho.
  unfold base_world. simpl. rewrite list_lookup_insert.
  apply lookup_lt_Some in Ho.
  destruct (decide (i = this)) as [->|Hne].
  - by rewrite decide_True.
  - rewrite decide_False; [done|]. intros [-> _]. done.
Qed.

Lemma base_length : length (heap (base_world this e o w)) = length (heap w).
Proof. unfold base_world. simpl. by rewrite length_insert. Qed.

Lemma base_tracks q d : tracks (base_world this e o w) q d ↔ tracks w q d.
Proof using Ho.
  unfold tracks. setoid_rewrite base_lookup.
  destruct (decide (q = this)) as [->|Hne]; [|done].
  split; intros (oq & cs & Hq & Hcs & Hd); simplify_eq; eauto.
Qed.

Lemma base_live i : live (base_world this e o w) i ↔ live w i ∧ (i = this → err o ≠ None).
Proof using Ho.
  unfold live. setoid_rewrite base_lookup.
  destruct (decide (i = this)) as [->|Hne].
  - split.
    + intros (x & Hx & He). by simplify_eq.
    + intros [(x & Hx & He) Hn]. simplify_eq. by destruct Hn.
  - split; [intros H; split; [done|]; by intros ?|by intros [H _]].
Qed.

Lemma base_pre : cancel_pre w this → cancel_pre (base_world this e o w) (S this).
Proof using Ho.
  intros [H1 H0 H2 H3]. split.
  - intros q d Ht. rewrite base_length. apply H1. by apply base_tracks.
  - intros i x pi. rewrite base_lookup, base_length.
    destruct (decide _) as [->|]; [|by apply H0].
    intros ? Hp. simplify_eq. by eapply H0.
  - intros i x. rewrite base_lookup.
    destruct (decide _) as [->|]; [|by apply H2].
    intros ? He. by simplify_eq.
  - intros i x tc Hi. rewrite base_lookup.
    rewrite decide_False by lia. apply H3. lia.
Qed.

Lemma base_cleared V : this ∉ V → cleared V (base_world this e o w) = cleared V w.
Proof using Ho.
  intros HV. unfold cleared. induction V as [|i V IH]; [done|].
  csimpl. apply not_elem_of_cons in HV as [Hne HV].
  rewrite IH by done. unfold timerOf at 1 3. rewrite base_lookup.
  by rewrite decide_False.
Qed.

Lemma cascade_set_wrap V :
  cancel_pre w this → err o = None →
  cascade_set (default [] (children o)) V (base_world this e o w) →
  (this ∉ V) ∧ cascade_set [this] (this :: V) w.
Proof using Ho.
  intros Hpre He [HL HR HC HO HB].
  assert (Hkids : ∀ c, c ∈ default [] (children o) ↔ tracks w this c).
  { intros c. unfold tracks. split.
    - destruct (children o) as [cs|] eqn:Hcs; simpl; [|by intros ?%elem_of_nil].
      intros Hc. by exists o, cs.
    - intros (x & cs & Hx & Hcs & Hc). simplify_eq. by rewrite Hcs. }
  assert (Hgt : ∀ i, i ∈ V → this < i).
  { intros i Hi. destruct (HB _ Hi) as (r & Hr & Hle).
    apply Hkids, (pre_order _ _ Hpre) in Hr. lia. }
  assert (Hnot : this ∉ V).
  { intros Hi. apply Hgt in Hi. lia. }
  split; [done|]. split.
  - intros i [->|Hi]%elem_of_cons; [by exists o|].
    by apply base_live, HL.
  - intros r ->%list_elem_of_singleton _. by left.
  - intros i c Hi Ht Hl.
    assert (c ≠ this).
    { intros ->. apply elem_of_cons in Hi as [->|Hi].
      - apply (pre_order _ _ Hpre) in Ht. lia.
      - apply Hgt in Hi. apply (pre_order _ _ Hpre) in Ht. lia. }
    assert (live (base_world this e o w) c) by (apply base_live; by split).
    right. apply elem_of_cons in Hi as [->|Hi].
    + apply HR; [by apply Hkids|done].
    + eapply HC; [done| |done]. by apply base_tracks.
  - intros i [->|Hi]%elem_of_cons; [left; by left|right].
    destruct (HO _ Hi) as [Hr|(q & Hq & Ht)].
    + exists this. split; [by left|by apply Hkids].
    + exists q. split; [by right|by apply base_tracks].
  - intros i Hi. exists this. split; [by left|].
    apply elem_of_cons in Hi as [->|Hi]; [done|]. apply Hgt in Hi. lia.
Qed.

Lemma timer_of_upd V b p c :
  this ∉ V →
  timer_of (upd V e b p c this (base_settle e o)) = timer_of o.
Proof.
  intros HV. rewrite upd_not_in by done. by destruct (b && _).
Qed.

Lemma effect_wrap V b p w3 :
  this ∉ V →
  effect V e b p this (base_world this e o w) w3 →
  effect (this :: V) e b p this w
    (clear_timer this (upd V e b p this this (base_settle e o)) w3).
Proof using Ho.
  intros HV E.
  assert (H3 : heap w3 !! this = Some (upd V e b p this this (base_settle e o))).
  { apply (eff_heap _ _ _ _ _ _ _ E). rewrite base_lookup. by rewrite decide_True. }
  assert (Hheap : ∀ i x, heap w !! i = Some x →
    (if decide (i = this)
     then Some (with_timer None (upd V e b p this this (base_settle e o)))
     else heap w3 !! i) = Some (upd (this :: V) e b p this i x)).
  { intros i x Hi. destruct (decide (i = this)) as [->|Hne].
    - simplify_eq. by rewrite upd_head.
    - rewrite <- upd_tail by done. apply (eff_heap _ _ _ _ _ _ _ E).
      rewrite base_lookup. by rewrite decide_False. }
  assert (Htimers : timers w3 = filter (λ t, handle t ∉ cleared V w) (timers w)).
  { rewrite (eff_timers _ _ _ _ _ _ _ E). by rewrite base_cleared. }
  assert (HtO : timerOf w this = timer_of o).
  { unfold timerOf, timer_of. by rewrite Ho. }
  unfold clear_timer. rewrite timer_of_upd by done.
  destruct (timer_of o) as [h|] eqn:Hh.
  - split; simpl.
    + rewrite length_insert. by rewrite (eff_length _ _ _ _ _ _ _ E), base_length.
    + intros i x Hi. rewrite list_lookup_insert.
      rewrite <- (Hheap i x Hi). apply lookup_lt_Some in H3.
      destruct (decide (i = this)) as [->|Hne].
      * by rewrite decide_True.
      * rewrite decide_False; [done|]. by intros [-> _].
    + rewrite Htimers, list_filter_filter. apply list_filter_iff.
      intros t. unfold cleared at 2. csimpl. rewrite HtO.
      fold (cleared V w). rewrite not_elem_of_cons. tauto.
    + by rewrite (eff_foreign _ _ _ _ _ _ _ E).
    + by rewrite (eff_next _ _ _ _ _ _ _ E).
    + by rewrite (eff_races _ _ _ _ _ _ _ E).
  - split.
    + by rewrite (eff_length _ _ _ _ _ _ _ E), base_length.
    + intros i x Hi. rewrite <- (Hheap i x Hi).
      destruct (decide (i = this)) as [->|Hne]; [|done].
      rewrite H3. f_equal. symmetry. apply with_timer_id.
      intros tc Htc. rewrite <- (timer_of_upd V b p this) in Hh by done.
      unfold timer_of in Hh. by rewrite Htc in Hh.
    + rewrite Htimers. unfold cleared at 2. csimpl. by rewrite HtO.
    + by rewrite (eff_foreign _ _ _ _ _ _ _ E).
    + by rewrite (eff_next _ _ _ _ _ _ _ E).
    + by rewrite (eff_races _ _ _ _ _ _ _ E).
Qed.
End base.

(** ** The specification of [cancel] *)

Lemma cancel_unfold fuel this rfp err' w :
  cancel (S fuel) this rfp err' w =
  pre [EvCancel this rfp err']
    (match heap w !! this with
     | Some o =>
         match asTimer o with
         | None => CancelCtx_cancel (cancel fuel) this rfp err' w
         | Some _ => TimerCtx_cancel (cancel fuel) this rfp err' w
         end
     | None => Threw TypeError w []
     end).
Proof.
  simpl. rewrite bind_emit. f_equal.
  destruct (heap w !! this) as [o|] eqn:Ho.
  - rewrite (bind_getObj _ _ _ _ Ho). by destruct (asTimer o).
  - unfold bind, getObj. by rewrite Ho.
Qed.

Theorem cancel_spec fuel e : cancel_ok fuel e.
Proof.
  induction fuel as [|fuel IH]; intros this rfp w o Hpre Ho Hfuel.
  { apply lookup_lt_Some in Ho. lia. }
  rewrite cancel_unfold, Ho.
  destruct (err o) as [x|] eqn:He.
  - (* already cancelled *)
    assert (Hr : (match asTimer o with
                  | None => CancelCtx_cancel (cancel fuel) this rfp (Some e) w
                  | Some _ => TimerCtx_cancel (cancel fuel) this rfp (Some e) w
                  end) = Returned tt w []).
    { pose proof (CancelCtx_cancel_settled (cancel fuel) this rfp e w o x Ho He) as Hc.
      destruct (asTimer o) as [tc|] eqn:Htc; [|done].
      unfold TimerCtx_cancel. erewrite bind_eq by exact Hc.
      rewrite pre_nil, (bind_getObj _ _ _ _ Ho), Htc.
      by rewrite (pre_timer _ _ Hpre this o tc) by (done || by rewrite He). }
    rewrite Hr. exists [], w, []. split; [done|].
    unfold is_live. rewrite He, andb_false_r.
    split; [apply effect_refl|]. split; [|split].
    + split; intros; try by_nil.
      match goal with H : live _ _ |- _ => destruct H as (? & ? & ?) end.
      apply list_elem_of_singleton in H as ->. congruence.
    + intros j r y Hj. by_nil.
    + intros i c Hi. by_nil.
  - (* the first cancel call *)
    pose proof (CancelCtx_cancel_live (cancel fuel) this rfp e w o Ho He
                  (pre_done _ _ Hpre _ _ Ho He)) as Hc.
    fold (base_world this e o w) in Hc.
    set (w1 := base_world this e o w) in *.
    set (cs := default [] (children o)) in *.
    destruct (for_of_spec fuel e IH cs w1 (S this))
      as (V & w2 & tr2 & Hr2 & E2 & S2 & T2 & R2 & K2).
    { by apply base_pre. }
    { intros c Hc'. unfold w1. rewrite base_length.
      assert (tracks w this c) as Ht; [|apply (pre_order _ _ Hpre) in Ht; lia].
      subst cs. destruct (children o) as [l|] eqn:Hl; [|simpl in Hc'; by_nil].
      by exists o, l. }
    { unfold w1. rewrite base_length. lia. }
    destruct (cascade_set_wrap this e o w Ho V Hpre He S2) as [HV SV].
    (* the optional removal from the parent *)
    assert (∃ w3, (if rfp then removeChild (parent o) this else ret tt) w2
                    = Returned tt w3 [] ∧
                  effect V e rfp (parent o) this w1 w3) as (w3 & Hr3 & E3).
    { destruct rfp.
      - destruct (removeChild_spec e (parent o) this w2) as (w3 & Hr3 & E3).
        { intros pi Hp. rewrite (eff_length _ _ _ _ _ _ _ E2). unfold w1.
          rewrite base_length. by eapply (pre_parent _ _ Hpre). }
        exists w3. split; [done|]. eapply effect_then_remove; [|done].
        by eapply effect_irrel.
      - exists w2. split; [done|]. by eapply effect_irrel. }
    assert (Hbody : CancelCtx_cancel (cancel fuel) this rfp (Some e) w
                    = Returned tt w3 (resolve_events this o ++ tr2)).
    { rewrite Hc. erewrite bind_eq by exact Hr2. rewrite Hr3. simpl.
      by rewrite app_nil_r. }
    set (o3 := upd V e rfp (parent o) this this (base_settle e o)).
    assert (H3 : heap w3 !! this = Some o3).
    { apply (eff_heap _ _ _ _ _ _ _ E3). unfold w1. rewrite base_lookup by done.
      by rewrite decide_True. }
    assert (Hfin : (match asTimer o with
                  | None => CancelCtx_cancel (cancel fuel) this rfp (Some e) w
                  | Some _ => TimerCtx_cancel (cancel fuel) this rfp (Some e) w
                  end) = Returned tt (clear_timer this o3 w3)
                           ((resolve_events this o ++ tr2) ++ clear_events o3)).
    { destruct (asTimer o) as [tc|] eqn:Htc.
      - unfold TimerCtx_cancel. erewrite bind_eq by exact Hbody.
        by rewrite (TimerCtx_finish _ _ _ H3).
      - rewrite Hbody. unfold clear_timer, clear_events.
        assert (timer_of o3 = None) as ->.
        { unfold o3. rewrite timer_of_upd by done. unfold timer_of. by rewrite Htc. }
        by rewrite app_nil_r. }
    rewrite Hfin. eexists (this :: V), _, _. split; [done|].
    unfold is_live. rewrite He, andb_true_r.
    split; [by apply effect_wrap|]. split; [done|].
    assert (Hres : ∀ j r y, EvCancel j r y ∉ resolve_events this o).
    { intros j r y. unfold resolve_events.
      destruct (_done o) as [[]|]; try apply not_elem_of_nil.
      intros ?%list_elem_of_singleton. done. }
    assert (Hclr : ∀ j r y, EvCancel j r y ∉ clear_events o3).
    { intros j r y. unfold clear_events.
      destruct (timer_of o3); try apply not_elem_of_nil.
      intros ?%list_elem_of_singleton. done. }
    split.
    + intros j r y [[Hj|Hj]%elem_of_app|Hj]%elem_of_app.
      * by apply Hres in Hj.
      * by eapply T2.
      * by apply Hclr in Hj.
    + intros i c [->|Hi]%elem_of_cons Ht; apply elem_of_app; left;
        apply elem_of_app; right.
      * apply R2. subst cs. destruct Ht as (x & l & Hx & Hl & Hin).
        simplify_eq. by rewrite Hl.
      * eapply K2; [done|]. unfold w1. by apply base_tracks.
Qed.

(** ** Well-formed worlds *)

Lemma wf_pre w lo : wf w → cancel_pre w lo.
Proof.
  intros W. split.
  - intros p c Ht. destruct (wf_child _ W _ _ Ht) as (oc & Hc & Hp).
    split; [by eapply (wf_parent _ W)|by eapply lookup_lt_Some].
  - intros i o pi Hi Hp. pose proof (wf_parent _ W _ _ _ Hi Hp).
    apply lookup_lt_Some in Hi. lia.
  - intros i o Hi He. pose proof (wf_done _ W _ _ Hi) as Hd.
    unfold done_ok in Hd. destruct (_done o) as [[]|]; eauto; done.
  - intros i o tc _ Hi He Ht. pose proof (wf_timer _ W _ _ Hi He) as H.
    unfold timer_of in H. by rewrite Ht in H.
Qed.

Lemma timer_of_settle e o : timer_of (settle e o) = None.
Proof. by destruct o as [p d x cs [[dl t]|]]. Qed.

Lemma timer_of_with_children cs o : timer_of (with_children cs o) = timer_of o.
Proof. done. Qed.

Lemma timer_of_upd_gen V e b p c i o :
  timer_of (upd V e b p c i o) = if decide (i ∈ V) then None else timer_of o.
Proof.
  unfold upd. destruct (decide _), (b && _);
    rewrite ?timer_of_with_children, ?timer_of_settle; done.
Qed.

Lemma done_ok_settle e o : done_ok o → done_ok (settle e o).
Proof.
  unfold done_ok. destruct o as [p [[]|] x cs [[dl t]|]]; simpl; try done.
Qed.

Lemma done_ok_upd V e b p c i o : done_ok o → done_ok (upd V e b p c i o).
Proof.
  intros H. unfold upd. destruct (decide _).
  - apply (done_ok_settle e) in H. by destruct (b && _).
  - by destruct (b && _).
Qed.

Lemma children_upd V e b p c i o :
  children (upd V e b p c i o) =
  if b && bool_decide (p = ctxRef i)
  then Set_delete c <$> children o else children o.
Proof.
  unfold upd. destruct (decide _), (b && _); simpl;
    rewrite ?children_settle; done.
Qed.

Lemma elem_of_Set_delete x y s : x ∈ Set_delete y s ↔ x ∈ s ∧ x ≠ y.
Proof. unfold Set_delete. rewrite list_elem_of_filter. tauto. Qed.

Lemma elem_of_Set_add x y s : x ∈ Set_add y s ↔ x ∈ s ∨ x = y.
Proof.
  unfold Set_add. destruct (decide (y ∈ s)).
  - split; [by left|]. intros [?| ->]; done.
  - rewrite elem_of_app, list_elem_of_singleton. tauto.
Qed.

Section effect_gen.
Context {V : list nat} {e : Error} {b : bool} {p : Context} {c : nat}.
Context {w w' : World} (E : effect V e b p c w w').

Lemma effect_tracks_sub q d : tracks w' q d → tracks w q d.
Proof.
  intros (oq & cs & Hq & Hcs & Hd).
  apply (effect_lookup_inv E) in Hq as (o & Ho & ->).
  rewrite children_upd in Hcs. destruct (b && _).
  - destruct (children o) as [l|] eqn:Hl; [|done]. simpl in Hcs. simplify_eq.
    apply elem_of_Set_delete in Hd as [Hd _]. by exists o, l.
  - by exists o, cs.
Qed.

Lemma effect_tracks_removed q :
  b = true → p = ctxRef q → ¬ tracks w' q c.
Proof.
  intros -> -> (oq & cs & Hq & Hcs & Hd).
  apply (effect_lookup_inv E) in Hq as (o & Ho & ->).
  rewrite children_upd in Hcs. simpl in Hcs.
  rewrite bool_decide_eq_true_2 in Hcs by done.
  destruct (children o) as [l|]; [|done]. simpl in Hcs. simplify_eq.
  by apply elem_of_Set_delete in Hd as [_ Hd].
Qed.

Lemma effect_timerOf_Some i h : timerOf w' i = Some h → timerOf w i = Some h.
Proof.
  unfold timerOf. destruct (heap w' !! i) as [o'|] eqn:Ho'; [|done].
  apply (effect_lookup_inv E) in Ho' as (o & Ho & ->). rewrite Ho.
  fold (timer_of (upd V e b p c i o)). fold (timer_of o).
  rewrite timer_of_upd_gen. by destruct (decide _).
Qed.

Lemma effect_wf (roots : list nat) :
  wf w → cascade_set roots V w →
  (∀ r q, r ∈ roots → r ∈ V → tracks w q r → b = true ∧ p = ctxRef q ∧ r = c) →
  wf w'.
Proof.
  intros W SV Hroot. split.
  - intros q d Ht. apply effect_tracks_sub in Ht.
    destruct (wf_child _ W _ _ Ht) as (od & Hd & Hp).
    eexists. split; [by apply (eff_heap _ _ _ _ _ _ _ E)|].
    by rewrite parent_upd.
  - intros n o' q Hn Hp. apply (effect_lookup_inv E) in Hn as (o & Ho & ->).
    rewrite parent_upd in Hp. by eapply (wf_parent _ W).
  - intros q d Hq Ht.
    apply (effect_live E) in Hq as [Hq HqV].
    pose proof (effect_tracks_sub _ _ Ht) as Ht0.
    apply (effect_live_back E); [by eapply (wf_live _ W)|].
    intros HdV. destruct (cs_origin _ _ _ SV _ HdV) as [Hr|(x & Hx & Hxd)].
    + destruct (Hroot _ _ Hr HdV Ht0) as (Hb & Hp & Hc).
      rewrite Hc in Ht. by eapply effect_tracks_removed.
    + destruct (wf_child _ W _ _ Ht0) as (od & Hd & Hp).
      destruct (wf_child _ W _ _ Hxd) as (od' & Hd' & Hp').
      assert (x = q) as -> by congruence. done.
  - intros n o' Hn. apply (effect_lookup_inv E) in Hn as (o & Ho & ->).
    apply done_ok_upd. by eapply (wf_done _ W).
  - intros t Ht. rewrite (eff_timers _ _ _ _ _ _ _ E) in Ht.
    apply list_elem_of_filter in Ht as [Hh Ht].
    pose proof (wf_timers _ W _ Ht) as Hw.
    rewrite (effect_timerOf E); [done|].
    intros Hin. apply Hh. apply list_elem_of_omap. eauto.
  - intros n o' Hn He. apply (effect_lookup_inv E) in Hn as (o & Ho & ->).
    rewrite timer_of_upd_gen. rewrite err_upd in He.
    destruct (decide _); [done|]. by eapply (wf_timer _ W).
  - intros i j h Hi Hj. apply effect_timerOf_Some in Hi, Hj.
    by eapply (wf_unique _ W).
  - intros i h Hi. apply effect_timerOf_Some in Hi.
    rewrite (eff_next _ _ _ _ _ _ _ E). by eapply (wf_next _ W).
  - intros q d Hr. rewrite (eff_races _ _ _ _ _ _ _ E) in Hr.
    destruct (wf_races _ W _ _ Hr) as (Hq & od & Hd & Hp).
    split; [done|]. eexists. split; [by apply (eff_heap _ _ _ _ _ _ _ E)|].
    by rewrite parent_upd.
Qed.
End effect_gen.

(** The cascade does not mutate any children set, so iterating over the set
    as it was when the loop started is iterating over the live set. *)
Lemma cascade_keeps_children fuel c e w o :
  cancel_pre w c → heap w !! c = Some o → length (heap w) < fuel + c →
  ∃ w' tr,
    cancel fuel c false (Some e) w = Returned tt w' tr ∧
    ∀ i oi, heap w !! i = Some oi →
      ∃ oi', heap w' !! i = Some oi' ∧ children oi' = children oi.
Proof.
  intros Hpre Ho Hfuel.
  destruct (cancel_spec fuel e c false w o Hpre Ho Hfuel)
    as (V & w' & tr & Hr & E & _).
  eexists w', _. split; [done|]. intros i oi Hi. eexists.
  split; [by apply (eff_heap _ _ _ _ _ _ _ E)|]. by rewrite children_upd.
Qed.

(** A call of [cancel] from outside runs to completion in a well-formed
    world. *)
Lemma call_cancel_spec this rfp e w o :
  wf w → heap w !! this = Some o →
  cancel_post this rfp e o w (call_cancel this rfp (Some e) w).
Proof.
  intros W Ho. unfold call_cancel. apply cancel_spec; [by apply wf_pre|done|lia].
Qed.

Lemma call_cancel_wf this rfp e w o :
  wf w → heap w !! this = Some o →
  rfp = true ∨ (∀ q, ¬ tracks w q this) →
  ∃ V w' tr,
    call_cancel this rfp (Some e) w
      = Returned tt w' (EvCancel this rfp (Some e) :: tr) ∧
    effect V e (rfp && is_live o) (parent o) this w w' ∧
    cascade_set [this] V w ∧
    cascade_calls e tr ∧
    calls_children w V e tr ∧
    wf w'.
Proof.
  intros W Ho Hrfp.
  destruct (call_cancel_spec this rfp e w o W Ho) as (V & w' & tr & Hr & E & SV & T & K).
  exists V, w', tr. repeat (split; [done|]).
  eapply (effect_wf E); [done..|].
  intros r q ->%list_elem_of_singleton HrV Ht.
  destruct Hrfp as [->|Hun]; [|by destruct (Hun q)].
  destruct (cs_live _ _ _ SV _ HrV) as (x & Hx & He). simplify_eq.
  unfold is_live. rewrite He.
  destruct (wf_child _ W _ _ Ht) as (x & Hx & Hp). by simplify_eq.
Qed.

(** ** How worlds evolve *)

Lemma evolves_same_heap w w' :
  heap w' = heap w → foreign w' = foreign w → evolves w w'.
Proof.
  intros Hh Hf. split.
  - by rewrite Hh.
  - intros i o Ho. exists o. rewrite Hh. eauto 10.
  - intros k f Hk. exists f. rewrite Hf. eauto.
Qed.

Lemma evolves_refl w : evolves w w.
Proof. by apply evolves_same_heap. Qed.

Lemma evolves_trans w1 w2 w3 : evolves w1 w2 → evolves w2 w3 → evolves w1 w3.
Proof.
  intros [L1 H1 F1] [L2 H2 F2]. split; [lia| |].
  - intros i o Ho. destruct (H1 _ _ Ho) as (o1 & Ho1 & Hp1 & Hd1 & He1 & Ht1).
    destruct (H2 _ _ Ho1) as (o2 & Ho2 & Hp2 & Hd2 & He2 & Ht2).
    exists o2. split; [done|]. split; [congruence|]. split; [congruence|].
    split; [by eauto|]. destruct Ht1 as [<-|Ht1], Ht2 as [Ht2|Ht2]; eauto.
    right. congruence.
  - intros k f Hk. destruct (F1 _ _ Hk) as (f1 & Hk1 & Hd1 & He1).
    destruct (F2 _ _ Hk1) as (f2 & Hk2 & Hd2 & He2).
    exists f2. split; [done|]. split; [congruence|]. eauto.
Qed.

Lemma deadline_of_upd V e b p c i o :
  deadline_of (upd V e b p c i o) = deadline_of o.
Proof.
  unfold upd. destruct (decide _), (b && _); try done;
    by destruct o as [? ? ? ? [[]|]].
Qed.

Lemma effect_evolves V e b p c w w' :
  effect V e b p c w w' → (∀ i, i ∈ V → live w i) → evolves w w'.
Proof.
  intros E HV. split.
  - by rewrite (eff_length _ _ _ _ _ _ _ E).
  - intros i o Ho. eexists. split; [by apply (eff_heap _ _ _ _ _ _ _ E)|].
    rewrite parent_upd, deadline_of_upd, err_upd, timer_of_upd_gen.
    repeat (split; [done|]). split.
    + intros x Hx. destruct (decide _) as [Hi|]; [|done].
      destruct (HV _ Hi) as (o' & Ho' & He'). congruence.
    + destruct (decide _); eauto.
  - intros k f Hk. exists f. rewrite (eff_foreign _ _ _ _ _ _ _ E). eauto.
Qed.

Lemma done_only_refl w : done_only w w.
Proof.
  split; try done. intros i o Ho. exists (_done o). rewrite Ho.
  by destruct o.
Qed.

Lemma done_only_evolves w w' : done_only w w' → evolves w w'.
Proof.
  intros [HL HH HT HF HN HR]. split; [lia| |].
  - intros i o Ho. destruct (HH _ _ Ho) as (d & Hd). eexists. split; [done|].
    eauto 10.
  - intros k f Hk. exists f. rewrite HF. eauto.
Qed.

Section done_only.
Context {w w' : World} (D : done_only w w').

Lemma done_only_inv i o' :
  heap w' !! i = Some o' → ∃ o d, heap w !! i = Some o ∧ o' = with_done d o.
Proof.
  intros Hi. destruct (heap w !! i) as [o|] eqn:Ho.
  - destruct (do_heap _ _ D _ _ Ho) as (d & Hd). exists o, d. split; [done|].
    congruence.
  - apply lookup_ge_None in Ho. rewrite <- (do_length _ _ D) in Ho.
    apply lookup_ge_None in Ho. congruence.
Qed.

Lemma done_only_tracks q c : tracks w' q c ↔ tracks w q c.
Proof.
  split.
  - intros (oq & cs & Hq & Hcs & Hc).
    apply done_only_inv in Hq as (o & d & Ho & ->). by exists o, cs.
  - intros (oq & cs & Hq & Hcs & Hc).
    destruct (do_heap _ _ D _ _ Hq) as (d & Hd). by eexists _, cs.
Qed.

Lemma done_only_live i : live w' i ↔ live w i.
Proof.
  split.
  - intros (o' & Ho' & He). apply done_only_inv in Ho' as (o & d & Ho & ->).
    by exists o.
  - intros (o & Ho & He). destruct (do_heap _ _ D _ _ Ho) as (d & Hd).
    by eexists.
Qed.

Lemma done_only_timerOf i : timerOf w' i = timerOf w i.
Proof.
  unfold timerOf. destruct (heap w !! i) as [o|] eqn:Ho.
  - destruct (do_heap _ _ D _ _ Ho) as (d & ->). done.
  - apply lookup_ge_None in Ho. rewrite <- (do_length _ _ D) in Ho.
    apply lookup_ge_None in Ho. by rewrite Ho.
Qed.

Lemma done_only_wf :
  wf w → (∀ i o', heap w' !! i = Some o' → done_ok o') → wf w'.
Proof.
  intros W Hok. split.
  - intros q c Ht. apply done_only_tracks in Ht.
    destruct (wf_child _ W _ _ Ht) as (oc & Hc & Hp).
    destruct (do_heap _ _ D _ _ Hc) as (d & Hd). by eexists.
  - intros n o' q Hn Hp. apply done_only_inv in Hn as (o & d & Ho & ->).
    by apply (wf_parent _ W _ _ _ Ho).
  - intros q c Hq Ht. apply done_only_live. apply done_only_live in Hq.
    apply done_only_tracks in Ht. by eapply (wf_live _ W).
  - done.
  - intros t Ht. rewrite (do_timers _ _ D) in Ht. rewrite done_only_timerOf.
    by apply (wf_timers _ W).
  - intros n o' Hn He. apply done_only_inv in Hn as (o & d & Ho & ->).
    by apply (wf_timer _ W _ _ Ho).
  - intros i j h. rewrite !done_only_timerOf. apply (wf_unique _ W).
  - intros i h. rewrite done_only_timerOf, (do_next _ _ D). apply (wf_next _ W).
  - intros q c Hr. rewrite (do_races _ _ D) in Hr.
    destruct (wf_races _ W _ _ Hr) as (Hq & oc & Hc & Hp). split; [done|].
    destruct (do_heap _ _ D _ _ Hc) as (d & Hd). by eexists.
Qed.
End done_only.

Lemma heap_insert_lookup w i x j :
  i < length (heap w) →
  heap (set_heap (λ h, <[i := x]> h) w) !! j
  = if decide (j = i) then Some x else heap w !! j.
Proof.
  intros Hi. simpl. rewrite list_lookup_insert.
  destruct (decide (j = i)) as [->|Hne].
  - by rewrite decide_True.
  - rewrite decide_False; [done|]. by intros [-> _].
Qed.

(** [done()] *)
Lemma done_spec c w :
  wf w → valid_ctx c w = true →
  ∃ pr w', done c w = Returned pr w' [] ∧ wf w' ∧ done_only w w' ∧
    (∀ i, c = ctxRef i → is_blockForever pr = false).
Proof.
  intros W Hv. destruct c as [|id|k]; simpl in *.
  - exists blockForever, w. split; [done|]. split; [done|].
    split; [apply done_only_refl|done].
  - apply bool_decide_eq_true in Hv.
    destruct (lookup_lt_is_Some_2 _ _ Hv) as [o Ho].
    unfold CancelCtx_done. rewrite (bind_getObj _ _ _ _ Ho).
    pose proof (wf_done _ W _ _ Ho) as Hok. unfold done_ok in Hok.
    destruct (_done o) as [pr|] eqn:Hd.
    + exists pr, w. split; [done|]. split; [done|].
      split; [apply done_only_refl|]. intros _ _. by destruct pr.
    + rewrite (bind_modObj _ _ _ _ _ Ho).
      eexists _, _. split; [done|].
      assert (D : done_only w (set_heap (λ h,
                 <[id := with_done (Some (newPromise id false)) o]> h) w)).
      { split; try done.
        - simpl. by rewrite length_insert.
        - intros i x Hi. rewrite heap_insert_lookup by done.
          destruct (decide _) as [->|]; [|exists (_done x); rewrite Hi; by destruct x].
          simplify_eq. eauto. }
      split; [|done].
      apply (done_only_wf D W). intros i o'.
      rewrite heap_insert_lookup by done. destruct (decide _) as [->|].
      * intros ?. by simplify_eq.
      * apply (wf_done _ W).
  - apply bool_decide_eq_true in Hv.
    destruct (lookup_lt_is_Some_2 _ _ Hv) as [f Hf]. rewrite Hf.
    exists (f_done f), w. split; [done|]. split; [done|].
    split; [apply done_only_refl|done].
Qed.

(** ** Allocation, registration and timers *)

Lemma timerOf_lookup w i o : heap w !! i = Some o → timerOf w i = timer_of o.
Proof. unfold timerOf, timer_of. by intros ->. Qed.

Lemma timerOf_Some w i h :
  timerOf w i = Some h → ∃ o, heap w !! i = Some o ∧ timer_of o = Some h.
Proof.
  unfold timerOf, timer_of. destruct (heap w !! i) as [o|]; [|done]. eauto.
Qed.

Section alloc.
Context (parent : Context) (tm : option TimerCtx) (w : World).
Context (Hv : valid_ctx parent w = true).
Context (Htm : ∀ t, tm = Some t → timer t = None).

Lemma alloc_lookup i o :
  heap (alloc parent tm w) !! i = Some o ↔
  heap w !! i = Some o ∨ (i = length (heap w) ∧ o = fresh parent tm).
Proof.
  unfold alloc. simpl. rewrite lookup_app_Some.
  rewrite list_lookup_singleton_Some. split; [|intros [?|[-> ->]]].
  - intros [?|(? & ? & ?)]; [by left|right]. split; [lia|done].
  - by left.
  - right. split; [done|]. split; [lia|done].
Qed.

Lemma alloc_lookup_old i o :
  heap w !! i = Some o → heap (alloc parent tm w) !! i = Some o.
Proof. intros. apply alloc_lookup. by left. Qed.

Lemma alloc_lookup_new :
  heap (alloc parent tm w) !! length (heap w) = Some (fresh parent tm).
Proof. apply alloc_lookup. by right. Qed.

Lemma alloc_length : length (heap (alloc parent tm w)) = S (length (heap w)).
Proof. unfold alloc. simpl. rewrite length_app. simpl. lia. Qed.

Lemma alloc_tracks q c : tracks (alloc parent tm w) q c ↔ tracks w q c.
Proof.
  split.
  - intros (oq & cs & Hq & Hcs & Hc). apply alloc_lookup in Hq as [Hq|[_ ->]].
    + by exists oq, cs.
    + done.
  - intros (oq & cs & Hq & Hcs & Hc). exists oq, cs. split; [|done].
    by apply alloc_lookup_old.
Qed.

Lemma alloc_live i :
  live (alloc parent tm w) i ↔ live w i ∨ i = length (heap w).
Proof.
  split.
  - intros (o & Ho & He). apply alloc_lookup in Ho as [Ho|[-> ->]].
    + left. by exists o.
    + by right.
  - intros [(o & Ho & He)| ->].
    + exists o. split; [by apply alloc_lookup_old|done].
    + exists (fresh parent tm). split; [apply alloc_lookup_new|done].
Qed.

Lemma alloc_untracked q :
  wf w → ¬ tracks (alloc parent tm w) q (length (heap w)).
Proof.
  intros W Ht. apply alloc_tracks in Ht.
  destruct (wf_child _ W _ _ Ht) as (oc & Hc & _).
  apply lookup_lt_Some in Hc. lia.
Qed.

Lemma alloc_evolves : evolves w (alloc parent tm w).
Proof.
  split; [rewrite alloc_length; lia| |].
  - intros i o Ho. exists o. split; [by apply alloc_lookup_old|]. eauto 10.
  - intros k f Hk. exists f. eauto.
Qed.
Lemma alloc_timerOf i :
  i < length (heap w) → timerOf (alloc parent tm w) i = timerOf w i.
Proof.
  intros Hi. destruct (lookup_lt_is_Some_2 _ _ Hi) as [o Ho].
  by rewrite (timerOf_lookup _ _ _ (alloc_lookup_old _ _ Ho)), (timerOf_lookup _ _ _ Ho).
Qed.

Lemma alloc_timerOf_Some i h :
  timerOf (alloc parent tm w) i = Some h → timerOf w i = Some h.
Proof using Htm.
  intros Hi. apply timerOf_Some in Hi as (o & Ho & Ht).
  apply alloc_lookup in Ho as [Ho|[-> ->]].
  - by rewrite (timerOf_lookup _ _ _ Ho).
  - unfold timer_of in Ht. simpl in Ht. destruct tm as [t|]; [|done].
    by rewrite (Htm t) in Ht.
Qed.

Lemma alloc_wf : wf w → wf (alloc parent tm w).
Proof using Hv Htm.
  intros W. split.
  - intros q c Ht. apply alloc_tracks in Ht.
    destruct (wf_child _ W _ _ Ht) as (oc & Hc & Hp).
    exists oc. split; [by apply alloc_lookup_old|done].
  - intros n o q Hn Hp. apply alloc_lookup in Hn as [Hn|[-> ->]].
    + by eapply (wf_parent _ W).
    + simpl in Hp. subst parent. simpl in Hv. by apply bool_decide_eq_true in Hv.
  - intros q c Hq Ht. apply alloc_tracks in Ht. apply alloc_live. left.
    apply alloc_live in Hq as [Hq| ->]; [by eapply (wf_live _ W)|].
    destruct Ht as (oq & cs & Hq & _). apply lookup_lt_Some in Hq. lia.
  - intros n o Hn. apply alloc_lookup in Hn as [Hn|[-> ->]]; [|done].
    by eapply (wf_done _ W).
  - intros t Ht. pose proof (wf_timers _ W _ Ht) as Hw. rewrite alloc_timerOf; [done|].
    apply timerOf_Some in Hw as (o & Ho & _). by eapply lookup_lt_Some.
  - intros n o Hn He. apply alloc_lookup in Hn as [Hn|[-> ->]]; [|done].
    by eapply (wf_timer _ W).
  - intros i j h Hi Hj. apply alloc_timerOf_Some in Hi, Hj.
    by eapply (wf_unique _ W).
  - intros i h Hi. apply alloc_timerOf_Some in Hi. by eapply (wf_next _ W).
  - intros q c Hr. destruct (wf_races _ W _ _ Hr) as (Hq & oc & Hc & Hp).
    split; [done|]. exists oc. split; [by apply alloc_lookup_old|done].
Qed.
End alloc.

Section register.
Context (p c : nat) (po oc : CancelCtx) (w : World).
Context (W : wf w).
Context (Hp : heap w !! p = Some po) (Hpl : err po = None).
Context (Hc : heap w !! c = Some oc) (Hcp : parent oc = ctxRef p).
Context (Hcl : err oc = None).

Lemma register_lookup i :
  heap (register p po c w) !! i =
  if decide (i = p)
  then Some (with_children (Some (Set_add c (default [] (children po)))) po)
  else heap w !! i.
Proof using Hp. unfold register. apply heap_insert_lookup. by eapply lookup_lt_Some. Qed.

Lemma register_inv i o' :
  heap (register p po c w) !! i = Some o' →
  ∃ o cs, heap w !! i = Some o ∧ o' = with_children cs o.
Proof using Hp.
  rewrite register_lookup. destruct (decide _) as [->|].
  - intros ?. simplify_eq. eauto.
  - intros Hi. exists o', (children o'). split; [done|]. by destruct o'.
Qed.

Lemma register_fwd i o :
  heap w !! i = Some o →
  ∃ cs, heap (register p po c w) !! i = Some (with_children cs o).
Proof using Hp.
  intros Hi. rewrite register_lookup. destruct (decide _) as [->|].
  - simplify_eq. eauto.
  - exists (children o). rewrite Hi. by destruct o.
Qed.

Lemma register_tracks q d :
  tracks (register p po c w) q d ↔ tracks w q d ∨ (q = p ∧ d = c).
Proof using Hp.
  unfold tracks. setoid_rewrite register_lookup.
  destruct (decide (q = p)) as [->|Hne].
  - split.
    + intros (oq & cs & Hq & Hcs & Hd). simplify_eq. simpl in Hcs. simplify_eq.
      apply elem_of_Set_add in Hd as [Hd| ->]; [left|by right].
      destruct (children po) as [l|] eqn:Hl; [|by apply elem_of_nil in Hd].
      by exists po, l.
    + intros [(oq & cs & Hq & Hcs & Hd)|[_ ->]].
      * simplify_eq. eexists _, _. split; [done|]. split; [done|].
        apply elem_of_Set_add. left. by rewrite Hcs.
      * eexists _, _. split; [done|]. split; [done|].
        apply elem_of_Set_add. by right.
  - split; [intros H; by left|]. intros [H|[? _]]; done.
Qed.

Lemma register_live i : live (register p po c w) i ↔ live w i.
Proof using Hp.
  split.
  - intros (o' & Ho' & He). apply register_inv in Ho' as (o & cs & Ho & ->).
    by exists o.
  - intros (o & Ho & He). destruct (register_fwd _ _ Ho) as (cs & Hcs).
    by eexists.
Qed.

Lemma register_timerOf i : timerOf (register p po c w) i = timerOf w i.
Proof using Hp.
  unfold timerOf. rewrite register_lookup. destruct (decide _) as [->|]; [|done].
  by rewrite Hp.
Qed.

Lemma register_evolves : evolves w (register p po c w).
Proof using Hp.
  split.
  - unfold register. simpl. by rewrite length_insert.
  - intros i o Ho. destruct (register_fwd _ _ Ho) as (cs & Hcs).
    eexists. split; [done|]. eauto 10.
  - intros k f Hk. exists f. eauto.
Qed.

Lemma register_wf : wf (register p po c w).
Proof using All.
  split.
  - intros q d Ht. apply register_tracks in Ht as [Ht|[-> ->]].
    + destruct (wf_child _ W _ _ Ht) as (od & Hd & Hdp).
      destruct (register_fwd _ _ Hd) as (cs & Hcs). by eexists.
    + destruct (register_fwd _ _ Hc) as (cs & Hcs). by eexists.
  - intros n o' q Hn Hq. apply register_inv in Hn as (o & cs & Ho & ->).
    by apply (wf_parent _ W _ _ _ Ho).
  - intros q d Hq Ht. apply register_live. apply register_live in Hq.
    apply register_tracks in Ht as [Ht|[-> ->]]; [by eapply (wf_live _ W)|].
    by exists oc.
  - intros n o' Hn. apply register_inv in Hn as (o & cs & Ho & ->).
    by apply (wf_done _ W _ _ Ho).
  - intros t Ht. rewrite register_timerOf. by apply (wf_timers _ W).
  - intros n o' Hn He. apply register_inv in Hn as (o & cs & Ho & ->).
    by apply (wf_timer _ W _ _ Ho).
  - intros i j h. rewrite !register_timerOf. apply (wf_unique _ W).
  - intros i h. rewrite register_timerOf. apply (wf_next _ W).
  - intros q d Hr. destruct (wf_races _ W _ _ Hr) as (Hq & od & Hd & Hdp).
    split; [done|]. destruct (register_fwd _ _ Hd) as (cs & Hcs). by eexists.
Qed.
End register.

Lemma add_race_wf w p c oc :
  wf w → parentCancelCtx p = None → heap w !! c = Some oc → parent oc = p →
  wf (set_races (λ r, r ++ [(p, c)]) w).
Proof.
  intros [W1 W2 W3 W4 W5 W6 W8 W9 W7] Hp Hc Hcp. split; try done.
  intros q d [Hr|Hr]%elem_of_app; [by apply W7|].
  apply list_elem_of_singleton in Hr. simplify_eq. eauto.
Qed.

Lemma remove_race_wf w i : wf w → wf (set_races (delete i) w).
Proof.
  intros [W1 W2 W3 W4 W5 W6 W8 W9 W7]. split; try done.
  intros q d Hr. apply W7. simpl in Hr.
  apply list_elem_of_lookup in Hr as [j Hj].
  apply list_elem_of_lookup. rewrite list_lookup_delete in Hj.
  destruct (decide (j < i)); eauto.
Qed.

Lemma remove_timers_wf w (P : Timeout → Prop) `{∀ t, Decision (P t)} :
  wf w → wf (set_timers (filter P) w).
Proof.
  intros [W1 W2 W3 W4 W5 W6 W8 W9 W7]. split; try done.
  intros t [_ Ht]%list_elem_of_filter. by apply W5.
Qed.

Lemma set_foreign_wf w f : wf w → wf (set_foreign f w).
Proof. intros [W1 W2 W3 W4 W5 W6 W8 W9 W7]. by split. Qed.

Section arm.
Context (c : nat) (d : number) (o : CancelCtx) (w : World).
Context (W : wf w).
Context (Hc : heap w !! c = Some o) (Hl : err o = None).
Context (Ht : timer_of o = None) (Hk : is_Some (asTimer o)).

Lemma arm_lookup i :
  heap (arm c d o w) !! i =
  if decide (i = c) then Some (with_timer (Some (nextTimer w)) o) else heap w !! i.
Proof using Hc.
  unfold arm. rewrite heap_insert_lookup; [done|]. simpl. by eapply lookup_lt_Some.
Qed.

Lemma arm_inv i o' :
  heap (arm c d o w) !! i = Some o' →
  ∃ x h, heap w !! i = Some x ∧ o' = with_timer h x ∧ (i ≠ c → timer_of o' = timer_of x).
Proof using Hc.
  rewrite arm_lookup. destruct (decide _) as [->|].
  - intros ?. simplify_eq. exists o, (Some (nextTimer w)).
    split; [done|]. split; [done|]. by intros [].
  - intros Hi. exists o', (timer_of o'). split; [done|]. split; [|done].
    by destruct o' as [? ? ? ? [[]|]].
Qed.

Lemma arm_fwd i x :
  heap w !! i = Some x → ∃ h, heap (arm c d o w) !! i = Some (with_timer h x).
Proof using Hc.
  intros Hi. rewrite arm_lookup. destruct (decide _) as [->|].
  - simplify_eq. eauto.
  - exists (timer_of x). rewrite Hi. by destruct x as [? ? ? ? [[]|]].
Qed.

Lemma arm_tracks q x : tracks (arm c d o w) q x ↔ tracks w q x.
Proof using Hc.
  split.
  - intros (oq & cs & Hq & Hcs & Hx). apply arm_inv in Hq as (y & h & Hy & -> & _).
    by exists y, cs.
  - intros (oq & cs & Hq & Hcs & Hx). destruct (arm_fwd _ _ Hq) as (h & Hh).
    by eexists _, cs.
Qed.

Lemma arm_live i : live (arm c d o w) i ↔ live w i.
Proof using Hc.
  split.
  - intros (o' & Ho' & He). apply arm_inv in Ho' as (y & h & Hy & -> & _).
    by exists y.
  - intros (x & Hx & He). destruct (arm_fwd _ _ Hx) as (h & Hh). by eexists.
Qed.

Lemma arm_timerOf i :
  timerOf (arm c d o w) i =
  if decide (i = c) then Some (nextTimer w) else timerOf w i.
Proof using Hc Hk.
  unfold timerOf. rewrite arm_lookup. destruct (decide _) as [->|]; [|done].
  destruct Hk as [tc Htc]. unfold with_timer. by rewrite Htc.
Qed.

Lemma arm_wf : wf (arm c d o w).
Proof using All.
  split.
  - intros q x Hq. apply arm_tracks in Hq.
    destruct (wf_child _ W _ _ Hq) as (ox & Hx & Hxp).
    destruct (arm_fwd _ _ Hx) as (h & Hh). by eexists.
  - intros n o' q Hn Hq. apply arm_inv in Hn as (y & h & Hy & -> & _).
    by apply (wf_parent _ W _ _ _ Hy).
  - intros q x Hq Hx. apply arm_live. apply arm_live in Hq. apply arm_tracks in Hx.
    by eapply (wf_live _ W).
  - intros n o' Hn. apply arm_inv in Hn as (y & h & Hy & -> & _).
    by apply (wf_done _ W _ _ Hy).
  - intros t [Hin|Hin]%elem_of_app.
    + pose proof (wf_timers _ W _ Hin) as Hw.
      unfold timerOf. rewrite arm_lookup. destruct (decide _) as [Heq|]; [|done].
      rewrite Heq, (timerOf_lookup _ _ _ Hc), Ht in Hw. done.
    + apply list_elem_of_singleton in Hin as ->. simpl.
      unfold timerOf. rewrite arm_lookup, decide_True by done.
      destruct Hk as [tc Htc]. unfold with_timer. by rewrite Htc.
  - intros n o' Hn He. apply arm_inv in Hn as (y & h & Hy & -> & Hne).
    destruct (decide (n = c)) as [->|Hnc].
    + by simplify_eq.
    + rewrite Hne by done. by apply (wf_timer _ W _ _ Hy).
  - intros i j h. rewrite !arm_timerOf.
    destruct (decide (i = c)) as [->|Hi], (decide (j = c)) as [->|Hj]; try done.
    + intros ? Hj'. simplify_eq. apply (wf_next _ W) in Hj'. lia.
    + intros Hi' ?. simplify_eq. apply (wf_next _ W) in Hi'. lia.
    + apply (wf_unique _ W).
  - intros i h. rewrite arm_timerOf. unfold arm. simpl.
    destruct (decide _) as [->|].
    + intros ?. simplify_eq. lia.
    + intros Hi. apply (wf_next _ W) in Hi. lia.
  - intros q x Hr. destruct (wf_races _ W _ _ Hr) as (Hq & ox & Hx & Hxp).
    split; [done|]. destruct (arm_fwd _ _ Hx) as (h & Hh). by eexists.
Qed.
End arm.

(** [propagateCancel] on a freshly linked child. *)
Lemma propagateCancel_spec p c w oc :
  wf w → valid_ctx p w = true →
  heap w !! c = Some oc → parent oc = p → err oc = None →
  (∀ q, ¬ tracks w q c) →
  ∃ w' tr,
    propagateCancel p c w = Returned tt w' tr ∧
    wf w' ∧ evolves w w' ∧
    length (heap w') = length (heap w) ∧
    nextTimer w' = nextTimer w ∧
    (∀ t, t ∈ timers w' → t ∈ timers w) ∧
    (∀ i po e, p = ctxRef i → heap w !! i = Some po → err po = Some e →
       error (ctxRef c) w' = Some e ∧ ∀ q d, tracks w' q d ↔ tracks w q d).
Proof.
  intros W Hv Hc Hcp Hcl Hun. unfold propagateCancel.
  destruct (done_spec p w W Hv) as (pr & w1 & Hd & W1 & D & Hpr).
  erewrite bind_eq by exact Hd. rewrite pre_nil.
  destruct (do_heap _ _ D _ _ Hc) as (dc & Hc1).
  destruct p as [|i|k]; simpl in *.
  - (* the background context *)
    unfold ret in Hd. simplify_eq. simpl.
    exists w1, []. split; [done|]. split; [done|]. split; [apply evolves_refl|].
    repeat (split; [done|]). done.
  - (* a cancellable parent *)
    rewrite (Hpr _ eq_refl).
    apply bool_decide_eq_true in Hv.
    destruct (lookup_lt_is_Some_2 _ _ Hv) as [po Hpo].
    destruct (do_heap _ _ D _ _ Hpo) as (dp & Hp1).
    rewrite (bind_getObj _ _ _ _ Hp1). simpl.
    destruct (err po) as [e|] eqn:Hpe.
    + destruct (call_cancel_wf c false e w1 _ W1 Hc1)
        as (V & w2 & tr & Hr & E & SV & _ & _ & W2).
      { right. intros q Hq. apply (done_only_tracks D) in Hq. by eapply Hun. }
      simpl in E. rewrite Hr. eexists _, _. split; [done|]. split; [done|].
      split.
      { eapply evolves_trans; [by apply done_only_evolves|].
        eapply effect_evolves; [done|]. apply SV. }
      split.
      { by rewrite (eff_length _ _ _ _ _ _ _ E), (do_length _ _ D). }
      split.
      { by rewrite (eff_next _ _ _ _ _ _ _ E), (do_next _ _ D). }
      split.
      { intros t Ht. rewrite (eff_timers _ _ _ _ _ _ _ E) in Ht.
        apply list_elem_of_filter in Ht as [_ Ht]. by rewrite <- (do_timers _ _ D). }
      intros j po' e' Hj Hpo' He'. simplify_eq. split.
      * rewrite (eff_heap _ _ _ _ _ _ _ E _ _ Hc1). rewrite err_upd.
        rewrite decide_True; [done|]. apply (cs_roots _ _ _ SV); [by left|].
        by eexists.
      * intros q d. rewrite (effect_tracks _ _ _ _ _ _ q d E).
        apply (done_only_tracks D).
    + unfold modObj. rewrite Hp1.
      eexists _, _. split; [done|]. split.
      { exact (register_wf i c (with_done dp po) (with_done dc oc) w1
                 W1 Hp1 Hpe Hc1 Hcp Hcl). }
      split.
      { eapply evolves_trans; [by apply done_only_evolves|].
        exact (register_evolves i c (with_done dp po) w1 Hp1). }
      split.
      { unfold register. simpl. by rewrite length_insert, (do_length _ _ D). }
      split; [by rewrite <- (do_next _ _ D)|].
      split; [intros t; simpl; by rewrite (do_timers _ _ D)|].
      intros j po' e' Hj Hpo' He'. simplify_eq.
  - (* a foreign parent *)
    apply bool_decide_eq_true in Hv.
    destruct (lookup_lt_is_Some_2 _ _ Hv) as [f Hf]. rewrite Hf in Hd.
    simplify_eq.
    destruct (is_blockForever (f_done f)).
    + exists w1, []. split; [done|]. split; [done|]. split; [apply evolves_refl|].
      repeat (split; [done|]). done.
    + unfold bind at 1. rewrite Hf. simpl.
      destruct (done_spec (ctxRef c) w1 W1) as (pr & w2 & Hd2 & W2 & D2 & _).
      { simpl. apply bool_decide_eq_true. by eapply lookup_lt_Some. }
      simpl in Hd2. erewrite bind_eq by exact Hd2. simpl.
      destruct (do_heap _ _ D2 _ _ Hc) as (dc2 & Hc2).
      eexists _, _. split; [done|]. split.
      { by eapply add_race_wf. }
      split.
      { eapply evolves_trans; [by apply done_only_evolves|].
        by apply evolves_same_heap. }
      split; [by rewrite <- (do_length _ _ D2)|].
      split; [by rewrite <- (do_next _ _ D2)|].
      split; [intros t; simpl; by rewrite (do_timers _ _ D2)|].
      intros j po' e' Hj. done.
Qed.

(** ** The derivations *)

Lemma valid_ctx_mono p w w' :
  length (heap w) ≤ length (heap w') → foreign w' = foreign w →
  valid_ctx p w = true → valid_ctx p w' = true.
Proof.
  intros Hl Hf. destruct p as [|i|k]; simpl; [done| |by rewrite Hf].
  rewrite !bool_decide_eq_true. lia.
Qed.

(** Allocation of the child followed by [propagateCancel]. *)
Lemma link_spec p tm w :
  wf w → valid_ctx p w = true → (∀ t, tm = Some t → timer t = None) →
  ∃ w2 tr o2,
    propagateCancel p (length (heap w)) (alloc p tm w) = Returned tt w2 tr ∧
    wf w2 ∧ evolves w w2 ∧
    length (heap w2) = S (length (heap w)) ∧
    nextTimer w2 = nextTimer w ∧
    (∀ t, t ∈ timers w2 → t ∈ timers w) ∧
    heap w2 !! length (heap w) = Some o2 ∧
    parent o2 = p ∧ deadline_of o2 = deadline_of (fresh p tm) ∧
    timer_of o2 = None ∧
    (∀ i po e, p = ctxRef i → heap w !! i = Some po → err po = Some e →
       err o2 = Some e ∧ ∀ q d, tracks w2 q d ↔ tracks w q d).
Proof.
  intros W Hv Htm.
  pose proof (alloc_wf p tm w Hv Htm W) as W1.
  destruct (propagateCancel_spec p (length (heap w)) (alloc p tm w) (fresh p tm))
    as (w2 & tr & Hr & W2 & Ev & Hlen & Hnext & Htim & Hset); try done.
  { eapply valid_ctx_mono; [| |done]; [rewrite alloc_length; lia|done]. }
  { apply alloc_lookup_new. }
  { intros q. by apply alloc_untracked. }
  destruct (ev_heap _ _ Ev _ _ (alloc_lookup_new p tm w))
    as (o2 & Ho2 & Hp2 & Hd2 & _ & Ht2).
  exists w2, tr, o2. split; [done|]. split; [done|].
  split; [eapply evolves_trans; [apply alloc_evolves|done]|].
  split; [by rewrite Hlen, alloc_length|].
  repeat (split; [done|]).
  split.
  { destruct Ht2 as [Ht2|Ht2]; [|done]. rewrite Ht2. unfold timer_of. simpl.
    destruct tm as [t|]; [|done]. by apply Htm. }
  intros i po e Hp Hpo He.
  destruct (Hset i po e Hp (alloc_lookup_old _ _ _ _ _ Hpo) He) as [Herr Htr].
  split.
  - simpl in Herr. by rewrite Ho2 in Herr.
  - intros q d. rewrite Htr. apply alloc_tracks.
Qed.

Lemma new_CancelCtx_eq p w :
  new_CancelCtx p w = Returned (length (heap w)) (alloc p None w) [].
Proof. done. Qed.

Lemma new_TimerCtx_eq p dl w :
  new_TimerCtx p dl w
  = Returned (length (heap w)) (alloc p (Some (mkTimerCtx dl None)) w) [].
Proof. done. Qed.

(** [withCancel] *)
Lemma withCancel_spec p w :
  wf w → valid_ctx p w = true →
  ∃ w' tr o',
    withCancel p w
      = Returned (ctxRef (length (heap w)), cancelFunc (length (heap w))) w' tr ∧
    wf w' ∧ evolves w w' ∧
    length (heap w') = S (length (heap w)) ∧
    nextTimer w' = nextTimer w ∧
    (∀ t, t ∈ timers w' → t ∈ timers w) ∧
    heap w' !! length (heap w) = Some o' ∧
    parent o' = p ∧ asTimer o' = None ∧
    (∀ i po e, p = ctxRef i → heap w !! i = Some po → err po = Some e →
       err o' = Some e ∧ ∀ q d, tracks w' q d ↔ tracks w q d).
Proof.
  intros W Hv.
  destruct (link_spec p None w W Hv)
    as (w2 & tr & o2 & Hr & W2 & Ev & Hl & Hn & Ht & Ho2 & Hp2 & Hd2 & _ & Hs);
    [done|].
  exists w2, tr, o2. split.
  { unfold withCancel. erewrite bind_eq by apply new_CancelCtx_eq.
    rewrite pre_nil. erewrite bind_eq by exact Hr. simpl. by rewrite app_nil_r. }
  repeat (split; [done|]). split; [|done].
  unfold deadline_of in Hd2. simpl in Hd2. by destruct (asTimer o2).
Qed.

Lemma evolves_arm w w2 c d o :
  evolves w w2 → length (heap w) ≤ c → heap w2 !! c = Some o →
  evolves w (arm c d o w2).
Proof.
  intros [HL HH HF] Hc Ho. split.
  - unfold arm. simpl. by rewrite length_insert.
  - intros i x Hi. destruct (HH _ _ Hi) as (x' & Hx' & Hrest).
    exists x'. split; [|done]. rewrite (arm_lookup c d o w2 Ho).
    rewrite decide_False; [done|]. apply lookup_lt_Some in Hi. lia.
  - done.
Qed.

Lemma arm_eq c d o w :
  heap w !! c = Some o →
  (let! h := setTimeout c d in modObj c (with_timer (Some h))) w
  = Returned tt (arm c d o w) [].
Proof. intros Ho. unfold bind, setTimeout, modObj. simpl. by rewrite Ho. Qed.

(** [withDeadline] *)
Lemma withDeadline_spec p dl now w :
  wf w → valid_ctx p w = true →
  ∃ w' tr,
    withDeadline p dl now w
      = Returned (ctxRef (length (heap w)), cancelFunc (length (heap w))) w' tr ∧
    wf w' ∧ evolves w w' ∧ length (heap w') = S (length (heap w)).
Proof.
  intros W Hv. unfold withDeadline.
  destruct (match deadline p w with
            | Some pd => number_lt (getTime pd) (getTime dl)
            | None => false
            end).
  { destruct (withCancel_spec p w W Hv) as (w' & tr & o' & Hr & W' & Ev & Hl & _).
    by exists w', tr. }
  destruct (link_spec p (Some (mkTimerCtx dl None)) w W Hv)
    as (w2 & tr & o2 & Hr & W2 & Ev & Hl & Hn & Ht & Ho2 & Hp2 & Hd2 & Ht2 & Hs).
  { intros t ?. by simplify_eq. }
  erewrite bind_eq by apply new_TimerCtx_eq.
  rewrite pre_nil. erewrite bind_eq by exact Hr.
  destruct (number_le _ _) eqn:Hd.
  - (* the deadline has already passed *)
    destruct (call_cancel_wf (length (heap w)) true deadlineExceededErr w2 o2 W2 Ho2)
      as (V & w3 & tr3 & Hr3 & E & SV & _ & _ & W3); [by left|].
    erewrite bind_eq by exact Hr3. simpl.
    eexists _, _. split; [done|]. split; [done|]. split.
    + eapply evolves_trans; [done|]. eapply effect_evolves; [done|]. apply SV.
    + by rewrite (eff_length _ _ _ _ _ _ _ E).
  - rewrite (bind_getObj _ _ _ _ Ho2).
    destruct (err o2) as [x|] eqn:He.
    + rewrite bind_ret. simpl. rewrite app_nil_r. by eexists _, _.
    + erewrite bind_eq by (apply arm_eq; exact Ho2). simpl. rewrite app_nil_r.
      eexists _, _. split; [done|]. split.
      * apply arm_wf; try done. unfold deadline_of in Hd2. simpl in Hd2.
        destruct (asTimer o2); [by eexists|done].
      * split; [by apply evolves_arm|].
        unfold arm. simpl. by rewrite length_insert.
Qed.

(** ** Every action preserves well-formedness *)

Lemma cancel_None fuel this rfp w o :
  heap w !! this = Some o →
  cancel (S fuel) this rfp None w
  = Threw MissingCancelError w [EvCancel this rfp None].
Proof.
  intros Ho. rewrite cancel_unfold, Ho. by destruct (asTimer o).
Qed.

Lemma cancel_dangling fuel this rfp err' w :
  heap w !! this = None →
  cancel (S fuel) this rfp err' w = Threw TypeError w [EvCancel this rfp err'].
Proof. intros Ho. by rewrite cancel_unfold, Ho. Qed.

Lemma done_dangling c w : valid_ctx c w = false → final (done c w) w = w.
Proof.
  destruct c as [|i|k]; simpl; [done| |].
  - intros Hv%bool_decide_eq_false. unfold CancelCtx_done, bind, getObj.
    rewrite (proj2 (lookup_ge_None _ _)) by lia. done.
  - intros Hv%bool_decide_eq_false.
    rewrite (proj2 (lookup_ge_None _ _)) by lia. done.
Qed.

Lemma keeps_contract_spec f f' :
  keeps_contract f f' = true →
  f_deadline f' = f_deadline f ∧ ∀ x, f_error f = Some x → f_error f' = Some x.
Proof.
  unfold keeps_contract. intros [Hd He]%andb_true_iff.
  apply bool_decide_eq_true in Hd. split; [done|].
  intros x Hx. rewrite Hx in He. by apply bool_decide_eq_true in He.
Qed.

(** Every enabled action keeps the world well-formed and only lets existing
    objects evolve. *)
Theorem exec_spec a w :
  wf w → enabled a w = true → wf (exec a w) ∧ evolves w (exec a w).
Proof.
  intros W Hen. destruct a as [p|p dl now|p t now now'|c|c|h|i b|f|k f]; simpl in *.
  - destruct (withCancel_spec p w W Hen) as (w' & tr & o' & Hr & W' & Ev & _).
    by rewrite Hr.
  - destruct (withDeadline_spec p dl now w W Hen) as (w' & tr & Hr & W' & Ev & _).
    by rewrite Hr.
  - unfold withTimeout.
    destruct (withDeadline_spec p (new_Date (number_add (Num now) t)) now' w W Hen)
      as (w' & tr & Hr & W' & Ev & _).
    by rewrite Hr.
  - unfold cancelFunc, call_cancel. destruct (heap w !! c) as [o|] eqn:Ho.
    + destruct (call_cancel_wf c true cancelledErr w o W Ho)
        as (V & w' & tr & Hr & E & SV & _ & _ & W'); [by left|].
      unfold call_cancel in Hr. rewrite Hr. simpl. split; [done|].
      eapply effect_evolves; [done|]. apply SV.
    + rewrite cancel_dangling by done. simpl. split; [done|apply evolves_refl].
  - destruct (valid_ctx c w) eqn:Hv.
    + destruct (done_spec c w W Hv) as (pr & w' & Hr & W' & D & _).
      rewrite Hr. simpl. split; [done|by apply done_only_evolves].
    + rewrite done_dangling by done. split; [done|apply evolves_refl].
  - destruct (head _) as [t|] eqn:Ht; [|split; [done|apply evolves_refl]].
    apply head_Some_elem_of, list_elem_of_filter in Ht as [_ Ht].
    set (w1 := set_timers _ w).
    assert (W1 : wf w1) by (by apply remove_timers_wf).
    destruct (timerOf_Some _ _ _ (wf_timers _ W _ Ht)) as (o & Ho & _).
    destruct (call_cancel_wf (target t) true deadlineExceededErr w1 o W1 Ho)
      as (V & w' & tr & Hr & E & SV & _ & _ & W'); [by left|].
    unfold timerCallback. rewrite Hr. simpl. split; [done|].
    eapply evolves_trans; [by apply (evolves_same_heap w w1)|].
    eapply effect_evolves; [done|]. apply SV.
  - destruct (races w !! i) as [[p c]|] eqn:Hr; [|split; [done|apply evolves_refl]].
    set (w1 := set_races _ w).
    assert (W1 : wf w1) by (by apply remove_race_wf).
    assert (Ev1 : evolves w w1) by (by apply evolves_same_heap).
    destruct b; simpl; [|done].
    destruct (wf_races _ W p c) as (Hp & oc & Hc & Hcp).
    { apply list_elem_of_lookup. eauto. }
    destruct (error p w1) as [e|] eqn:He.
    + destruct (call_cancel_wf c false e w1 oc W1 Hc)
        as (V & w' & tr & Hr' & E & SV & _ & _ & W').
      { right. intros q Hq. destruct (wf_child _ W1 _ _ Hq) as (x & Hx & Hxp).
        simpl in Hx. simplify_eq. rewrite Hxp in Hp. done. }
      rewrite Hr'. simpl. split; [done|].
      eapply evolves_trans; [done|]. eapply effect_evolves; [done|]. apply SV.
    + unfold call_cancel. by rewrite (cancel_None _ _ _ _ oc).
  - split; [by apply set_foreign_wf|]. split; [done| |].
    + intros i o Ho. exists o. eauto 10.
    + intros k x Hk. exists x. split; [|done]. simpl. by apply lookup_app_l_Some.
  - split; [by apply set_foreign_wf|]. split; [done| |].
    + intros i o Ho. exists o. eauto 10.
    + intros j x Hj. simpl. rewrite list_lookup_insert.
      destruct (decide (k = j ∧ k < length (foreign w))) as [[-> Hlt]|Hne].
      * rewrite Hj in Hen. exists f. split; [done|]. by apply keeps_contract_spec.
      * exists x. eauto.
Qed.

Theorem reachable_wf w : reachable w → wf w.
Proof.
  induction 1 as [|a w Hw IH Hen].
  - split.
    + intros p c (op & cs & Hp & _). done.
    + intros n o p Hn. done.
    + intros p c (o & Ho & _). done.
    + intros n o Hn. done.
    + intros t Ht. by apply elem_of_nil in Ht.
    + intros n o Hn. done.
    + intros i j h Hi. done.
    + intros i h Hi. done.
    + intros p c Hr. by apply elem_of_nil in Hr.
  - by apply exec_spec.
Qed.

(** * Properties of the specification *)

Lemma reaches_reachable w w' : reachable w → reaches w w' → reachable w'.
Proof. intros Hw. induction 1; [done|]. by apply reach_step. Qed.

Lemma evolves_error c e w w' :
  evolves w w' → error c w = Some e → error c w' = Some e.
Proof.
  intros Ev. destruct c as [|i|k]; simpl; [done| |].
  - destruct (heap w !! i) as [o|] eqn:Ho; [|done]. intros He.
    destruct (ev_heap _ _ Ev _ _ Ho) as (o' & -> & _ & _ & Herr & _). eauto.
  - destruct (foreign w !! k) as [f|] eqn:Hf; [|done]. intros He.
    destruct (ev_foreign _ _ Ev _ _ Hf) as (f' & -> & _ & Herr). eauto.
Qed.

Lemma evolves_deadline c d w w' :
  evolves w w' → deadline c w = Some d → deadline c w' = Some d.
Proof.
  intros Ev. destruct c as [|i|k]; simpl; [done| |].
  - destruct (heap w !! i) as [o|] eqn:Ho; [|done]. intros He.
    destruct (ev_heap _ _ Ev _ _ Ho) as (o' & -> & _ & Hd & _).
    unfold deadline_of in Hd. destruct (asTimer o), (asTimer o'); congruence.
  - destruct (foreign w !! k) as [f|] eqn:Hf; [|done]. intros He.
    destruct (ev_foreign _ _ Ev _ _ Hf) as (f' & -> & Hd & _). congruence.
Qed.

Lemma evolves_deadline_eq c w w' :
  evolves w w' → valid_ctx c w = true → deadline c w' = deadline c w.
Proof.
  intros Ev. destruct c as [|i|k]; simpl; [done| |].
  - rewrite bool_decide_eq_true. intros Hi.
    destruct (lookup_lt_is_Some_2 _ _ Hi) as [o Ho].
    destruct (ev_heap _ _ Ev _ _ Ho) as (o' & -> & _ & Hd & _). rewrite Ho.
    unfold deadline_of in Hd. destruct (asTimer o), (asTimer o'); congruence.
  - rewrite bool_decide_eq_true. intros Hk.
    destruct (lookup_lt_is_Some_2 _ _ Hk) as [f Hf].
    destruct (ev_foreign _ _ Ev _ _ Hf) as (f' & -> & Hd & _). by rewrite Hf.
Qed.

(** C3: once [error()] of a context is non-empty, it returns that same value
    after any further sequence of enabled actions (cancel closures, cascades,
    timer expiry, race continuations, derivations): settlement is one-way.
    For the objects of this module that is a property of the code; for a
    foreign context it is the contract of the interface ([keeps_contract]),
    which no function of the module can break since none writes to one. *)
Theorem error_is_final c e w w' :
  reachable w → reaches w w' → error c w = Some e → error c w' = Some e.
Proof.
  intros Hw Hr He. induction Hr as [|a w' Hr IH Hen]; [done|].
  eapply evolves_error; [|exact IH].
  apply exec_spec; [|done]. apply reachable_wf. by eapply reaches_reachable.
Qed.

Lemma descendant_in_cascade n V w :
  wf w → cascade_set [n] V w → n ∈ V → ∀ d, descendant w n d → d ∈ V.
Proof.
  intros W SV Hn d Hd. induction Hd as [c Hc|d c Hd IH Hc].
  - eapply (cs_closed _ _ _ SV); [done..|].
    eapply (wf_live _ W); [|done]. by apply (cs_live _ _ _ SV).
  - eapply (cs_closed _ _ _ SV); [done..|].
    eapply (wf_live _ W); [|done]. by apply (cs_live _ _ _ SV).
Qed.

Lemma descendant_called n V e w tr :
  wf w → cascade_set [n] V w → n ∈ V → calls_children w V e tr →
  ∀ d, descendant w n d → EvCancel d false (Some e) ∈ tr.
Proof.
  intros W SV Hn K d Hd. destruct Hd as [c Hc|d c Hd Hc].
  - by eapply K.
  - eapply K; [|done]. by eapply descendant_in_cascade.
Qed.

(** C4: cancelling a live node settles it and every tracked descendant with
    the reason of the call ([cancelledErr] for the closure, which is
    [call_cancel n true (Some cancelledErr)]); each descendant receives
    [cancel(false, reason)], and all of it happens inside the one call. *)
Theorem cancel_cascades n rfp e w o :
  reachable w → heap w !! n = Some o → err o = None →
  ∃ w' tr,
    call_cancel n rfp (Some e) w
      = Returned tt w' (EvCancel n rfp (Some e) :: tr) ∧
    error (ctxRef n) w' = Some e ∧
    (∀ d, descendant w n d →
       error (ctxRef d) w' = Some e ∧ EvCancel d false (Some e) ∈ tr) ∧
    (∀ j r x, EvCancel j r x ∈ tr → r = false ∧ x = Some e).
Proof.
  intros Hw Ho He. apply reachable_wf in Hw.
  destruct (call_cancel_spec n rfp e w o Hw Ho) as (V & w' & tr & Hr & E & SV & T & K).
  assert (Hn : n ∈ V).
  { apply (cs_roots _ _ _ SV); [by left|by exists o]. }
  assert (Herr : ∀ i, i ∈ V → error (ctxRef i) w' = Some e).
  { intros i Hi. destruct (cs_live _ _ _ SV _ Hi) as (oi & Hoi & _). simpl.
    rewrite (eff_heap _ _ _ _ _ _ _ E _ _ Hoi), err_upd. by rewrite decide_True. }
  exists w', tr. split; [done|]. split; [by apply Herr|]. split; [|done].
  intros d Hd. split.
  - apply Herr. by eapply descendant_in_cascade.
  - by eapply descendant_called.
Qed.

Lemma cancel_settled_noop fuel n rfp e w o x :
  heap w !! n = Some o → err o = Some x → timer_of o = None →
  cancel (S fuel) n rfp (Some e) w = Returned tt w [EvCancel n rfp (Some e)].
Proof.
  intros Ho He Ht. rewrite cancel_unfold, Ho.
  pose proof (CancelCtx_cancel_settled (cancel fuel) n rfp e w o x Ho He) as Hc.
  destruct (asTimer o) as [tc|] eqn:Htc; [|by rewrite Hc].
  unfold TimerCtx_cancel. erewrite bind_eq by exact Hc.
  rewrite pre_nil, (bind_getObj _ _ _ _ Ho), Htc.
  unfold timer_of in Ht. rewrite Htc in Ht. by rewrite Ht.
Qed.

(** C5: after a cancel call has returned, a second call on the same node
    returns normally, leaves the world as it is and makes no further call:
    no cascade, no resolution of the promise, no exception. *)
Theorem cancel_twice n rfp e rfp' e' w w1 tr :
  reachable w →
  call_cancel n rfp (Some e) w = Returned tt w1 tr →
  call_cancel n rfp' (Some e') w1
    = Returned tt w1 [EvCancel n rfp' (Some e')].
Proof.
  intros Hw Hr. apply reachable_wf in Hw.
  destruct (heap w !! n) as [o|] eqn:Ho.
  2:{ unfold call_cancel in Hr. by rewrite cancel_dangling in Hr. }
  destruct (call_cancel_spec n rfp e w o Hw Ho) as (V & w' & tr' & Hr' & E & SV & _).
  rewrite Hr in Hr'. simplify_eq.
  pose proof (eff_heap _ _ _ _ _ _ _ E _ _ Ho) as Ho1.
  unfold call_cancel.
  destruct (decide (n ∈ V)) as [Hn|Hn].
  - eapply cancel_settled_noop; [done| |].
    + rewrite err_upd. by rewrite decide_True.
    + rewrite timer_of_upd_gen. by rewrite decide_True.
  - destruct (err o) as [x|] eqn:He.
    + eapply (cancel_settled_noop _ _ _ _ _ _ x); [done| |].
      * rewrite err_upd. by rewrite decide_False.
      * rewrite timer_of_upd_gen, decide_False by done.
        apply (wf_timer _ Hw _ _ Ho). by rewrite He.
    + destruct Hn. apply (cs_roots _ _ _ SV); [by left|by exists o].
Qed.

(** C6, amended: for every parent that is a cancellable node (a [CancelCtx]
    or [TimerCtx] object) and already settled, [withCancel] returns a child
    that is settled with the parent's error, and the child is registered in no
    children set; the sets are as they were. *)
Theorem withCancel_settled_parent p po e w :
  reachable w → heap w !! p = Some po → err po = Some e →
  ∃ w' tr,
    withCancel (ctxRef p) w
      = Returned (ctxRef (length (heap w)), cancelFunc (length (heap w))) w' tr ∧
    error (ctxRef (length (heap w))) w' = Some e ∧
    (∀ q, ¬ tracks w' q (length (heap w))) ∧
    (∀ q d, tracks w' q d ↔ tracks w q d).
Proof.
  intros Hw Hp He. apply reachable_wf in Hw.
  destruct (withCancel_spec (ctxRef p) w Hw)
    as (w' & tr & o' & Hr & W' & Ev & Hl & Hn & Ht & Ho' & Hp' & Hk & Hs).
  { simpl. apply bool_decide_eq_true. by eapply lookup_lt_Some. }
  destruct (Hs p po e eq_refl Hp He) as [Herr Htr].
  exists w', tr. split; [done|]. split; [simpl; by rewrite Ho'|].
  split; [|done].
  intros q Hq. apply Htr in Hq. destruct (wf_child _ Hw _ _ Hq) as (x & Hx & _).
  apply lookup_lt_Some in Hx. lia.
Qed.

(** No call of [cancel] touches the children set of the node it settles. *)
Lemma cancel_keeps_own_children n rfp e w o :
  reachable w → heap w !! n = Some o →
  ∃ w' tr o',
    call_cancel n rfp (Some e) w = Returned tt w' tr ∧
    heap w' !! n = Some o' ∧ children o' = children o.
Proof.
  intros Hw Ho. apply reachable_wf in Hw.
  destruct (call_cancel_spec n rfp e w o Hw Ho) as (V & w' & tr & Hr & E & _).
  eexists w', _, _. split; [done|].
  split; [by apply (eff_heap _ _ _ _ _ _ _ E)|].
  rewrite children_upd. rewrite bool_decide_eq_false_2, andb_false_r; [done|].
  intros Hp. pose proof (wf_parent _ Hw _ _ _ Ho Hp). lia.
Qed.

(** C7: in every reachable world a settled timer node has no timer handle,
    and no pending entry of the host's timer table targets it. *)
Theorem settled_timer_cleared n o w :
  reachable w → heap w !! n = Some o → is_Some (asTimer o) → err o ≠ None →
  timer_of o = None ∧ ∀ t, t ∈ timers w → target t ≠ n.
Proof.
  intros Hw Ho _ He. apply reachable_wf in Hw.
  pose proof (wf_timer _ Hw _ _ Ho He) as Ht. split; [done|].
  intros t Hin Heq. pose proof (wf_timers _ Hw _ Hin) as Hh.
  rewrite Heq, (timerOf_lookup _ _ _ Ho), Ht in Hh. done.
Qed.

(** C8: [cancel] with a null reason throws at once and leaves the whole
    world as it was: no error recorded, no promise resolved, no child
    cancelled. *)
Theorem cancel_without_reason n rfp w o :
  heap w !! n = Some o →
  call_cancel n rfp None w
    = Threw MissingCancelError w [EvCancel n rfp None].
Proof. intros Ho. unfold call_cancel. by eapply cancel_None. Qed.

Lemma cascade_in_subtree n V w :
  wf w → cascade_set [n] V w → ∀ i, i ∈ V → i = n ∨ descendant w n i.
Proof.
  intros W SV i. induction (lt_wf i) as [i _ IH]. intros Hi.
  destruct (cs_origin _ _ _ SV _ Hi) as [Hr|(q & Hq & Ht)].
  - left. by apply list_elem_of_singleton in Hr.
  - right. destruct (IH q) as [->|Hd]; [|done| |].
    + destruct (wf_child _ W _ _ Ht) as (x & Hx & Hp).
      by eapply (wf_parent _ W).
    + by apply desc_child.
    + by eapply desc_step.
Qed.

Lemma descendant_parent n d w :
  wf w → descendant w n d →
  ∃ od q, heap w !! d = Some od ∧ parent od = ctxRef q ∧ n ≤ q ∧ q < d ∧
    (q = n ∨ descendant w n q).
Proof.
  intros W Hd. induction Hd as [c Hc|d c Hd IH Hc].
  - destruct (wf_child _ W _ _ Hc) as (oc & Ho & Hp). exists oc, n.
    repeat (split; [done|]). split; [by eapply (wf_parent _ W)|by left].
  - destruct IH as (od & q & Hod & Hq & Hle & Hlt & _).
    destruct (wf_child _ W _ _ Hc) as (oc & Ho & Hp). exists oc, d.
    repeat (split; [done|]). split; [lia|].
    split; [by eapply (wf_parent _ W)|by right].
Qed.

(** C9: cancelling a node changes neither its parent's nor a sibling's
    [error()]; an object outside the node's subtree is left as it was, except
    that the node is deleted from its parent's children set when
    [removeFromParent] is true and the node was live; pending timers of
    objects outside the subtree stay scheduled. *)
Theorem cancel_frame n rfp e w o :
  reachable w → heap w !! n = Some o →
  ∃ w' tr,
    call_cancel n rfp (Some e) w = Returned tt w' tr ∧
    error (parent o) w' = error (parent o) w ∧
    (∀ s os, s ≠ n → heap w !! s = Some os → parent os = parent o →
       error (ctxRef s) w' = error (ctxRef s) w) ∧
    (∀ i oi, i ≠ n → ¬ descendant w n i → heap w !! i = Some oi →
       heap w' !! i =
       Some (if rfp && is_live o && bool_decide (parent o = ctxRef i)
             then with_children (Set_delete n <$> children oi) oi
             else oi)) ∧
    (∀ t, t ∈ timers w → target t ≠ n → ¬ descendant w n (target t) →
       t ∈ timers w') ∧
    foreign w' = foreign w ∧ races w' = races w ∧ nextTimer w' = nextTimer w.
Proof.
  intros Hw Ho. apply reachable_wf in Hw.
  destruct (call_cancel_spec n rfp e w o Hw Ho) as (V & w' & tr & Hr & E & SV & _).
  assert (Hout : ∀ i, i ≠ n → ¬ descendant w n i → i ∉ V).
  { intros i Hne Hnd Hi.
    destruct (cascade_in_subtree n V w Hw SV i Hi); done. }
  assert (Hframe : ∀ i oi, i ∉ V → heap w !! i = Some oi →
    error (ctxRef i) w' = error (ctxRef i) w).
  { intros i oi Hi Hoi. simpl.
    rewrite (eff_heap _ _ _ _ _ _ _ E _ _ Hoi), Hoi, err_upd.
    by rewrite decide_False. }
  exists w', (EvCancel n rfp (Some e) :: tr).
  split; [done|]. split; [|split; [|split; [|split]]].
  - destruct (parent o) as [|q|k] eqn:Hp; [done| |].
    + destruct (heap w !! q) as [oq|] eqn:Hq.
      * apply (Hframe q oq); [|done]. intros Hin.
        destruct (cs_bound _ _ _ SV _ Hin) as (r & ->%list_elem_of_singleton & Hle).
        pose proof (wf_parent _ Hw _ _ _ Ho Hp). lia.
      * simpl. by rewrite (effect_lookup_None E), Hq.
    + simpl. by rewrite (eff_foreign _ _ _ _ _ _ _ E).
  - intros s os Hne Hos Hp. apply (Hframe s os); [|done]. intros Hin.
    destruct (cascade_in_subtree n V w Hw SV s Hin) as [?|Hd]; [done|].
    destruct (descendant_parent n s w Hw Hd) as (x & q & Hx & Hq & Hle & Hlt & _).
    simplify_eq. rewrite Hq in Hp. symmetry in Hp.
    pose proof (wf_parent _ Hw _ _ _ Ho Hp). lia.
  - intros i oi Hne Hnd Hoi.
    rewrite (eff_heap _ _ _ _ _ _ _ E _ _ Hoi). f_equal.
    by rewrite upd_not_in by (by apply Hout).
  - intros t Hin Hne Hnd. rewrite (eff_timers _ _ _ _ _ _ _ E).
    apply list_elem_of_filter. split; [|done].
    intros (i & Hi & Hh)%list_elem_of_omap.
    assert (i = target t) as ->.
    { eapply (wf_unique _ Hw); [done|]. by apply (wf_timers _ Hw). }
    by apply (Hout (target t)).
  - split; [apply (eff_foreign _ _ _ _ _ _ _ E)|].
    split; [apply (eff_races _ _ _ _ _ _ _ E)|apply (eff_next _ _ _ _ _ _ _ E)].
Qed.


(** C1, amended: when the parent's deadline is strictly earlier than the
    requested one, [withDeadline] is [withCancel]: the node it returns is a
    plain [CancelCtx] and no timer is scheduled. *)
Theorem withDeadline_degrades parent' p d now w :
  reachable w → valid_ctx parent' w = true →
  deadline parent' w = Some (date p) → (p < d)%Z →
  withDeadline parent' (date d) now w = withCancel parent' w ∧
  ∃ w' tr o',
    withDeadline parent' (date d) now w
      = Returned (ctxRef (length (heap w)), cancelFunc (length (heap w))) w' tr ∧
    heap w' !! length (heap w) = Some o' ∧ asTimer o' = None ∧
    nextTimer w' = nextTimer w ∧
    (∀ t, t ∈ timers w' → t ∈ timers w).
Proof.
  intros Hw Hv Hd Hlt. apply reachable_wf in Hw.
  assert (Heq : withDeadline parent' (date d) now w = withCancel parent' w).
  { unfold withDeadline. rewrite Hd. simpl. by rewrite bool_decide_eq_true_2. }
  split; [done|]. rewrite Heq.
  destruct (withCancel_spec parent' w Hw Hv)
    as (w' & tr & o' & Hr & W' & Ev & Hl & Hn & Ht & Ho' & Hp' & Hk & Hs).
  by exists w', tr, o'.
Qed.

(** ** The properties at the example worlds *)

Lemma reachable_ex_family : reachable ex_family.
Proof. unfold ex_family. reach. Qed.
Lemma reachable_ex_cancelled : reachable ex_cancelled.
Proof. unfold ex_cancelled, ex_family. reach. Qed.
Lemma reachable_ex_deadline : reachable ex_deadline.
Proof. unfold ex_deadline. reach. Qed.

Lemma withDeadline_degrades_witness :
  withDeadline (ctxRef 0) (date 200) 0 ex_deadline
    = withCancel (ctxRef 0) ex_deadline ∧
  ∃ w' tr o',
    withDeadline (ctxRef 0) (date 200) 0 ex_deadline
      = Returned (ctxRef 1, cancelFunc 1) w' tr ∧
    heap w' !! 1 = Some o' ∧ asTimer o' = None ∧
    nextTimer w' = nextTimer ex_deadline ∧
    (∀ t, t ∈ timers w' → t ∈ timers ex_deadline).
Proof.
  apply (withDeadline_degrades (ctxRef 0) 100 200 0 ex_deadline).
  - apply reachable_ex_deadline.
  - reflexivity.
  - reflexivity.
  - lia.
Defined.

(** C1, counterexample: with the requested deadline equal to the parent's,
    [withDeadline] builds a timer node and schedules a timer. *)
Lemma withDeadline_equal_deadlines :
  deadline (ctxRef 0) ex_deadline = Some (date 100) ∧ (100 ≤ 100)%Z ∧
  withDeadline (ctxRef 0) (date 100) 0 ex_deadline
    ≠ withCancel (ctxRef 0) ex_deadline ∧
  ∃ w' tr,
    withDeadline (ctxRef 0) (date 100) 0 ex_deadline
      = Returned (ctxRef 1, cancelFunc 1) w' tr ∧
    heap w' !! 1 = Some (mkCancelCtx (ctxRef 0) None None None
                           (Some (mkTimerCtx (date 100) (Some 2%positive)))) ∧
    timers w' = [mkTimeout 1 0 (Num 100); mkTimeout 2 1 (Num 100)].
Proof.
  split; [reflexivity|]. split; [lia|]. split.
  - intros H. apply (f_equal (λ r, nextTimer (final r emptyWorld))) in H.
    vm_compute in H. discriminate.
  - eexists _, _. split; [vm_compute; reflexivity|]. split; reflexivity.
Qed.

(** C2: after its cancel closure ran, node 0 is settled and its children set
    still holds both children. *)
Lemma settled_node_keeps_children :
  error (ctxRef 0) ex_cancelled = Some cancelledErr ∧
  children <$> heap ex_cancelled !! 0 = Some (Some [1; 3]) ∧
  tracks ex_cancelled 0 1.
Proof.
  split; [reflexivity|]. split; [reflexivity|].
  eexists _, _. split; [reflexivity|]. split; [reflexivity|].
  apply elem_of_cons. by left.
Qed.

Lemma error_is_final_witness :
  error (ctxRef 2) (exec (ActCancelFunc 0) (exec (ActTimer 1) ex_family))
  = Some deadlineExceededErr.
Proof.
  apply (error_is_final (ctxRef 2) deadlineExceededErr
           (exec (ActTimer 1) ex_family)).
  - unfold ex_family. reach.
  - apply reaches_step; [apply reaches_refl|reflexivity].
  - reflexivity.
Defined.

Lemma cancel_cascades_witness :
  ∃ w' tr,
    call_cancel 0 true (Some cancelledErr) ex_family
      = Returned tt w' (EvCancel 0 true (Some cancelledErr) :: tr) ∧
    error (ctxRef 0) w' = Some cancelledErr ∧
    (∀ d, descendant ex_family 0 d →
       error (ctxRef d) w' = Some cancelledErr ∧
       EvCancel d false (Some cancelledErr) ∈ tr) ∧
    (∀ j r x, EvCancel j r x ∈ tr → r = false ∧ x = Some cancelledErr).
Proof.
  eapply (cancel_cascades 0 true cancelledErr ex_family).
  - apply reachable_ex_family.
  - reflexivity.
  - reflexivity.
Defined.

Lemma cancel_twice_witness :
  call_cancel 0 true (Some cancelledErr) ex_cancelled
  = Returned tt ex_cancelled [EvCancel 0 true (Some cancelledErr)].
Proof.
  eapply (cancel_twice 0 true cancelledErr true cancelledErr ex_family).
  - apply reachable_ex_family.
  - vm_compute. reflexivity.
Defined.

Lemma withCancel_settled_parent_witness :
  ∃ w' tr,
    withCancel (ctxRef 0) ex_cancelled
      = Returned (ctxRef 4, cancelFunc 4) w' tr ∧
    error (ctxRef 4) w' = Some cancelledErr ∧
    (∀ q, ¬ tracks w' q 4) ∧
    (∀ q d, tracks w' q d ↔ tracks ex_cancelled q d).
Proof.
  eapply (withCancel_settled_parent 0 _ cancelledErr ex_cancelled).
  - apply reachable_ex_cancelled.
  - reflexivity.
  - reflexivity.
Defined.

(** C6, counterexample: a child derived from a settled foreign context is
    still live when the derivation returns; only a race is registered. *)
Lemma withCancel_settled_foreign_parent :
  error (foreignRef 0) ex_foreign = Some cancelledErr ∧
  ∃ w' tr,
    withCancel (foreignRef 0) ex_foreign
      = Returned (ctxRef 0, cancelFunc 0) w' tr ∧
    error (ctxRef 0) w' = None ∧
    races w' = [(foreignRef 0, 0)].
Proof.
  split; [reflexivity|].
  eexists _, _. split; [vm_compute; reflexivity|]. split; reflexivity.
Qed.

Lemma settled_timer_cleared_witness :
  timer_of (mkCancelCtx (ctxRef 1) (Some alwaysResolve) (Some cancelledErr) None
              (Some (mkTimerCtx (date 50) None))) = None ∧
  ∀ t, t ∈ timers ex_cancelled → target t ≠ 2.
Proof.
  apply (settled_timer_cleared 2 _ ex_cancelled).
  - apply reachable_ex_cancelled.
  - reflexivity.
  - by eexists.
  - done.
Defined.

Lemma cancel_without_reason_witness :
  call_cancel 2 true None ex_family
  = Threw MissingCancelError ex_family [EvCancel 2 true None].
Proof.
  eapply (cancel_without_reason 2 true ex_family). reflexivity.
Defined.

Lemma cancel_frame_witness :
  ∃ w' tr,
    call_cancel 1 true (Some cancelledErr) ex_family = Returned tt w' tr ∧
    error (ctxRef 0) w' = error (ctxRef 0) ex_family ∧
    (∀ s os, s ≠ 1 → heap ex_family !! s = Some os → parent os = ctxRef 0 →
       error (ctxRef s) w' = error (ctxRef s) ex_family) ∧
    (∀ i oi, i ≠ 1 → ¬ descendant ex_family 1 i → heap ex_family !! i = Some oi →
       heap w' !! i =
       Some (if true && true && bool_decide (ctxRef 0 = ctxRef i)
             then with_children (Set_delete 1 <$> children oi) oi
             else oi)) ∧
    (∀ t, t ∈ timers ex_family → target t ≠ 1 →
       ¬ descendant ex_family 1 (target t) → t ∈ timers w') ∧
    foreign w' = foreign ex_family ∧ races w' = races ex_family ∧
    nextTimer w' = nextTimer ex_family.
Proof.
  eapply (cancel_frame 1 true cancelledErr ex_family
            (mkCancelCtx (ctxRef 0) (Some (newPromise 1 false)) None (Some [2]) None)).
  - apply reachable_ex_family.
  - reflexivity.
Defined.



(** * Further properties of the code *)

(** ** Stability of the interface; closures and callbacks *)

(** X1: successive calls of [done()] return the same promise: in the world a
    call of [done()] leaves, the next call returns the promise of the first
    and changes nothing. *)
Theorem done_is_stable c w p w1 tr :
  done c w = Returned p w1 tr → done c w1 = Returned p w1 [].
Proof.
  destruct c as [|i|k]; simpl.
  - unfold ret. intros ?. by simplify_eq.
  - unfold CancelCtx_done. destruct (heap w !! i) as [o|] eqn:Ho.
    2:{ unfold bind, getObj. by rewrite Ho. }
    rewrite (bind_getObj _ _ _ _ Ho).
    destruct (_done o) as [pr|] eqn:Hd.
    + unfold ret. intros Heq. injection Heq as -> -> _.
      rewrite (bind_getObj _ _ _ _ Ho), Hd. done.
    + rewrite (bind_modObj _ _ _ _ _ Ho). unfold ret. intros Heq.
      injection Heq as <- <- _.
      assert (H1 : heap (set_heap (λ h,
                  <[i := with_done (Some (newPromise i false)) o]> h) w) !! i
                = Some (with_done (Some (newPromise i false)) o)).
      { rewrite heap_insert_lookup by (by eapply lookup_lt_Some).
        by rewrite decide_True. }
      by rewrite (bind_getObj _ _ _ _ H1).
  - destruct (foreign w !! k) as [f|] eqn:Hf; [|done].
    intros ?. simplify_eq. by rewrite Hf.
Qed.

Lemma evolves_valid c w w' :
  evolves w w' → valid_ctx c w = true → valid_ctx c w' = true.
Proof.
  intros Ev. destruct c as [|i|k]; simpl; [done| |].
  - rewrite !bool_decide_eq_true. pose proof (ev_length _ _ Ev). lia.
  - rewrite !bool_decide_eq_true. intros Hk.
    destruct (lookup_lt_is_Some_2 _ _ Hk) as [f Hf].
    destruct (ev_foreign _ _ Ev _ _ Hf) as (f' & Hf' & _).
    by eapply lookup_lt_Some.
Qed.

(** X2: successive calls of [deadline()] return the same result: whatever
    enabled actions happen in between, a context reports the deadline, or the
    absence of one, that it reported before. *)
Theorem deadline_is_stable c w w' :
  reachable w → reaches w w' → valid_ctx c w = true →
  deadline c w' = deadline c w ∧ valid_ctx c w' = true.
Proof.
  intros Hw Hr Hv. induction Hr as [|a w' Hr [IHd IHv] Hen]; [done|].
  assert (Ev : evolves w' (exec a w')).
  { apply exec_spec; [|done]. apply reachable_wf. by eapply reaches_reachable. }
  split; [|by eapply evolves_valid].
  rewrite <- IHd. by apply evolves_deadline_eq.
Qed.

(** X5: in a reachable world the functions of the module return: neither
    [withCancel], [withDeadline], [withTimeout] or [done()] on an existing
    context, nor a cancel closure, nor the expiry callback of a pending
    timeout throws or fails to terminate. *)
Theorem public_functions_return w :
  reachable w →
  (∀ p, valid_ctx p w = true →
     (∃ r w' tr, withCancel p w = Returned r w' tr) ∧
     (∀ dl now, ∃ r w' tr, withDeadline p dl now w = Returned r w' tr) ∧
     (∀ timeout now now', ∃ r w' tr,
        withTimeout p timeout now now' w = Returned r w' tr) ∧
     (∃ pr w' tr, done p w = Returned pr w' tr)) ∧
  (∀ c, c < length (heap w) → ∃ w' tr, cancelFunc c w = Returned tt w' tr) ∧
  (∀ t, t ∈ timers w → ∃ w' tr, timerCallback t w = Returned tt w' tr).
Proof.
  intros Hw. apply reachable_wf in Hw. split; [|split].
  - intros p Hv. split; [|split; [|split]].
    + destruct (withCancel_spec p w Hw Hv) as (w' & tr & o' & Hr & _). eauto.
    + intros dl now.
      destruct (withDeadline_spec p dl now w Hw Hv) as (w' & tr & Hr & _). eauto.
    + intros timeout now now'. unfold withTimeout.
      destruct (withDeadline_spec p (new_Date (number_add (Num now) timeout)) now' w
                  Hw Hv) as (w' & tr & Hr & _).
      eauto.
    + destruct (done_spec p w Hw Hv) as (pr & w' & Hr & _). eauto.
  - intros c Hc. destruct (lookup_lt_is_Some_2 _ _ Hc) as [o Ho].
    destruct (call_cancel_spec c true cancelledErr w o Hw Ho) as (V & w' & tr & Hr & _).
    unfold cancelFunc. eauto.
  - intros t Ht.
    destruct (timerOf_Some _ _ _ (wf_timers _ Hw _ Ht)) as (o & Ho & _).
    destruct (call_cancel_spec (target t) true deadlineExceededErr w o Hw Ho)
      as (V & w' & tr & Hr & _).
    unfold timerCallback. eauto.
Qed.

(** What a call [cancel(true, e)] on a live node of a well-formed world
    leaves behind. *)
Lemma cancel_live_outcome n e w o :
  wf w → heap w !! n = Some o → err o = None →
  ∃ w' tr,
    call_cancel n true (Some e) w = Returned tt w' tr ∧ wf w' ∧
    error (ctxRef n) w' = Some e ∧
    (∀ d, descendant w n d → error (ctxRef d) w' = Some e) ∧
    (∀ q d, tracks w' q d ↔ tracks w q d ∧ d ≠ n) ∧
    (∀ t, t ∈ timers w' → t ∈ timers w ∧ target t ≠ n).
Proof.
  intros W Ho He.
  destruct (call_cancel_wf n true e w o W Ho) as (V & w' & tr & Hr & E & SV & _ & _ & W');
    [by left|].
  assert (Hb : true && is_live o = true) by (unfold is_live; by rewrite He).
  rewrite Hb in E.
  assert (Hn : n ∈ V).
  { apply (cs_roots _ _ _ SV); [by left|by exists o]. }
  assert (Herr : ∀ i, i ∈ V → error (ctxRef i) w' = Some e).
  { intros i Hi. destruct (cs_live _ _ _ SV _ Hi) as (oi & Hoi & _). simpl.
    rewrite (eff_heap _ _ _ _ _ _ _ E _ _ Hoi), err_upd. by rewrite decide_True. }
  exists w', (EvCancel n true (Some e) :: tr).
  split; [done|]. split; [done|]. split; [by apply Herr|].
  split; [|split].
  - intros d Hd. apply Herr. exact (descendant_in_cascade n V w W SV Hn d Hd).
  - intros q d. split.
    + intros Ht. pose proof (effect_tracks_sub E _ _ Ht) as Ht0. split; [done|].
      intros ->. destruct (wf_child _ W _ _ Ht0) as (x & Hx & Hp). simplify_eq.
      by eapply (effect_tracks_removed E q).
    + intros [(oq & cs & Hq & Hcs & Hd) Hne].
      pose proof (eff_heap _ _ _ _ _ _ _ E _ _ Hq) as Hq'.
      pose proof (children_upd V e true (parent o) n q oq) as Hch.
      rewrite Hcs in Hch. simpl in Hch. destruct (bool_decide _).
      * eexists _, _. split; [done|]. split; [done|]. by apply elem_of_Set_delete.
      * eexists _, _. split; [done|]. split; [done|]. done.
  - intros t Ht. split.
    + rewrite (eff_timers _ _ _ _ _ _ _ E) in Ht.
      by apply list_elem_of_filter in Ht as [_ Ht].
    + intros Heq. pose proof (wf_timers _ W' _ Ht) as Hh. rewrite Heq in Hh.
      apply timerOf_Some in Hh as (o' & Ho' & Hto).
      rewrite (wf_timer _ W' _ _ Ho') in Hto; [done|].
      specialize (Herr n Hn). simpl in Herr. rewrite Ho' in Herr. by rewrite Herr.
Qed.

(** X7: the cancel closure of a live node settles it with [cancelledErr] and
    deletes it from its parent's children set; all other membership in
    children sets is as before. *)
Theorem cancelFunc_detaches c o w :
  reachable w → heap w !! c = Some o → err o = None →
  ∃ w' tr,
    cancelFunc c w = Returned tt w' tr ∧
    error (ctxRef c) w' = Some cancelledErr ∧
    (∀ q, ¬ tracks w' q c) ∧
    (∀ q d, tracks w' q d ↔ tracks w q d ∧ d ≠ c).
Proof.
  intros Hw Ho He. apply reachable_wf in Hw.
  destruct (cancel_live_outcome c cancelledErr w o Hw Ho He)
    as (w' & tr & Hr & _ & Herr & _ & Htr & _).
  exists w', tr. split; [done|]. split; [done|]. split; [|done].
  intros q Hq. apply Htr in Hq as [_ Hne]. done.
Qed.

Lemma descendant_same_heap w1 w n d :
  heap w1 = heap w → descendant w n d → descendant w1 n d.
Proof.
  intros Hh. assert (Ht : ∀ q x, tracks w q x → tracks w1 q x).
  { intros q x (oq & cs & Hq & Hcs & Hx). exists oq, cs. by rewrite Hh. }
  induction 1; [apply desc_child|eapply desc_step]; eauto.
Qed.

Lemma tracks_same_heap w1 w q x :
  heap w1 = heap w → tracks w1 q x ↔ tracks w q x.
Proof. intros Hh. unfold tracks. by rewrite Hh. Qed.

(** The expiry callback of a pending timeout. *)
Lemma timerCallback_outcome t w :
  reachable w → t ∈ timers w →
  error (ctxRef (target t)) w = None ∧
  error (ctxRef (target t)) (exec (ActTimer (handle t)) w)
    = Some deadlineExceededErr ∧
  (∀ d, descendant w (target t) d →
     error (ctxRef d) (exec (ActTimer (handle t)) w) = Some deadlineExceededErr) ∧
  (∀ q, ¬ tracks (exec (ActTimer (handle t)) w) q (target t)) ∧
  (∀ t', t' ∈ timers (exec (ActTimer (handle t)) w) →
     t' ∈ timers w ∧ target t' ≠ target t).
Proof.
  intros Hw Ht. apply reachable_wf in Hw. simpl.
  destruct (head _) as [t0|] eqn:Hhd.
  2:{ apply head_None in Hhd.
      assert (t ∈ filter (λ x, handle x = handle t) (timers w)) as Hin
        by (by apply list_elem_of_filter).
      rewrite Hhd in Hin. by apply elem_of_nil in Hin. }
  apply head_Some_elem_of, list_elem_of_filter in Hhd as [Hh0 Ht0].
  assert (Htg : target t0 = target t).
  { eapply (wf_unique _ Hw); [by apply (wf_timers _ Hw)|].
    rewrite Hh0. by apply (wf_timers _ Hw). }
  set (w1 := set_timers _ w).
  assert (W1 : wf w1) by (by apply remove_timers_wf).
  destruct (timerOf_Some _ _ _ (wf_timers _ Hw _ Ht)) as (o & Ho & Hto).
  assert (He : err o = None).
  { destruct (err o) eqn:He; [|done].
    rewrite (wf_timer _ Hw _ _ Ho) in Hto; [done|]. by rewrite He. }
  destruct (cancel_live_outcome (target t) deadlineExceededErr w1 o W1 Ho He)
    as (w' & tr & Hr & _ & Herr & Hdesc & Htr & Htim).
  unfold timerCallback. rewrite Htg, Hr. simpl.
  split; [by rewrite Ho|]. split; [done|]. split; [|split].
  - intros d Hd. apply Hdesc. by apply (descendant_same_heap w1 w).
  - intros q Hq. apply Htr in Hq as [_ Hne]. done.
  - intros t' Ht'. apply Htim in Ht' as [Hin Hne]. split; [|done].
    simpl in Hin. by apply list_elem_of_filter in Hin as [_ Hin].
Qed.

(** X6: a pending timeout targets a live node; when it expires the node and
    all its tracked descendants are settled with [deadlineExceededErr], the
    node is in no children set any more, and no timeout for it is left. *)
Theorem timer_expiry t w :
  reachable w → t ∈ timers w →
  error (ctxRef (target t)) w = None ∧
  error (ctxRef (target t)) (exec (ActTimer (handle t)) w)
    = Some deadlineExceededErr ∧
  (∀ d, descendant w (target t) d →
     error (ctxRef d) (exec (ActTimer (handle t)) w) = Some deadlineExceededErr) ∧
  (∀ q, ¬ tracks (exec (ActTimer (handle t)) w) q (target t)) ∧
  (∀ t', t' ∈ timers (exec (ActTimer (handle t)) w) →
     t' ∈ timers w ∧ target t' ≠ target t).
Proof. apply timerCallback_outcome. Qed.

(** The race continuation when the parent's promise won. *)
Lemma raceCallback_outcome i p c e w :
  reachable w → races w !! i = Some (p, c) → error p w = Some e →
  races (exec (ActRace i true) w) = delete i (races w) ∧
  error (ctxRef c) (exec (ActRace i true) w) ≠ None ∧
  (error (ctxRef c) w = None →
     error (ctxRef c) (exec (ActRace i true) w) = Some e ∧
     ∀ d, descendant w c d →
       error (ctxRef d) (exec (ActRace i true) w) = Some e).
Proof.
  intros Hw Hr He. apply reachable_wf in Hw. simpl. rewrite Hr.
  set (w1 := set_races _ w).
  assert (W1 : wf w1) by (by apply remove_race_wf).
  destruct (wf_races _ Hw p c) as (Hp & oc & Hc & Hcp).
  { apply list_elem_of_lookup. eauto. }
  assert (He1 : error p w1 = Some e) by (by destruct p).
  unfold raceCallback. rewrite He1.
  destruct (call_cancel_spec c false e w1 oc W1 Hc) as (V & w' & tr & Hr' & E & SV & _).
  rewrite Hr'. simpl in *.
  split; [by rewrite (eff_races _ _ _ _ _ _ _ E)|].
  rewrite (eff_heap _ _ _ _ _ _ _ E _ _ Hc), err_upd. rewrite Hc.
  split.
  - destruct (decide _) as [|Hn]; [done|]. intros Hnone. apply Hn.
    apply (cs_roots _ _ _ SV); [by left|by exists oc].
  - intros Hlive.
    assert (Hn : c ∈ V).
    { apply (cs_roots _ _ _ SV); [by left|by exists oc]. }
    rewrite decide_True by done. split; [done|].
    intros d Hd.
    assert (d ∈ V) as Hd'.
    { eapply descendant_in_cascade; [done..|]. by apply (descendant_same_heap w1 w). }
    destruct (cs_live _ _ _ SV _ Hd') as (od & Hod & _).
    rewrite (eff_heap _ _ _ _ _ _ _ E _ _ Hod), err_upd. by rewrite decide_True.
Qed.

(** X11: the continuation of a registered [Promise.race], run with the
    parent's promise as the winner while the parent reports an error, leaves
    the child settled; a child that was still live gets the parent's error,
    and so do its tracked descendants. *)
Theorem race_parent_wins i p c e w :
  reachable w → races w !! i = Some (p, c) → error p w = Some e →
  races (exec (ActRace i true) w) = delete i (races w) ∧
  error (ctxRef c) (exec (ActRace i true) w) ≠ None ∧
  (error (ctxRef c) w = None →
     error (ctxRef c) (exec (ActRace i true) w) = Some e ∧
     ∀ d, descendant w c d →
       error (ctxRef d) (exec (ActRace i true) w) = Some e).
Proof. apply raceCallback_outcome. Qed.

(** X12: when the parent's promise wins the race but the parent's [error()]
    is null, the continuation calls [cancel] without an error and throws;
    the child is left as it was, as it is when the child's own promise
    wins. *)
Theorem race_without_error i p c w :
  reachable w → races w !! i = Some (p, c) → error p w = None →
  raceCallback p c true w = Threw MissingCancelError w [EvCancel c false None] ∧
  exec (ActRace i true) w = set_races (delete i) w ∧
  exec (ActRace i false) w = set_races (delete i) w.
Proof.
  intros Hw Hr He. apply reachable_wf in Hw.
  destruct (wf_races _ Hw p c) as (Hp & oc & Hc & Hcp).
  { apply list_elem_of_lookup. eauto. }
  split; [|split].
  - unfold raceCallback, call_cancel. rewrite He. by eapply cancel_None.
  - simpl. rewrite Hr. unfold raceCallback, call_cancel.
    assert (error p (set_races (delete i) w) = None) as -> by (by destruct p).
    by rewrite (cancel_None _ _ _ _ oc).
  - simpl. by rewrite Hr.
Qed.

(** ** Elementary changes of a world *)

Lemma steps_one w w' : wf w → link_step w w' → steps w w'.
Proof. intros. eapply steps_cons; [done..|apply steps_nil]. Qed.

Lemma steps_trans w1 w2 w3 : steps w1 w2 → steps w2 w3 → steps w1 w3.
Proof. induction 1; [done|]. intros. eapply steps_cons; eauto. Qed.

Lemma steps_invariant (J : World → Prop) w w' :
  (∀ w w', wf w → link_step w w' → J w → J w') →
  steps w w' → J w → J w'.
Proof. intros HJ. induction 1; eauto. Qed.

Lemma done_steps c w pr w1 tr :
  done c w = Returned pr w1 tr → wf w → steps w w1.
Proof.
  intros Hd W. destruct c as [|i|k]; simpl in Hd.
  - unfold ret in Hd. simplify_eq. apply steps_nil.
  - unfold CancelCtx_done in Hd. destruct (heap w !! i) as [o|] eqn:Ho.
    2:{ unfold bind, getObj in Hd. by rewrite Ho in Hd. }
    rewrite (bind_getObj _ _ _ _ Ho) in Hd.
    destruct (_done o) as [x|] eqn:Hx.
    + unfold ret in Hd. simplify_eq. apply steps_nil.
    + rewrite (bind_modObj _ _ _ _ _ Ho) in Hd. unfold ret in Hd.
      injection Hd as _ <- _. apply steps_one; [done|]. by apply ls_done.
  - destruct (foreign w !! k); [|done]. simplify_eq. apply steps_nil.
Qed.

Lemma cleared_none V w : (∀ i, i ∈ V → timerOf w i = None) → cleared V w = [].
Proof.
  unfold cleared. induction V as [|i V IH]; [done|]. intros H. csimpl.
  rewrite H by (by left). apply IH. intros j Hj. apply H. by right.
Qed.

Lemma done_only_error w w' j :
  done_only w w' → error (ctxRef j) w' = error (ctxRef j) w.
Proof.
  intros D. simpl. destruct (heap w !! j) as [o|] eqn:Ho.
  - destruct (do_heap _ _ D _ _ Ho) as (d & ->). done.
  - apply lookup_ge_None in Ho. rewrite <- (do_length _ _ D) in Ho.
    apply lookup_ge_None in Ho. by rewrite Ho.
Qed.

Lemma effect_error_out V e b p c w w' j :
  effect V e b p c w w' → j ∉ V → error (ctxRef j) w' = error (ctxRef j) w.
Proof.
  intros E Hj. simpl. destruct (heap w !! j) as [o|] eqn:Ho.
  - rewrite (eff_heap _ _ _ _ _ _ _ E _ _ Ho), err_upd. by rewrite decide_False.
  - by rewrite (effect_lookup_None E).
Qed.

Lemma descendant_first w n d : descendant w n d → ∃ x, tracks w n x.
Proof. induction 1; eauto. Qed.

Lemma propagateCancel_steps p c w oc :
  wf w → valid_ctx p w = true →
  heap w !! c = Some oc → parent oc = p → err oc = None →
  timer_of oc = None → children oc = None →
  (∀ q, ¬ tracks w q c) →
  ∃ w2 tr,
    propagateCancel p c w = Returned tt w2 tr ∧
    steps w w2 ∧ wf w2 ∧ link_outcome p c w w2.
Proof.
  intros W Hv Hc Hcp Hcl Hct Hcc Hun.
  destruct (propagateCancel_spec p c w oc W Hv Hc Hcp Hcl Hun)
    as (w2 & tr & Hr & W2 & _ & _ & Hnext & _ & _).
  exists w2, tr. split; [done|]. split; [|split; [done|]];
    revert Hr; unfold propagateCancel;
    destruct (done_spec p w W Hv) as (pr & w1 & Hd & W1 & D & Hpr);
    pose proof (done_steps _ _ _ _ _ Hd W) as S1;
    erewrite bind_eq by exact Hd; rewrite pre_nil;
    destruct (do_heap _ _ D _ _ Hc) as (dc & Hc1).
  - (* the steps *)
    destruct p as [|i|k]; simpl in *.
    + unfold ret in Hd. simplify_eq. simpl. unfold ret. intros ?. simplify_eq.
      apply steps_nil.
    + rewrite (Hpr _ eq_refl). apply bool_decide_eq_true in Hv.
      destruct (lookup_lt_is_Some_2 _ _ Hv) as [po Hpo].
      destruct (do_heap _ _ D _ _ Hpo) as (dp & Hp1).
      rewrite (bind_getObj _ _ _ _ Hp1). simpl.
      destruct (err po) as [e|] eqn:Hpe.
      * destruct (call_cancel_wf c false e w1 _ W1 Hc1)
          as (V & w3 & tr3 & Hr3 & E & SV & _ & _ & W3).
        { right. intros q Hq. apply (done_only_tracks D) in Hq. by eapply Hun. }
        rewrite Hr3. intros ?. simplify_eq.
        eapply steps_trans; [done|]. apply steps_one; [done|].
        eapply (ls_cancel _ c false e); [done| |done..].
        right. intros q Hq. apply (done_only_tracks D) in Hq. by eapply Hun.
      * unfold modObj. rewrite Hp1. intros ?. simplify_eq.
        eapply steps_trans; [done|]. apply steps_one; [done|].
        exact (ls_register w1 i (with_done dp po) c (with_done dc oc)
                 Hp1 Hpe Hc1 Hcp Hcl).
    + apply bool_decide_eq_true in Hv.
      destruct (lookup_lt_is_Some_2 _ _ Hv) as [f Hf]. rewrite Hf in Hd.
      simplify_eq. destruct (is_blockForever (f_done f)).
      * unfold ret. intros ?. simplify_eq. apply steps_nil.
      * unfold bind at 1. rewrite Hf. simpl.
        destruct (done_spec (ctxRef c) w1 W1) as (pr & w3 & Hd3 & W3 & D3 & _).
        { simpl. apply bool_decide_eq_true. by eapply lookup_lt_Some. }
        pose proof (done_steps _ _ _ _ _ Hd3 W1) as S3.
        simpl in Hd3. erewrite bind_eq by exact Hd3. simpl.
        destruct (do_heap _ _ D3 _ _ Hc) as (dc3 & Hc3).
        intros ?. simplify_eq.
        eapply steps_trans; [done|]. apply steps_one; [done|].
        by eapply ls_race.
  - (* the outcome *)
    unfold link_outcome.
    destruct p as [|i|k]; simpl in *.
    + unfold ret in Hd. simplify_eq. simpl. unfold ret. intros ?. by simplify_eq.
    + rewrite (Hpr _ eq_refl). apply bool_decide_eq_true in Hv.
      destruct (lookup_lt_is_Some_2 _ _ Hv) as [po Hpo].
      destruct (do_heap _ _ D _ _ Hpo) as (dp & Hp1).
      rewrite (bind_getObj _ _ _ _ Hp1), Hpo. simpl.
      destruct (err po) as [e|] eqn:Hpe.
      * destruct (call_cancel_wf c false e w1 _ W1 Hc1)
          as (V & w3 & tr3 & Hr3 & E & SV & _ & _ & W3).
        { right. intros q Hq. apply (done_only_tracks D) in Hq. by eapply Hun. }
        rewrite Hr3. intros ?. simplify_eq. simpl in E.
        assert (HV : ∀ j, j ∈ V → j = c).
        { intros j Hj.
          destruct (cascade_in_subtree c V w1 W1 SV j Hj) as [?|Hdesc]; [done|].
          apply descendant_first in Hdesc as (x & ox & cs & Hox & Hcs & _).
          rewrite Hc1 in Hox. simplify_eq. simpl in Hcs. congruence. }
        assert (Hcl0 : cleared V w1 = []).
        { apply cleared_none. intros j ->%HV.
          by rewrite (timerOf_lookup _ _ _ Hc1). }
        split.
        { rewrite (eff_timers _ _ _ _ _ _ _ E), Hcl0, <- (do_timers _ _ D).
          apply filter_all_nil. }
        split; [by rewrite (eff_next _ _ _ _ _ _ _ E), (do_next _ _ D)|].
        split; [by rewrite (eff_foreign _ _ _ _ _ _ _ E), (do_foreign _ _ D)|].
        split.
        { intros j Hj. transitivity (error (ctxRef j) w1).
          - apply (effect_error_out _ _ _ _ _ _ _ _ E). intros ?%HV. done.
          - apply (done_only_error _ _ j D). }
        split; [|split].
        -- rewrite (eff_heap _ _ _ _ _ _ _ E _ _ Hc1), err_upd.
           rewrite decide_True; [done|]. apply (cs_roots _ _ _ SV); [by left|].
           by eexists.
        -- by rewrite (eff_races _ _ _ _ _ _ _ E), (do_races _ _ D).
        -- intros q d. rewrite (effect_tracks _ _ _ _ _ _ q d E).
           apply (done_only_tracks D).
      * unfold modObj. rewrite Hp1. intros ?. simplify_eq. simpl.
        split; [by rewrite (do_timers _ _ D)|].
        split; [by rewrite (do_next _ _ D)|].
        split; [by rewrite (do_foreign _ _ D)|].
        assert (Hne : c ≠ i).
        { intros ->. pose proof (wf_parent _ W _ _ _ Hc Hcp). lia. }
        split.
        { intros j Hj. transitivity (error (ctxRef j) w1).
          - simpl. rewrite list_lookup_insert.
            destruct (decide (i = j ∧ i < length (heap w1))) as [[-> _]|]; [|done].
            by rewrite Hp1.
          - apply (done_only_error _ _ j D). }
        split; [|split].
        -- rewrite list_lookup_insert_ne by done. by rewrite Hc1.
        -- by rewrite (do_races _ _ D).
        -- intros q d.
           pose proof (register_tracks i c (with_done dp po) w1 Hp1 q d) as Ht.
           unfold register in Ht. simpl in Ht. rewrite Ht.
           by rewrite (done_only_tracks D).
    + apply bool_decide_eq_true in Hv.
      destruct (lookup_lt_is_Some_2 _ _ Hv) as [f Hf]. rewrite Hf in Hd.
      simplify_eq. rewrite Hf. destruct (is_blockForever (f_done f)).
      * unfold ret. intros ?. by simplify_eq.
      * unfold bind at 1. rewrite Hf. simpl.
        destruct (done_spec (ctxRef c) w1 W1) as (pr & w3 & Hd3 & W3 & D3 & _).
        { simpl. apply bool_decide_eq_true. by eapply lookup_lt_Some. }
        simpl in Hd3. erewrite bind_eq by exact Hd3. simpl.
        destruct (do_heap _ _ D3 _ _ Hc) as (dc3 & Hc3).
        intros ?. simplify_eq. simpl.
        split; [by rewrite (do_timers _ _ D3)|].
        split; [by rewrite (do_next _ _ D3)|].
        split; [by rewrite (do_foreign _ _ D3)|].
        split; [intros j _; apply (done_only_error _ _ j D3)|].
        split; [by rewrite Hc3|]. split; [by rewrite (do_races _ _ D3)|].
        intros q d. etrans; [by apply (tracks_same_heap _ w3)|].
        apply (done_only_tracks D3).
Qed.

(** ** The shape of an action *)

Lemma link_steps p tm w :
  wf w → valid_ctx p w = true → (∀ t, tm = Some t → timer t = None) →
  ∃ w2 tr o2,
    propagateCancel p (length (heap w)) (alloc p tm w) = Returned tt w2 tr ∧
    steps (alloc p tm w) w2 ∧ wf w2 ∧
    link_outcome p (length (heap w)) (alloc p tm w) w2 ∧
    length (heap w2) = S (length (heap w)) ∧
    heap w2 !! length (heap w) = Some o2 ∧
    parent o2 = p ∧ asTimer o2 = tm.
Proof.
  intros W Hv Htm.
  destruct (link_spec p tm w W Hv Htm)
    as (w2 & tr & o2 & Hr & W2 & _ & Hl & _ & _ & Ho2 & Hp2 & Hd2 & Ht2 & _).
  destruct (propagateCancel_steps p (length (heap w)) (alloc p tm w) (fresh p tm))
    as (w2' & tr' & Hr' & S & _ & Out); try done.
  { by apply alloc_wf. }
  { eapply valid_ctx_mono; [| |done]; [rewrite alloc_length; lia|done]. }
  { apply alloc_lookup_new. }
  { unfold timer_of. simpl. destruct tm as [t|]; [by apply Htm|done]. }
  { intros q. by apply alloc_untracked. }
  rewrite Hr in Hr'. injection Hr' as <- <-.
  exists w2, tr, o2. do 6 (split; [done|]). split; [done|].
  unfold deadline_of, timer_of in *. simpl in *.
  destruct (asTimer o2) as [[d2 t2]|], tm as [[d t]|]; simpl in *; try done.
  pose proof (Htm _ eq_refl) as Ht. simpl in Ht. congruence.
Qed.

Lemma withCancel_outcome p w :
  wf w → valid_ctx p w = true →
  ∃ w' tr o',
    withCancel p w
      = Returned (ctxRef (length (heap w)), cancelFunc (length (heap w))) w' tr ∧
    steps (alloc p None w) w' ∧ wf w' ∧
    link_outcome p (length (heap w)) (alloc p None w) w' ∧
    length (heap w') = S (length (heap w)) ∧
    heap w' !! length (heap w) = Some o' ∧
    parent o' = p ∧ asTimer o' = None.
Proof.
  intros W Hv.
  destruct (link_steps p None w W Hv) as (w2 & tr & o2 & Hr & Hrest); [done|].
  exists w2, tr, o2. split; [|done].
  unfold withCancel. erewrite bind_eq by apply new_CancelCtx_eq.
  rewrite pre_nil. erewrite bind_eq by exact Hr. simpl. by rewrite app_nil_r.
Qed.

Lemma withDeadline_outcome p dl now w :
  wf w → valid_ctx p w = true →
  (∀ pd, deadline p w = Some pd → number_lt (getTime pd) (getTime dl) = false) →
  ∃ w2 w' tr o2,
    withDeadline p dl now w
      = Returned (ctxRef (length (heap w)), cancelFunc (length (heap w))) w' tr ∧
    steps (alloc p (Some (mkTimerCtx dl None)) w) w2 ∧ wf w2 ∧
    link_outcome p (length (heap w)) (alloc p (Some (mkTimerCtx dl None)) w) w2 ∧
    length (heap w2) = S (length (heap w)) ∧
    heap w2 !! length (heap w) = Some o2 ∧
    parent o2 = p ∧ asTimer o2 = Some (mkTimerCtx dl None) ∧
    deadline_tail (length (heap w)) dl now o2 w2 w' ∧ wf w'.
Proof.
  intros W Hv Hnd. unfold withDeadline.
  assert (match deadline p w with
          | Some pd => number_lt (getTime pd) (getTime dl)
          | None => false
          end = false) as ->.
  { destruct (deadline p w) as [pd|]; [|done]. by apply Hnd. }
  destruct (link_steps p (Some (mkTimerCtx dl None)) w W Hv)
    as (w2 & tr & o2 & Hr & S & W2 & Out & Hl & Ho2 & Hp2 & Hk2).
  { intros t ?. by simplify_eq. }
  erewrite bind_eq by apply new_TimerCtx_eq.
  rewrite pre_nil. erewrite bind_eq by exact Hr.
  destruct (number_le _ _) eqn:Hd.
  - destruct (call_cancel_wf (length (heap w)) true deadlineExceededErr w2 o2 W2 Ho2)
      as (V & w3 & tr3 & Hr3 & E & SV & _ & _ & W3); [by left|].
    erewrite bind_eq by exact Hr3. simpl.
    eexists w2, w3, _, o2. split; [done|]. repeat (split; [done|]).
    split; [|done]. by eapply dt_passed.
  - rewrite (bind_getObj _ _ _ _ Ho2).
    destruct (err o2) as [x|] eqn:He.
    + rewrite bind_ret. simpl. rewrite app_nil_r.
      eexists w2, w2, _, o2. split; [done|]. repeat (split; [done|]).
      split; [|done]. apply dt_settled; [done| |done]. by rewrite He.
    + erewrite bind_eq by (apply arm_eq; exact Ho2). simpl. rewrite app_nil_r.
      eexists w2, _, _, o2. split; [done|]. repeat (split; [done|]).
      split; [apply dt_armed; [done|done..]|].
      apply arm_wf; first [done | unfold timer_of; by rewrite Hk2].
Qed.

(** The expiry callback, seen from the world in which the timer was still
    pending. *)
Lemma timer_fire_step t w :
  wf w → t ∈ timers w →
  link_step w (exec (ActTimer (handle t)) w).
Proof.
  intros W Ht. simpl.
  destruct (head _) as [t0|] eqn:Hhd.
  2:{ apply head_None in Hhd.
      assert (t ∈ filter (λ x, handle x = handle t) (timers w)) as Hin
        by (by apply list_elem_of_filter).
      rewrite Hhd in Hin. by apply elem_of_nil in Hin. }
  apply head_Some_elem_of, list_elem_of_filter in Hhd as [Hh0 Ht0].
  assert (Htg : target t0 = target t).
  { eapply (wf_unique _ W); [by apply (wf_timers _ W)|].
    rewrite Hh0. by apply (wf_timers _ W). }
  set (w1 := set_timers _ w).
  assert (W1 : wf w1) by (by apply remove_timers_wf).
  destruct (timerOf_Some _ _ _ (wf_timers _ W _ Ht)) as (o & Ho & Hto).
  assert (He : err o = None).
  { destruct (err o) eqn:He; [|done].
    rewrite (wf_timer _ W _ _ Ho) in Hto; [done|]. by rewrite He. }
  destruct (call_cancel_wf (target t) true deadlineExceededErr w1 o W1 Ho)
    as (V & w' & tr & Hr & E & SV & _ & _ & W'); [by left|].
  unfold timerCallback. rewrite Htg, Hr. simpl.
  assert (Hn : target t ∈ V).
  { apply (cs_roots _ _ _ SV); [by left|by exists o]. }
  eapply (ls_cancel w (target t) true deadlineExceededErr o V); [done|by left| |].
  - destruct E as [E1 E2 E3 E4 E5 E6]. split; try done.
    rewrite E3. unfold w1. simpl. rewrite list_filter_filter.
    apply list_filter_iff. intros x. split; [by intros [? _]|].
    intros Hx. split; [done|]. intros Hhx. apply Hx.
    apply list_elem_of_omap. exists (target t). split; [done|].
    rewrite Hhx. by apply (wf_timers _ W).
  - by destruct SV.
Qed.

Lemma degrade_dec p dl w :
  (∃ pd, deadline p w = Some pd ∧ number_lt (getTime pd) (getTime dl) = true) ∨
  (∀ pd, deadline p w = Some pd → number_lt (getTime pd) (getTime dl) = false).
Proof.
  destruct (deadline p w) as [pd|]; [|by right].
  destruct (number_lt (getTime pd) (getTime dl)) eqn:Hlt; [left; eauto|right].
  intros ? ?. by simplify_eq.
Qed.

Lemma exec_shape a w :
  wf w → enabled a w = true → shape w (exec a w).
Proof.
  intros W Hen.
  assert (Hnil : shape w w) by (by eapply sh_steps; [..|apply steps_nil]).
  destruct a as [p|p dl now|p t now now'|c|c|h|i b|f|k f]; simpl in Hen.
  - destruct (withCancel_outcome p w W Hen) as (w' & tr & o' & Hr & S & _).
    simpl. rewrite Hr. simpl. by eapply sh_plain.
  - destruct (degrade_dec p dl w) as [(pd & Hpd & Hlt)|Hnd].
    + simpl. unfold withDeadline. rewrite Hpd, Hlt.
      destruct (withCancel_outcome p w W Hen) as (w' & tr & o' & Hr & S & _).
      rewrite Hr. simpl. by eapply sh_plain.
    + destruct (withDeadline_outcome p dl now w W Hen)
        as (w2 & w' & tr & o2 & Hr & S & W2 & _ & _ & Ho2 & _ & Hk & T & _).
      { done. }
      simpl. rewrite Hr. simpl. by eapply sh_timer.
  - simpl. unfold withTimeout.
    destruct (degrade_dec p (new_Date (number_add (Num now) t)) w)
      as [(pd & Hpd & Hlt)|Hnd].
    + unfold withDeadline. rewrite Hpd, Hlt.
      destruct (withCancel_outcome p w W Hen) as (w' & tr & o' & Hr & S & _).
      rewrite Hr. simpl. by eapply sh_plain.
    + destruct (withDeadline_outcome p (new_Date (number_add (Num now) t)) now' w W Hen)
        as (w2 & w' & tr & o2 & Hr & S & W2 & _ & _ & Ho2 & _ & Hk & T & _).
      { done. }
      rewrite Hr. simpl. by eapply sh_timer.
  - simpl. unfold cancelFunc, call_cancel.
    destruct (heap w !! c) as [o|] eqn:Ho.
    + destruct (call_cancel_wf c true cancelledErr w o W Ho)
        as (V & w' & tr & Hr & E & SV & _); [by left|].
      unfold call_cancel in Hr. rewrite Hr. simpl.
      eapply sh_steps; [done..|]. apply steps_one; [done|].
      eapply (ls_cancel w c true); [done|by left|done..].
    + by rewrite cancel_dangling.
  - simpl. destruct (valid_ctx c w) eqn:Hv; [|by rewrite done_dangling].
    destruct (done_spec c w W Hv) as (pr & w' & Hr & _).
    rewrite Hr. simpl. eapply sh_steps; [done..|]. by eapply done_steps.
  - destruct (head (filter (λ t, handle t = h) (timers w))) as [t|] eqn:Hhd.
    + apply head_Some_elem_of, list_elem_of_filter in Hhd as [<- Ht].
      eapply sh_steps; [done..|]. apply steps_one; [done|]. by apply timer_fire_step.
    + simpl. by rewrite Hhd.
  - simpl. destruct (races w !! i) as [[p c]|] eqn:Hr; [|done].
    set (w1 := set_races _ w).
    assert (W1 : wf w1) by (by apply remove_race_wf).
    destruct b; simpl; [|by eapply sh_steps; [..|apply steps_nil]].
    destruct (wf_races _ W p c) as (Hp & oc & Hc & Hcp).
    { apply list_elem_of_lookup. eauto. }
    destruct (error p w1) as [e|] eqn:He.
    + destruct (call_cancel_wf c false e w1 oc W1 Hc)
        as (V & w' & tr & Hr' & E & SV & _).
      { right. intros q Hq. destruct (wf_child _ W1 _ _ Hq) as (x & Hx & Hxp).
        simpl in Hx. simplify_eq. rewrite Hxp in Hp. done. }
      rewrite Hr'. simpl. eapply (sh_steps w _ w1); [done..|].
      apply steps_one; [done|].
      eapply (ls_cancel w1 c false); [done| |done..].
      right. intros q Hq. destruct (wf_child _ W1 _ _ Hq) as (x & Hx & Hxp).
      simpl in Hx. simplify_eq. rewrite Hxp in Hp. done.
    + unfold call_cancel. rewrite (cancel_None _ _ _ _ oc) by done. simpl.
      by eapply sh_steps; [..|apply steps_nil].
  - simpl. eapply sh_steps; [| | |apply steps_nil]; [done..|]. by apply set_foreign_wf.
  - simpl. eapply sh_steps; [| | |apply steps_nil]; [done..|]. by apply set_foreign_wf.
Qed.

(** ** Promises and pending timers *)

Lemma done_upd V e b p c i o :
  _done (upd V e b p c i o)
  = if decide (i ∈ V) then resolved_done (_done o) else _done o.
Proof.
  unfold upd. destruct (decide _), (b && _); try done;
    by destruct o as [? ? ? ? [[]|]].
Qed.

Lemma asTimer_upd_out V e b p c i o :
  i ∉ V → asTimer (upd V e b p c i o) = asTimer o.
Proof. intros Hi. rewrite upd_not_in by done. by destruct (b && _). Qed.

Lemma link_step_signals w w' : link_step w w' → signals_ok w → signals_ok w'.
Proof.
  intros Hs HJ. destruct Hs as [i o Ho Hd|n rfp e o V w' Ho Hrfp E SV
                                |p po c oc Hp Hpl Hc Hcp Hcl|p c oc Hp Hc Hcp].
  - intros n x. rewrite heap_insert_lookup by (by eapply lookup_lt_Some).
    destruct (decide _) as [->|]; [|by apply HJ].
    intros ?. simplify_eq. pose proof (HJ _ _ Ho) as Hok.
    unfold signal_ok in *. simpl. rewrite Hd in Hok.
    destruct (err o); [by destruct Hok|by right].
  - intros j o' Hj. apply (effect_lookup_inv E) in Hj as (x & Hx & ->).
    pose proof (HJ _ _ Hx) as Hok. unfold signal_ok in *.
    rewrite err_upd, done_upd. destruct (decide (j ∈ V)) as [Hin|]; [|done].
    destruct (cs_live _ _ _ SV _ Hin) as (x' & Hx' & He). simplify_eq.
    rewrite He in Hok. destruct Hok as [->| ->]; [by left|by right].
  - intros j o' Hj. apply (register_inv p c po w Hp) in Hj as (x & cs & Hx & ->).
    apply (HJ _ _ Hx).
  - intros j o' Hj. by apply HJ.
Qed.

Lemma alloc_signals p tm w : signals_ok w → signals_ok (alloc p tm w).
Proof.
  intros HJ n o Hn. apply alloc_lookup in Hn as [Hn|[-> ->]]; [by apply HJ|].
  by left.
Qed.

Lemma shape_signals w w' : shape w w' → signals_ok w → signals_ok w'.
Proof.
  intros Hs HJ. destruct Hs as [w1 Hh Ht W1 S|p Hv S|p dl now w2 o2 Hv S W2 Ho2 Hk T].
  - eapply (steps_invariant signals_ok); [|done|].
    + intros ? ? _. apply link_step_signals.
    + intros n o. rewrite Hh. apply HJ.
  - eapply (steps_invariant signals_ok); [|done|by apply alloc_signals].
    intros ? ? _. apply link_step_signals.
  - assert (J2 : signals_ok w2).
    { eapply (steps_invariant signals_ok); [|done|by apply alloc_signals].
      intros ? ? _. apply link_step_signals. }
    destruct T as [V Hd E SV|Hd He ->|Hd He ->]; [|done|].
    + eapply (link_step_signals w2); [|done].
      eapply (ls_cancel w2 _ true); [done|by left|done..].
    + intros n o' Hn. apply (arm_inv _ _ _ _ Ho2) in Hn as (x & h & Hx & -> & _).
      apply (J2 _ _ Hx).
Qed.

Lemma reachable_signals w : reachable w → signals_ok w.
Proof.
  induction 1 as [|a w Hw IH Hen]; [by intros n o|].
  eapply shape_signals; [|done]. apply exec_shape; [by apply reachable_wf|done].
Qed.

(** X3: a call of [done()] on a node returns a promise that is resolved
    exactly when [error()] of the node is non-null; the call does not change
    [error()], and on a settled node it changes nothing. *)
Theorem done_matches_error n w :
  reachable w → n < length (heap w) →
  ∃ p w',
    done (ctxRef n) w = Returned p w' [] ∧
    (is_resolved p = true ↔ error (ctxRef n) w ≠ None) ∧
    error (ctxRef n) w' = error (ctxRef n) w ∧
    (error (ctxRef n) w ≠ None → w' = w).
Proof.
  intros Hw Hn. pose proof (reachable_signals w Hw) as HJ.
  destruct (lookup_lt_is_Some_2 _ _ Hn) as [o Ho].
  pose proof (HJ _ _ Ho) as Hok. unfold signal_ok in Hok.
  simpl. unfold CancelCtx_done. rewrite (bind_getObj _ _ _ _ Ho), Ho.
  destruct (err o) as [x|] eqn:He.
  - destruct Hok as [Hd|Hd]; rewrite Hd; eexists _, w;
      (split; [done|]); simpl; rewrite Ho, He; done.
  - destruct Hok as [Hd|Hd]; rewrite Hd.
    + rewrite (bind_modObj _ _ _ _ _ Ho). eexists _, _. split; [done|].
      simpl. rewrite list_lookup_insert_eq by done. simpl. rewrite He.
      split; [|done]. split; done.
    + eexists _, w. split; [done|]. simpl. rewrite Ho, He. split; [|done].
      split; done.
Qed.

Lemma armed_frame x w w' :
  timers w' = timers w →
  (∀ n o', heap w' !! n = Some o' →
     ∃ o, heap w !! n = Some o ∧ err o = err o' ∧ asTimer o = asTimer o') →
  armed x w → armed x w'.
Proof.
  intros Ht Hh HJ n o' tc Hn He Hk Hx.
  destruct (Hh _ _ Hn) as (o & Ho & Heo & Hko). rewrite Ht.
  eapply HJ; [done| | |done]; congruence.
Qed.

Lemma link_step_armed x w w' : wf w → link_step w w' → armed x w → armed x w'.
Proof.
  intros W Hs HJ. destruct Hs as [i o Ho Hd|n rfp e o V w' Ho Hrfp E SV
                                  |p po c oc Hp Hpl Hc Hcp Hcl|p c oc Hp Hc Hcp].
  - eapply (armed_frame x w); [done| |done]. intros n o'.
    rewrite heap_insert_lookup by (by eapply lookup_lt_Some).
    destruct (decide _) as [->|]; [|by eauto].
    intros ?. simplify_eq. eauto.
  - intros j o' tc Hj He Hk Hx.
    apply (effect_lookup_inv E) in Hj as (oj & Hoj & ->).
    rewrite err_upd in He. destruct (decide (j ∈ V)) as [|Hout]; [done|].
    rewrite asTimer_upd_out in Hk by done.
    destruct (HJ _ _ _ Hoj He Hk Hx) as (t & Ht & Htg & Hh & Hd).
    exists t. split; [|done].
    rewrite (eff_timers _ _ _ _ _ _ _ E). apply list_elem_of_filter. split; [|done].
    intros (i & Hi & Hti)%list_elem_of_omap. apply Hout.
    assert (i = j) as ->; [|done].
    eapply (wf_unique _ W); [done|].
    rewrite (timerOf_lookup _ _ _ Hoj). unfold timer_of. by rewrite Hk.
  - eapply (armed_frame x w); [done| |done]. intros n o' Hn.
    apply (register_inv p c po w Hp) in Hn as (o & cs & Ho & ->). eauto.
  - eapply (armed_frame x w); [done| |done]. eauto.
Qed.

Lemma alloc_armed p tm w :
  armed None w → armed (Some (length (heap w))) (alloc p tm w).
Proof.
  intros HJ n o tc Hn He Hk Hx. apply alloc_lookup in Hn as [Hn|[-> ->]]; [|done].
  by eapply HJ.
Qed.

Lemma alloc_plain_armed p w : armed None w → armed None (alloc p None w).
Proof.
  intros HJ n o tc Hn He Hk Hx. apply alloc_lookup in Hn as [Hn|[-> ->]]; [|done].
  by eapply HJ.
Qed.

Lemma armed_settled c w :
  armed (Some c) w → (∀ o, heap w !! c = Some o → err o ≠ None) → armed None w.
Proof.
  intros HJ Hc n o tc Hn He Hk _. eapply HJ; [done..|].
  intros ?. simplify_eq. by eapply Hc.
Qed.

Lemma shape_armed w w' : wf w → shape w w' → armed None w → armed None w'.
Proof.
  intros W Hs HJ.
  destruct Hs as [w1 Hh Ht W1 S|p Hv S|p dl now w2 o2 Hv S W2 Ho2 Hk T].
  - eapply (steps_invariant (armed None)); [|done|].
    + intros ? ?. apply link_step_armed.
    + eapply (armed_frame None w); [done| |done]. intros n o. rewrite Hh. eauto.
  - eapply (steps_invariant (armed None)); [|done|by apply alloc_plain_armed].
    intros ? ?. apply link_step_armed.
  - assert (J2 : armed (Some (length (heap w))) w2).
    { eapply (steps_invariant (armed _)); [|done|by apply alloc_armed].
      intros ? ?. apply link_step_armed. }
    destruct T as [V Hd E SV|Hd He ->|Hd He ->].
    + eapply armed_settled.
      * eapply (link_step_armed _ w2); [done| |done].
        eapply (ls_cancel w2 _ true); [done|by left|done..].
      * intros o' Ho'. apply (effect_lookup_inv E) in Ho' as (x & Hx & ->).
        simplify_eq. rewrite err_upd. destruct (decide _) as [|Hout]; [done|].
        intros He. apply Hout. apply (cs_roots _ _ _ SV); [by left|by eexists].
    + eapply armed_settled; [done|]. intros o' ?. by simplify_eq.
    + intros n o' tc Hn He' Hk' _.
      rewrite (arm_lookup _ _ _ _ Ho2) in Hn.
      destruct (decide (n = length (heap w))) as [->|Hne].
      * simplify_eq. eexists. split; [|split; [|split]].
        -- simpl. apply elem_of_app. right. by left.
        -- done.
        -- unfold with_timer in Hk'. rewrite Hk in Hk'. simpl in Hk'.
           by simplify_eq.
        -- done.
      * destruct (J2 _ _ _ Hn He' Hk') as (t & Ht & Hrest).
        { intros ?. by simplify_eq. }
        exists t. split; [|done]. simpl. apply elem_of_app. by left.
Qed.

Lemma reachable_armed w : reachable w → armed None w.
Proof.
  induction 1 as [|a w Hw IH Hen]; [by intros n o|].
  pose proof (reachable_wf _ Hw) as W.
  eapply shape_armed; [done| |done]. by apply exec_shape.
Qed.

(** X4: every live timer node holds the handle of a pending timeout that
    targets it, and the delay that timeout was scheduled with is not [<= 0]
    (it is positive, or NaN for an invalid date). *)
Theorem live_timer_is_armed n o tc w :
  reachable w → heap w !! n = Some o → err o = None → asTimer o = Some tc →
  ∃ t, t ∈ timers w ∧ target t = n ∧ timer tc = Some (handle t) ∧
       number_le (delay t) (Num 0) = false.
Proof. intros Hw Ho He Hk. by eapply (reachable_armed w Hw). Qed.

(** ** What linking a child does *)

Lemma error_alloc_old j p tm w :
  j < length (heap w) → error (ctxRef j) (alloc p tm w) = error (ctxRef j) w.
Proof.
  intros Hj. destruct (lookup_lt_is_Some_2 _ _ Hj) as [o Ho].
  unfold error. by rewrite Ho, (alloc_lookup_old p tm w _ _ Ho).
Qed.

Lemma error_alloc_new p tm w :
  error (ctxRef (length (heap w))) (alloc p tm w) = None.
Proof. unfold error. by rewrite (alloc_lookup_new p tm w). Qed.

Section linked.
Context (p : Context) (tm : option TimerCtx) (w w2 : World).
Context (W : wf w) (Hv : valid_ctx p w = true).
Context (Out : link_outcome p (length (heap w)) (alloc p tm w) w2).

Lemma linked_child_error :
  error (ctxRef (length (heap w))) w2 = linked_error p w.
Proof using W Hv Out.
  destruct Out as (_ & _ & _ & _ & Hm). destruct p as [|i|k]; simpl in Hv.
  - subst w2. apply error_alloc_new.
  - apply bool_decide_eq_true in Hv. unfold linked_error.
    rewrite (error_alloc_old i) in Hm by done.
    destruct (error (ctxRef i) w); by destruct Hm.
  - apply bool_decide_eq_true in Hv.
    destruct (lookup_lt_is_Some_2 _ _ Hv) as [f Hf].
    simpl in Hm. rewrite Hf in Hm. destruct (is_blockForever _).
    + subst w2. apply error_alloc_new.
    + by destruct Hm.
Qed.

Lemma linked_tracks q d :
  tracks w2 q d ↔
  tracks w q d ∨ (p = ctxRef q ∧ d = length (heap w) ∧ error p w = None).
Proof using W Hv Out.
  destruct Out as (_ & _ & _ & _ & Hm).
  rewrite <- (alloc_tracks p tm w q d).
  destruct p as [|i|k]; simpl in Hv.
  - subst w2. split; [by left|]. by intros [?|[? _]].
  - apply bool_decide_eq_true in Hv.
    rewrite (error_alloc_old i) in Hm by done.
    destruct (error (ctxRef i) w) as [e|] eqn:He.
    + destruct Hm as (_ & _ & Ht). rewrite Ht. split; [by left|].
      by intros [?|(? & _ & ?)].
    + destruct Hm as (_ & _ & Ht). rewrite Ht. split.
      * intros [?|[-> ->]]; [by left|by right].
      * intros [?|(? & -> & _)]; [by left|right]. by simplify_eq.
  - apply bool_decide_eq_true in Hv.
    destruct (lookup_lt_is_Some_2 _ _ Hv) as [f Hf].
    simpl in Hm. rewrite Hf in Hm. destruct (is_blockForever _).
    + subst w2. split; [by left|]. by intros [?|[? _]].
    + destruct Hm as (_ & _ & Ht). rewrite Ht. split; [by left|].
      by intros [?|[? _]].
Qed.

Lemma linked_other_error j :
  j < length (heap w) → error (ctxRef j) w2 = error (ctxRef j) w.
Proof using Out.
  intros Hj. destruct Out as (_ & _ & _ & He & _).
  rewrite He by lia. by apply error_alloc_old.
Qed.
End linked.

(** X8: a child derived from the background context, or from a foreign
    context whose [done()] is the promise that never resolves, is only
    allocated: [propagateCancel] returns at once, nothing is registered. *)
Theorem unlinked_derivation p w :
  p = backgroundCtx ∨
  (∃ k f, p = foreignRef k ∧ foreign w !! k = Some f ∧ f_done f = blockForever) →
  withCancel p w
  = Returned (ctxRef (length (heap w)), cancelFunc (length (heap w)))
      (alloc p None w) [].
Proof.
  intros [->|(k & f & -> & Hf & Hd)]; [done|].
  unfold withCancel. erewrite bind_eq by apply new_CancelCtx_eq.
  rewrite pre_nil. unfold propagateCancel, bind at 1 2. simpl.
  by rewrite Hf, Hd.
Qed.

(** X9: a child derived from a live cancellable node is live, is added to
    the children set of that node and to no other, and the parent stays
    live; when the cancel closure of the parent is called next, the child is
    settled with [cancelledErr]. *)
Theorem child_of_live_parent p po w :
  reachable w → heap w !! p = Some po → err po = None →
  error (ctxRef (length (heap w))) (exec (ActWithCancel (ctxRef p)) w) = None ∧
  error (ctxRef p) (exec (ActWithCancel (ctxRef p)) w) = None ∧
  (∀ q d, tracks (exec (ActWithCancel (ctxRef p)) w) q d ↔
          tracks w q d ∨ (q = p ∧ d = length (heap w))) ∧
  error (ctxRef (length (heap w)))
    (exec (ActCancelFunc p) (exec (ActWithCancel (ctxRef p)) w))
  = Some cancelledErr.
Proof.
  intros Hw Hp He.
  assert (Hv : valid_ctx (ctxRef p) w = true).
  { simpl. apply bool_decide_eq_true. by eapply lookup_lt_Some. }
  assert (Hw1 : reachable (exec (ActWithCancel (ctxRef p)) w)) by (by apply reach_step).
  pose proof (reachable_wf _ Hw) as W. revert Hw1. simpl.
  destruct (withCancel_outcome (ctxRef p) w W Hv)
    as (w1 & tr & o' & Hr & _ & W1 & Out & Hl & Ho' & _).
  rewrite Hr. simpl. intros Hw1.
  assert (Hperr : error (ctxRef p) w = None) by (simpl; by rewrite Hp).
  assert (H1 : error (ctxRef (length (heap w))) w1 = None).
  { rewrite (linked_child_error _ _ _ _ W Hv Out). done. }
  assert (H2 : error (ctxRef p) w1 = None).
  { rewrite (linked_other_error _ _ _ _ Out); [done|]. by eapply lookup_lt_Some. }
  assert (H3 : ∀ q d, tracks w1 q d ↔ tracks w q d ∨ (q = p ∧ d = length (heap w))).
  { intros q d. rewrite (linked_tracks _ _ _ _ W Hv Out). split.
    - intros [?|(? & ? & _)]; [by left|right]. by simplify_eq.
    - intros [?|[-> ->]]; [by left|by right]. }
  split; [done|]. split; [done|]. split; [done|].
  simpl in H2. destruct (heap w1 !! p) as [po1|] eqn:Hp1; [|
    by apply lookup_ge_None in Hp1; apply lookup_lt_Some in Hp; lia].
  destruct (cancel_cascades p true cancelledErr w1 po1 Hw1 Hp1 H2)
    as (w2 & tr2 & Hr2 & _ & Hdesc & _).
  unfold cancelFunc. rewrite Hr2. simpl.
  apply (Hdesc (length (heap w))). apply desc_child. apply H3. by right.
Qed.

(** X10: a child derived from a foreign context whose [done()] is not the
    promise that never resolves is live when [withCancel] returns, even if
    the parent is settled; the children sets are as they were; one
    [Promise.race] continuation is registered for the child, and when that
    continuation runs next with the parent's promise as the winner, the child
    gets the error the parent reports. *)
Theorem child_of_foreign_parent k f w :
  reachable w → foreign w !! k = Some f → is_blockForever (f_done f) = false →
  error (ctxRef (length (heap w))) (exec (ActWithCancel (foreignRef k)) w) = None ∧
  races (exec (ActWithCancel (foreignRef k)) w)
    = races w ++ [(foreignRef k, length (heap w))] ∧
  (∀ q d, tracks (exec (ActWithCancel (foreignRef k)) w) q d ↔ tracks w q d) ∧
  (∀ e, f_error f = Some e →
     error (ctxRef (length (heap w)))
       (exec (ActRace (length (races w)) true)
          (exec (ActWithCancel (foreignRef k)) w)) = Some e).
Proof.
  intros Hw Hf Hb.
  assert (Hv : valid_ctx (foreignRef k) w = true).
  { simpl. apply bool_decide_eq_true. by eapply lookup_lt_Some. }
  assert (Hw1 : reachable (exec (ActWithCancel (foreignRef k)) w)) by (by apply reach_step).
  pose proof (reachable_wf _ Hw) as W. revert Hw1. simpl.
  destruct (withCancel_outcome (foreignRef k) w W Hv)
    as (w1 & tr & o' & Hr & _ & W1 & Out & Hl & Ho' & _).
  rewrite Hr. simpl. intros Hw1.
  assert (H1 : error (ctxRef (length (heap w))) w1 = None).
  { rewrite (linked_child_error _ _ _ _ W Hv Out). done. }
  assert (H3 : ∀ q d, tracks w1 q d ↔ tracks w q d).
  { intros q d. rewrite (linked_tracks _ _ _ _ W Hv Out). split; [|by left].
    by intros [?|(? & _)]. }
  destruct Out as (_ & _ & Hfor & _ & Hm). simpl in Hm. rewrite Hf, Hb in Hm.
  destruct Hm as (_ & Hraces & _). simpl in Hraces.
  split; [done|]. split; [done|]. split; [done|].
  intros e He.
  assert (Hri : races w1 !! length (races w) = Some (foreignRef k, length (heap w))).
  { rewrite Hraces. by apply list_lookup_middle. }
  assert (Hpe : error (foreignRef k) w1 = Some e).
  { simpl. simpl in Hfor. by rewrite Hfor, Hf. }
  destruct (raceCallback_outcome _ _ _ e w1 Hw1 Hri Hpe) as (_ & _ & Hc).
  by destruct (Hc H1).
Qed.

(** ** What [withDeadline] and [withTimeout] do *)

Lemma fresh_untracked q c w : wf w → length (heap w) ≤ c → ¬ tracks w q c.
Proof.
  intros W Hc Ht. destruct (wf_child _ W _ _ Ht) as (x & Hx & _).
  apply lookup_lt_Some in Hx. lia.
Qed.

Lemma last_childless c d w : wf w → length (heap w) = S c → ¬ tracks w c d.
Proof.
  intros W Hl Ht. destruct (wf_child _ W _ _ Ht) as (x & Hx & Hp).
  pose proof (wf_parent _ W _ _ _ Hx Hp). apply lookup_lt_Some in Hx. lia.
Qed.

(** The branch of [withDeadline] for a deadline that has passed. *)
Lemma passed_outcome c dl o2 V w2 w' :
  wf w2 → heap w2 !! c = Some o2 → length (heap w2) = S c →
  asTimer o2 = Some (mkTimerCtx dl None) →
  effect V deadlineExceededErr (true && is_live o2) (parent o2) c w2 w' →
  cascade_set [c] V w2 →
  (err o2 ≠ None → ∀ q, ¬ tracks w2 q c) →
  error (ctxRef c) w' = Some (default deadlineExceededErr (err o2)) ∧
  deadline (ctxRef c) w' = Some dl ∧
  timers w' = timers w2 ∧ nextTimer w' = nextTimer w2 ∧
  (∀ q, ¬ tracks w' q c).
Proof.
  intros W2 Ho2 Hl Hk E SV Hun.
  assert (HV : ∀ j, j ∈ V → j = c).
  { intros j Hj.
    destruct (cascade_in_subtree c V w2 W2 SV j Hj) as [?|Hdesc]; [done|].
    apply descendant_first in Hdesc as (x & Hx). by apply last_childless in Hx. }
  assert (Hcl0 : cleared V w2 = []).
  { apply cleared_none. intros j ->%HV. rewrite (timerOf_lookup _ _ _ Ho2).
    unfold timer_of. by rewrite Hk. }
  pose proof (eff_heap _ _ _ _ _ _ _ E _ _ Ho2) as Ho'.
  split; [|split; [|split; [|split]]].
  - simpl. rewrite Ho', err_upd. destruct (decide (c ∈ V)) as [Hin|Hout].
    + destruct (cs_live _ _ _ SV _ Hin) as (x & Hx & He). simplify_eq.
      rewrite He. reflexivity.
    + destruct (err o2) as [e|] eqn:He; [done|]. destruct Hout.
      apply (cs_roots _ _ _ SV); [by left|by exists o2].
  - simpl. rewrite Ho'.
    pose proof (deadline_of_upd V deadlineExceededErr (true && is_live o2)
                  (parent o2) c c o2) as Hd.
    unfold deadline_of in Hd. rewrite Hk in Hd.
    exact Hd.
  - rewrite (eff_timers _ _ _ _ _ _ _ E), Hcl0. apply filter_all_nil.
  - apply (eff_next _ _ _ _ _ _ _ E).
  - intros q Ht. pose proof (effect_tracks_sub E _ _ Ht) as Ht0.
    destruct (err o2) as [e|] eqn:He.
    + by eapply Hun.
    + destruct (wf_child _ W2 _ _ Ht0) as (x & Hx & Hp). simplify_eq.
      eapply (effect_tracks_removed E q); [|done..].
      unfold is_live. by rewrite He.
Qed.

Section deadline.
Context (p : Context) (dl : Date) (now : Z) (w : World).
Context (Hw : reachable w) (Hv : valid_ctx p w = true).
Context (Hnd : ∀ pd, deadline p w = Some pd →
                number_lt (getTime pd) (getTime dl) = false).

Lemma withDeadline_settles :
  number_le (number_sub (getTime dl) (Num now)) (Num 0) = true ∨
    linked_error p w ≠ None →
  error (ctxRef (length (heap w))) (exec (ActWithDeadline p dl now) w)
    = Some (default deadlineExceededErr (linked_error p w)) ∧
  deadline (ctxRef (length (heap w))) (exec (ActWithDeadline p dl now) w)
    = Some dl ∧
  timers (exec (ActWithDeadline p dl now) w) = timers w ∧
  nextTimer (exec (ActWithDeadline p dl now) w) = nextTimer w ∧
  (∀ q, ¬ tracks (exec (ActWithDeadline p dl now) w) q (length (heap w))).
Proof using All.
  intros Hcase. pose proof (reachable_wf _ Hw) as W.
  change (exec (ActWithDeadline p dl now) w)
    with (final (withDeadline p dl now w) w).
  destruct (withDeadline_outcome p dl now w W Hv Hnd)
    as (w2 & w' & tr & o2 & Hr & _ & W2 & Out & Hl & Ho2 & Hp2 & Hk & T & _).
  rewrite Hr. simpl final.
  pose proof (linked_child_error _ _ _ _ W Hv Out) as Herr.
  simpl in Herr. rewrite Ho2 in Herr.
  assert (Htim : timers w2 = timers w) by (by destruct Out as (-> & _)).
  assert (Hnext : nextTimer w2 = nextTimer w) by (by destruct Out as (_ & -> & _)).
  assert (Hun : err o2 ≠ None → ∀ q, ¬ tracks w2 q (length (heap w))).
  { intros He q Ht. apply (linked_tracks _ _ _ _ W Hv Out) in Ht as [Ht|(Hp & _ & Hn)].
    - exact (fresh_untracked q _ w W (le_n _) Ht).
    - rewrite Hp in Herr, Hn. change (err o2 = error (ctxRef q) w) in Herr.
      congruence. }
  destruct T as [V Hd E SV|Hd He ->|Hd He ->].
  - destruct (passed_outcome _ dl o2 V w2 w' W2 Ho2 Hl Hk E SV Hun)
      as (H1 & H2 & H3 & H4 & H5).
    rewrite H1, H2, H3, H4, Herr, Htim, Hnext. done.
  - rewrite Htim, Hnext. simpl. rewrite Ho2, Hk, <- Herr.
    destruct (err o2) as [e|] eqn:He'; [|done].
    split; [done|]. split; [done|]. split; [done|]. split; [done|].
    apply Hun; first [done | by rewrite He'].
  - destruct Hcase as [Hle|Hne]; [congruence|]. by rewrite <- Herr in Hne.
Qed.

Lemma withDeadline_arms :
  number_le (number_sub (getTime dl) (Num now)) (Num 0) = false →
  linked_error p w = None →
  error (ctxRef (length (heap w))) (exec (ActWithDeadline p dl now) w) = None ∧
  deadline (ctxRef (length (heap w))) (exec (ActWithDeadline p dl now) w)
    = Some dl ∧
  timers (exec (ActWithDeadline p dl now) w)
    = timers w ++ [mkTimeout (nextTimer w) (length (heap w))
                     (number_sub (getTime dl) (Num now))] ∧
  (∀ q, tracks (exec (ActWithDeadline p dl now) w) q (length (heap w)) ↔
        p = ctxRef q) ∧
  error (ctxRef (length (heap w)))
    (exec (ActTimer (nextTimer w)) (exec (ActWithDeadline p dl now) w))
    = Some deadlineExceededErr.
Proof using All.
  intros Hd Hlive. pose proof (reachable_wf _ Hw) as W.
  assert (Hw1 : reachable (exec (ActWithDeadline p dl now) w)) by (by apply reach_step).
  revert Hw1.
  change (exec (ActWithDeadline p dl now) w)
    with (final (withDeadline p dl now w) w).
  destruct (withDeadline_outcome p dl now w W Hv Hnd)
    as (w2 & w' & tr & o2 & Hr & _ & W2 & Out & Hl & Ho2 & Hp2 & Hk & T & _).
  rewrite Hr. simpl final. intros Hw1.
  pose proof (linked_child_error _ _ _ _ W Hv Out) as Herr.
  simpl in Herr. rewrite Ho2, Hlive in Herr.
  assert (Htim : timers w2 = timers w) by (by destruct Out as (-> & _)).
  assert (Hnext : nextTimer w2 = nextTimer w) by (by destruct Out as (_ & -> & _)).
  destruct T as [V Hd' E SV|Hd' He ->|Hd' He ->]; [congruence|done|].
  assert (H3 : timers (arm (length (heap w)) (number_sub (getTime dl) (Num now)) o2 w2)
               = timers w ++ [mkTimeout (nextTimer w) (length (heap w))
                                (number_sub (getTime dl) (Num now))]).
  { simpl. by rewrite Htim, Hnext. }
  split; [|split; [|split; [done|split]]].
  - simpl. rewrite list_lookup_insert_eq by (by eapply lookup_lt_Some). done.
  - simpl. rewrite list_lookup_insert_eq by (by eapply lookup_lt_Some).
    simpl. by rewrite Hk.
  - intros q. rewrite (arm_tracks _ _ _ _ Ho2), (linked_tracks _ _ _ _ W Hv Out).
    split.
    + intros [Ht|(? & _)]; [|done]. destruct (fresh_untracked q _ w W (le_n _) Ht).
    + intros Hp. right. split; [done|]. split; [done|].
      rewrite Hp in Hlive |- *. exact Hlive.
  - assert (Hin : mkTimeout (nextTimer w) (length (heap w))
                    (number_sub (getTime dl) (Num now))
                  ∈ timers (arm (length (heap w))
                              (number_sub (getTime dl) (Num now)) o2 w2)).
    { rewrite H3. apply elem_of_app. right. by left. }
    destruct (timerCallback_outcome _ _ Hw1 Hin) as (_ & Hfire & _). exact Hfire.
Qed.
End deadline.

Lemma not_earlier p d w :
  (∀ pd, deadline p w = Some (date pd) → (d ≤ pd)%Z) →
  ∀ pd, deadline p w = Some pd → number_lt (getTime pd) (getTime (date d)) = false.
Proof.
  intros H [pd|] Hpd; [|done]. simpl. apply bool_decide_eq_false.
  specialize (H _ Hpd). lia.
Qed.

(** X13: when the parent's deadline is not earlier than the requested one,
    and the requested deadline has passed or the parent is a settled node,
    [withDeadline] returns a timer node that is already settled, with the
    parent's error if a settled parent supplied one and with
    [deadlineExceededErr] otherwise; the node reports the requested
    deadline, no timeout is scheduled and no children set holds the node. *)
Theorem withDeadline_without_timer p d now w :
  reachable w → valid_ctx p w = true →
  (∀ pd, deadline p w = Some (date pd) → (d ≤ pd)%Z) →
  (d ≤ now)%Z ∨ linked_error p w ≠ None →
  error (ctxRef (length (heap w))) (exec (ActWithDeadline p (date d) now) w)
    = Some (default deadlineExceededErr (linked_error p w)) ∧
  deadline (ctxRef (length (heap w))) (exec (ActWithDeadline p (date d) now) w)
    = Some (date d) ∧
  timers (exec (ActWithDeadline p (date d) now) w) = timers w ∧
  nextTimer (exec (ActWithDeadline p (date d) now) w) = nextTimer w ∧
  (∀ q, ¬ tracks (exec (ActWithDeadline p (date d) now) w) q (length (heap w))).
Proof.
  intros Hw Hv Hnd Hcase.
  apply (withDeadline_settles p (date d) now w Hw Hv (not_earlier p d w Hnd)).
  destruct Hcase as [Hle|Hne]; [left|by right].
  simpl. apply bool_decide_eq_true. lia.
Qed.

(** X14: when the parent's deadline is not earlier than the requested one,
    the requested deadline lies ahead and no settled parent supplies an
    error, [withDeadline] returns a live timer node that reports the
    requested deadline; exactly one timeout is scheduled, for the node and
    with the remaining time as its delay; the node is in the children set of
    its parent only; and when that timeout expires the node is settled with
    [deadlineExceededErr]. *)
Theorem withDeadline_arms_timer p d now w :
  reachable w → valid_ctx p w = true →
  (∀ pd, deadline p w = Some (date pd) → (d ≤ pd)%Z) →
  (now < d)%Z → linked_error p w = None →
  error (ctxRef (length (heap w))) (exec (ActWithDeadline p (date d) now) w)
    = None ∧
  deadline (ctxRef (length (heap w))) (exec (ActWithDeadline p (date d) now) w)
    = Some (date d) ∧
  timers (exec (ActWithDeadline p (date d) now) w)
    = timers w ++ [mkTimeout (nextTimer w) (length (heap w)) (Num (d - now))] ∧
  (∀ q, tracks (exec (ActWithDeadline p (date d) now) w) q (length (heap w)) ↔
        p = ctxRef q) ∧
  error (ctxRef (length (heap w)))
    (exec (ActTimer (nextTimer w)) (exec (ActWithDeadline p (date d) now) w))
    = Some deadlineExceededErr.
Proof.
  intros Hw Hv Hnd Hlt Hlive.
  apply (withDeadline_arms p (date d) now w Hw Hv (not_earlier p d w Hnd));
    [|done].
  simpl. apply bool_decide_eq_false. lia.
Qed.

(** X15: [withDeadline] on a settled cancellable node returns a node that
    is settled with the parent's error, whatever the requested deadline: no
    timeout is scheduled and no children set holds the node. *)
Theorem withDeadline_settled_parent p po e dl now w :
  reachable w → heap w !! p = Some po → err po = Some e →
  error (ctxRef (length (heap w))) (exec (ActWithDeadline (ctxRef p) dl now) w)
    = Some e ∧
  timers (exec (ActWithDeadline (ctxRef p) dl now) w) = timers w ∧
  nextTimer (exec (ActWithDeadline (ctxRef p) dl now) w) = nextTimer w ∧
  (∀ q, ¬ tracks (exec (ActWithDeadline (ctxRef p) dl now) w) q (length (heap w))).
Proof.
  intros Hw Hp He.
  assert (Hv : valid_ctx (ctxRef p) w = true).
  { simpl. apply bool_decide_eq_true. by eapply lookup_lt_Some. }
  assert (Hle : linked_error (ctxRef p) w = Some e) by (simpl; by rewrite Hp).
  destruct (degrade_dec (ctxRef p) dl w) as [(pd & Hpd & Hlt)|Hnd].
  - pose proof (reachable_wf _ Hw) as W.
    change (exec (ActWithDeadline (ctxRef p) dl now) w)
      with (final (withDeadline (ctxRef p) dl now w) w).
    unfold withDeadline. rewrite Hpd, Hlt.
    destruct (withCancel_outcome (ctxRef p) w W Hv)
      as (w1 & tr & o' & Hr & _ & W1 & Out & Hl & Ho' & _).
    rewrite Hr. simpl final.
    split; [by rewrite (linked_child_error _ _ _ _ W Hv Out)|].
    split; [by destruct Out as (-> & _)|]. split; [by destruct Out as (_ & -> & _)|].
    intros q Ht. apply (linked_tracks _ _ _ _ W Hv Out) in Ht as [Ht|(_ & _ & Hn)].
    + exact (fresh_untracked q _ w W (le_n _) Ht).
    + simpl in Hn. rewrite Hp in Hn. congruence.
  - destruct (withDeadline_settles (ctxRef p) dl now w Hw Hv Hnd)
      as (H1 & _ & H3 & H4 & H5).
    { right. by rewrite Hle. }
    rewrite Hle in H1. done.
Qed.

(** X16: when a live timer node has an earlier deadline than the requested
    one, the node [withDeadline] derives from it has no deadline and no
    timeout of its own; the parent's timeout is pending, and when it expires
    both the parent and the derived node are settled with
    [deadlineExceededErr]. *)
Theorem earlier_parent_deadline_wins p po tc pd d now w :
  reachable w → heap w !! p = Some po → err po = None →
  asTimer po = Some tc → _deadline tc = date pd → (pd < d)%Z →
  deadline (ctxRef (length (heap w)))
    (exec (ActWithDeadline (ctxRef p) (date d) now) w) = None ∧
  timers (exec (ActWithDeadline (ctxRef p) (date d) now) w) = timers w ∧
  ∃ t, t ∈ timers w ∧ target t = p ∧
    error (ctxRef p)
      (exec (ActTimer (handle t))
         (exec (ActWithDeadline (ctxRef p) (date d) now) w))
      = Some deadlineExceededErr ∧
    error (ctxRef (length (heap w)))
      (exec (ActTimer (handle t))
         (exec (ActWithDeadline (ctxRef p) (date d) now) w))
      = Some deadlineExceededErr.
Proof.
  intros Hw Hp He Hk Hpd Hlt.
  assert (Hv : valid_ctx (ctxRef p) w = true).
  { simpl. apply bool_decide_eq_true. by eapply lookup_lt_Some. }
  assert (Hw1 : reachable (exec (ActWithDeadline (ctxRef p) (date d) now) w))
    by (by apply reach_step).
  pose proof (reachable_wf _ Hw) as W.
  destruct (reachable_armed w Hw p po tc Hp He Hk) as (t & Ht & Htg & _); [done|].
  revert Hw1.
  change (exec (ActWithDeadline (ctxRef p) (date d) now) w)
    with (final (withDeadline (ctxRef p) (date d) now w) w).
  unfold withDeadline. simpl deadline. rewrite Hp, Hk, Hpd. simpl getTime.
  unfold number_lt. rewrite bool_decide_eq_true_2 by done.
  destruct (withCancel_outcome (ctxRef p) w W Hv)
    as (w1 & tr & o' & Hr & _ & W1 & Out & Hl & Ho' & _ & Hk').
  rewrite Hr. simpl final. intros Hw1.
  assert (Htim : timers w1 = timers w) by (by destruct Out as (-> & _)).
  split; [simpl; by rewrite Ho', Hk'|]. split; [done|].
  exists t. split; [done|]. split; [done|].
  assert (Ht1 : t ∈ timers w1) by (by rewrite Htim).
  destruct (timerCallback_outcome t w1 Hw1 Ht1) as (_ & Hfire & Hdesc & _).
  rewrite Htg in Hfire, Hdesc. split; [done|].
  apply Hdesc. apply desc_child. apply (linked_tracks _ _ _ _ W Hv Out).
  right. split; [done|]. split; [done|]. simpl. by rewrite Hp.
Qed.

(** X17: when the timeout is such that [new Date(Date.now() + timeout)] is
    an invalid date (the sum is not finite or out of the range of a time
    value), [withTimeout] never falls back to [withCancel], whatever the
    parent's deadline: it returns a live timer node whose [deadline()] is the
    invalid date and schedules a timeout with the delay NaN, at whose expiry
    the node is settled with [deadlineExceededErr]. *)
Theorem withTimeout_invalid_date p timeout now now' w :
  reachable w → valid_ctx p w = true →
  new_Date (number_add (Num now) timeout) = invalidDate →
  linked_error p w = None →
  error (ctxRef (length (heap w))) (exec (ActWithTimeout p timeout now now') w)
    = None ∧
  deadline (ctxRef (length (heap w))) (exec (ActWithTimeout p timeout now now') w)
    = Some invalidDate ∧
  timers (exec (ActWithTimeout p timeout now now') w)
    = timers w ++ [mkTimeout (nextTimer w) (length (heap w)) NaN] ∧
  error (ctxRef (length (heap w)))
    (exec (ActTimer (nextTimer w)) (exec (ActWithTimeout p timeout now now') w))
    = Some deadlineExceededErr.
Proof.
  intros Hw Hv Hdate Hlive.
  change (exec (ActWithTimeout p timeout now now') w)
    with (exec (ActWithDeadline p (new_Date (number_add (Num now) timeout)) now') w).
  rewrite Hdate.
  destruct (withDeadline_arms p invalidDate now' w Hw Hv)
    as (H1 & H2 & H3 & _ & H5); try done.
  intros pd _. by destruct pd.
Qed.



(** ** Errors within a family *)

Lemma effect_error_in V e b p c roots w w' j :
  effect V e b p c w w' → cascade_set roots V w → j ∈ V →
  error (ctxRef j) w' = Some e.
Proof.
  intros E SV Hj. destruct (cs_live _ _ _ SV _ Hj) as (o & Ho & _).
  simpl. rewrite (eff_heap _ _ _ _ _ _ _ E _ _ Ho), err_upd.
  by rewrite decide_True.
Qed.

Lemma live_error w i : live w i ↔ (i < length (heap w) ∧ error (ctxRef i) w = None).
Proof.
  simpl. split.
  - intros (o & Ho & He). rewrite Ho. split; [by eapply lookup_lt_Some|done].
  - intros [Hi He]. destruct (lookup_lt_is_Some_2 _ _ Hi) as [o Ho].
    rewrite Ho in He. by exists o.
Qed.

Lemma cancel_family n rfp e o V w w' :
  wf w → heap w !! n = Some o →
  rfp = true ∨ (∀ q, ¬ tracks w q n) →
  effect V e (rfp && is_live o) (parent o) n w w' →
  cascade_set [n] V w →
  family_ok w → family_ok w'.
Proof.
  intros W Ho Hrfp E SV HJ q d Ht'.
  pose proof (effect_tracks_sub E _ _ Ht') as Ht.
  pose proof (HJ _ _ Ht) as Heq.
  destruct (wf_child _ W _ _ Ht) as (od & Hd & Hdp).
  destruct (decide (q ∈ V)) as [Hq|Hq].
  - rewrite (effect_error_in _ _ _ _ _ _ _ _ _ E SV Hq).
    apply (effect_error_in _ _ _ _ _ _ _ _ d E SV).
    apply (cs_closed _ _ _ SV q d Hq Ht).
    destruct (cs_live _ _ _ SV _ Hq) as (oq & Hoq & Heq').
    exists od. split; [done|]. simpl in Heq. rewrite Hd, Hoq in Heq. congruence.
  - rewrite (effect_error_out _ _ _ _ _ _ _ _ E Hq).
    destruct (decide (d ∈ V)) as [Hdv|Hdv];
      [|by rewrite (effect_error_out _ _ _ _ _ _ _ _ E Hdv)].
    exfalso. destruct (cs_origin _ _ _ SV _ Hdv) as [Hr|(q' & Hq' & Ht2)].
    + apply list_elem_of_singleton in Hr. subst d. simplify_eq.
      destruct Hrfp as [->|Hun]; [|by eapply Hun].
      destruct (cs_live _ _ _ SV _ Hdv) as (x & Hx & Hxe). simplify_eq.
      eapply (effect_tracks_removed E q); [|done|done].
      unfold is_live. by rewrite Hxe.
    + destruct (wf_child _ W _ _ Ht2) as (od' & Hd' & Hdp'). simplify_eq.
      congruence.
Qed.

Lemma family_frame w w' :
  (∀ q d, tracks w' q d → tracks w q d) →
  (∀ q d, tracks w q d →
     error (ctxRef q) w' = error (ctxRef q) w ∧
     error (ctxRef d) w' = error (ctxRef d) w) →
  family_ok w → family_ok w'.
Proof.
  intros Ht He HJ q d Hqd. apply Ht in Hqd.
  destruct (He _ _ Hqd) as [-> ->]. by apply HJ.
Qed.

Lemma link_step_family w w' : wf w → link_step w w' → family_ok w → family_ok w'.
Proof.
  intros W Hs HJ. destruct Hs as [i o Ho Hd|n rfp e o V w' Ho Hrfp E SV
                                  |p po c oc Hp Hpl Hc Hcp Hcl|p c oc Hp Hc Hcp].
  - assert (D : ∀ j, error (ctxRef j)
                  (set_heap (λ h, <[i := with_done (Some (newPromise i false)) o]> h) w)
                = error (ctxRef j) w).
    { intros j. unfold error.
      rewrite heap_insert_lookup by (by eapply lookup_lt_Some).
      destruct (decide (j = i)) as [->|]; [|done]. by rewrite Ho. }
    intros q d (oq & cs & Hq & Hcs & Hin). rewrite !D. apply HJ.
    rewrite heap_insert_lookup in Hq by (by eapply lookup_lt_Some).
    destruct (decide (q = i)) as [->|]; [|by exists oq, cs].
    simplify_eq. by exists o, cs.
  - by eapply cancel_family.
  - assert (D : ∀ j, error (ctxRef j) (register p po c w) = error (ctxRef j) w).
    { intros j. unfold error. rewrite (register_lookup p c po w Hp).
      destruct (decide (j = p)) as [->|]; [|done]. by rewrite Hp. }
    intros q d Ht. rewrite !D.
    apply (register_tracks p c po w Hp) in Ht as [Ht|[-> ->]]; [by apply HJ|].
    simpl. by rewrite Hp, Hc, Hpl, Hcl.
  - intros q d Ht. by apply HJ.
Qed.

Lemma alloc_family p tm w : wf w → family_ok w → family_ok (alloc p tm w).
Proof.
  intros W HJ q d Ht. apply alloc_tracks in Ht.
  destruct (wf_child _ W _ _ Ht) as (od & Hd & _).
  destruct Ht as (oq & cs & Hq & Hrest).
  rewrite !error_alloc_old by (by eapply lookup_lt_Some).
  apply HJ. by exists oq, cs.
Qed.

Lemma shape_family w w' : wf w → shape w w' → family_ok w → family_ok w'.
Proof.
  intros W Hs HJ.
  destruct Hs as [w1 Hh Ht W1 S|p Hv S|p dl now w2 o2 Hv S W2 Ho2 Hk T].
  - eapply (steps_invariant family_ok); [|done|].
    + intros ? ?. apply link_step_family.
    + intros q d (oq & cs & Hq & Hrest). unfold error. rewrite !Hh.
      apply HJ. exists oq, cs. by rewrite <- Hh.
  - eapply (steps_invariant family_ok); [|done|by apply alloc_family].
    intros ? ?. apply link_step_family.
  - assert (J2 : family_ok w2).
    { eapply (steps_invariant family_ok); [|done|by apply alloc_family].
      intros ? ?. apply link_step_family. }
    destruct T as [V Hd E SV|Hd He ->|Hd He ->]; [|done|].
    + eapply (cancel_family _ true); [done|done|by left|done..].
    + intros q d Ht. apply (arm_tracks _ _ _ _ Ho2) in Ht.
      assert (D : ∀ j, error (ctxRef j)
                    (arm (length (heap w))
                       (number_sub (getTime dl) (Num now)) o2 w2)
                  = error (ctxRef j) w2).
      { intros j. unfold error. rewrite (arm_lookup _ _ _ _ Ho2).
        destruct (decide _) as [->|]; [|done]. by rewrite Ho2. }
      rewrite !D. by apply J2.
Qed.

Lemma reachable_family w : reachable w → family_ok w.
Proof.
  induction 1 as [|a w Hw IH Hen]; [by intros p c (o & cs & Ho & _)|].
  pose proof (reachable_wf _ Hw) as W.
  eapply shape_family; [done| |done]. by apply exec_shape.
Qed.

Lemma descendant_error n d w :
  reachable w → descendant w n d → error (ctxRef d) w = error (ctxRef n) w.
Proof.
  intros Hw Hd. pose proof (reachable_family _ Hw) as HJ.
  induction Hd as [c Hc|x c Hx IH Hc]; [by apply HJ|].
  rewrite <- IH. by apply HJ.
Qed.

(** X20: in every reachable world a tracked descendant of a node reports
    the same [error()] as the node: both are live, or both are settled with
    the same error. *)
Theorem subtree_shares_error n d w :
  reachable w → descendant w n d →
  error (ctxRef d) w = error (ctxRef n) w.
Proof. apply descendant_error. Qed.

(** ** Release of timers *)

Lemma pending_target_live t w : wf w → t ∈ timers w → error (ctxRef (target t)) w = None.
Proof.
  intros W Ht. destruct (timerOf_Some _ _ _ (wf_timers _ W _ Ht)) as (o & Ho & Hh).
  simpl. rewrite Ho. destruct (err o) as [e|] eqn:He; [|done].
  rewrite (wf_timer _ W _ _ Ho) in Hh; [done|]. by rewrite He.
Qed.

(** X21: after the cancel closure of a node was called, the node and all
    nodes that were its tracked descendants are settled, and no pending
    timeout targets any of them. *)
Theorem cancel_releases_timers n w :
  reachable w → n < length (heap w) →
  error (ctxRef n) (exec (ActCancelFunc n) w) ≠ None ∧
  (∀ d, descendant w n d → error (ctxRef d) (exec (ActCancelFunc n) w) ≠ None) ∧
  (∀ t, t ∈ timers (exec (ActCancelFunc n) w) →
     target t ≠ n ∧ ¬ descendant w n (target t)).
Proof.
  intros Hw Hn. pose proof (reachable_wf _ Hw) as W.
  assert (Hw' : reachable (exec (ActCancelFunc n) w)) by (by apply reach_step).
  pose proof (reachable_wf _ Hw') as W'.
  destruct (lookup_lt_is_Some_2 _ _ Hn) as [o Ho].
  assert (Hset : error (ctxRef n) (exec (ActCancelFunc n) w) ≠ None ∧
    (∀ d, descendant w n d → error (ctxRef d) (exec (ActCancelFunc n) w) ≠ None)).
  { destruct (err o) as [x|] eqn:He.
    - destruct (exec_spec (ActCancelFunc n) w W eq_refl) as [_ Ev].
      assert (Hx : error (ctxRef n) w = Some x) by (simpl; by rewrite Ho).
      split.
      + by rewrite (evolves_error _ _ _ _ Ev Hx).
      + intros d Hd. rewrite <- (descendant_error n d w Hw Hd) in Hx.
        by rewrite (evolves_error _ _ _ _ Ev Hx).
    - destruct (cancel_live_outcome n cancelledErr w o W Ho He)
        as (w' & tr & Hr & _ & Hen & Hdesc & _).
      change (exec (ActCancelFunc n) w) with (final (cancelFunc n w) w).
      unfold cancelFunc. rewrite Hr. simpl final. split; [by rewrite Hen|].
      intros d Hd. by rewrite (Hdesc d Hd). }
  destruct Hset as [H1 H2]. split; [done|]. split; [done|].
  intros t Ht. pose proof (pending_target_live t _ W' Ht) as Hlive.
  split.
  - intros Heq. by rewrite Heq in Hlive.
  - intros Hd. by apply (H2 _ Hd).
Qed.

(** ** The further properties at the example worlds *)

Lemma reachable_ex_foreign : reachable ex_foreign.
Proof. unfold ex_foreign. reach. Qed.
Lemma reachable_ex_race : reachable ex_race.
Proof. unfold ex_race, ex_foreign. reach. Qed.
Lemma reachable_ex_quiet : reachable ex_quiet.
Proof. unfold ex_quiet. reach. Qed.

Lemma done_is_stable_witness :
  done (ctxRef 0) (final (done (ctxRef 0) ex_family) ex_family)
  = Returned (newPromise 0 false) (final (done (ctxRef 0) ex_family) ex_family) [].
Proof.
  apply (done_is_stable (ctxRef 0) ex_family (newPromise 0 false) _ []).
  reflexivity.
Defined.

Lemma deadline_is_stable_witness :
  deadline (ctxRef 2) ex_cancelled = deadline (ctxRef 2) ex_family ∧
  valid_ctx (ctxRef 2) ex_cancelled = true.
Proof.
  apply (deadline_is_stable (ctxRef 2) ex_family ex_cancelled).
  - apply reachable_ex_family.
  - apply (reaches_step ex_family (ActCancelFunc 0) ex_family).
    + apply reaches_refl.
    + reflexivity.
  - reflexivity.
Defined.

Lemma done_matches_error_witness :
  ∃ p w',
    done (ctxRef 0) ex_cancelled = Returned p w' [] ∧
    (is_resolved p = true ↔ error (ctxRef 0) ex_cancelled ≠ None) ∧
    error (ctxRef 0) w' = error (ctxRef 0) ex_cancelled ∧
    (error (ctxRef 0) ex_cancelled ≠ None → w' = ex_cancelled).
Proof.
  apply (done_matches_error 0 ex_cancelled).
  - apply reachable_ex_cancelled.
  - vm_compute. lia.
Defined.

Lemma live_timer_is_armed_witness :
  ∃ t, t ∈ timers ex_family ∧ target t = 2 ∧
       timer (mkTimerCtx (date 50) (Some 1%positive)) = Some (handle t) ∧
       number_le (delay t) (Num 0) = false.
Proof.
  eapply (live_timer_is_armed 2 _ _ ex_family).
  - apply reachable_ex_family.
  - reflexivity.
  - reflexivity.
  - reflexivity.
Defined.

Lemma public_functions_return_witness :
  (∃ r w' tr, withTimeout (ctxRef 2) NaN 0 0 ex_family = Returned r w' tr) ∧
  (∃ w' tr, cancelFunc 1 ex_family = Returned tt w' tr).
Proof.
  destruct (public_functions_return ex_family reachable_ex_family) as (H1 & H2 & _).
  destruct (H1 (ctxRef 2) eq_refl) as (_ & _ & H3 & _).
  split.
  - exact (H3 NaN 0%Z 0%Z).
  - apply (H2 1). vm_compute. lia.
Defined.

Lemma timer_expiry_witness :
  error (ctxRef 2) ex_family = None ∧
  error (ctxRef 2) (exec (ActTimer 1) ex_family) = Some deadlineExceededErr ∧
  (∀ q, ¬ tracks (exec (ActTimer 1) ex_family) q 2) ∧
  (∀ t', t' ∈ timers (exec (ActTimer 1) ex_family) →
     t' ∈ timers ex_family ∧ target t' ≠ 2).
Proof.
  destruct (timer_expiry (mkTimeout 1 2 (Num 50)) ex_family reachable_ex_family)
    as (H1 & H2 & _ & H4 & H5).
  - vm_compute. left.
  - split; [exact H1|]. split; [exact H2|]. split; [exact H4|exact H5].
Defined.

Lemma cancelFunc_detaches_witness :
  ∃ w' tr,
    cancelFunc 1 ex_family = Returned tt w' tr ∧
    error (ctxRef 1) w' = Some cancelledErr ∧
    (∀ q, ¬ tracks w' q 1) ∧
    (∀ q d, tracks w' q d ↔ tracks ex_family q d ∧ d ≠ 1).
Proof.
  eapply (cancelFunc_detaches 1 _ ex_family).
  - apply reachable_ex_family.
  - reflexivity.
  - reflexivity.
Defined.

Lemma unlinked_derivation_witness :
  withCancel backgroundCtx emptyWorld
  = Returned (ctxRef 0, cancelFunc 0) (alloc backgroundCtx None emptyWorld) [].
Proof.
  apply (unlinked_derivation backgroundCtx emptyWorld). left. reflexivity.
Defined.

Lemma child_of_live_parent_witness :
  error (ctxRef 4) (exec (ActWithCancel (ctxRef 0)) ex_family) = None ∧
  error (ctxRef 0) (exec (ActWithCancel (ctxRef 0)) ex_family) = None ∧
  (∀ q d, tracks (exec (ActWithCancel (ctxRef 0)) ex_family) q d ↔
          tracks ex_family q d ∨ (q = 0 ∧ d = 4)) ∧
  error (ctxRef 4)
    (exec (ActCancelFunc 0) (exec (ActWithCancel (ctxRef 0)) ex_family))
  = Some cancelledErr.
Proof.
  eapply (child_of_live_parent 0 _ ex_family).
  - apply reachable_ex_family.
  - reflexivity.
  - reflexivity.
Defined.

Lemma child_of_foreign_parent_witness :
  error (ctxRef 0) ex_race = None ∧
  races ex_race = [(foreignRef 0, 0)] ∧
  error (ctxRef 0) (exec (ActRace 0 true) ex_race) = Some cancelledErr.
Proof.
  destruct (child_of_foreign_parent 0
              (mkForeignCtx None (foreignPromise 0) (Some cancelledErr))
              ex_foreign reachable_ex_foreign eq_refl eq_refl)
    as (H1 & H2 & _ & H4).
  split; [exact H1|]. split; [exact H2|]. exact (H4 cancelledErr eq_refl).
Defined.

Lemma race_parent_wins_witness :
  races (exec (ActRace 0 true) ex_race) = delete 0 (races ex_race) ∧
  error (ctxRef 0) (exec (ActRace 0 true) ex_race) ≠ None ∧
  (error (ctxRef 0) ex_race = None →
     error (ctxRef 0) (exec (ActRace 0 true) ex_race) = Some cancelledErr ∧
     ∀ d, descendant ex_race 0 d →
       error (ctxRef d) (exec (ActRace 0 true) ex_race) = Some cancelledErr).
Proof.
  apply (race_parent_wins 0 (foreignRef 0) 0 cancelledErr ex_race).
  - apply reachable_ex_race.
  - reflexivity.
  - reflexivity.
Defined.

Lemma race_without_error_witness :
  raceCallback (foreignRef 0) 0 true ex_quiet
    = Threw MissingCancelError ex_quiet [EvCancel 0 false None] ∧
  exec (ActRace 0 true) ex_quiet = set_races (delete 0) ex_quiet ∧
  exec (ActRace 0 false) ex_quiet = set_races (delete 0) ex_quiet.
Proof.
  apply (race_without_error 0 (foreignRef 0) 0 ex_quiet).
  - apply reachable_ex_quiet.
  - reflexivity.
  - reflexivity.
Defined.

Lemma withDeadline_without_timer_witness :
  error (ctxRef 4) (exec (ActWithDeadline (ctxRef 0) (date 10) 20) ex_family)
    = Some deadlineExceededErr ∧
  deadline (ctxRef 4) (exec (ActWithDeadline (ctxRef 0) (date 10) 20) ex_family)
    = Some (date 10) ∧
  timers (exec (ActWithDeadline (ctxRef 0) (date 10) 20) ex_family)
    = timers ex_family ∧
  nextTimer (exec (ActWithDeadline (ctxRef 0) (date 10) 20) ex_family)
    = nextTimer ex_family ∧
  (∀ q, ¬ tracks (exec (ActWithDeadline (ctxRef 0) (date 10) 20) ex_family) q 4).
Proof.
  apply (withDeadline_without_timer (ctxRef 0) 10 20 ex_family).
  - apply reachable_ex_family.
  - reflexivity.
  - intros pd H. vm_compute in H. discriminate H.
  - left. lia.
Defined.

Lemma withDeadline_arms_timer_witness :
  error (ctxRef 4) (exec (ActWithDeadline (ctxRef 0) (date 100) 0) ex_family)
    = None ∧
  deadline (ctxRef 4) (exec (ActWithDeadline (ctxRef 0) (date 100) 0) ex_family)
    = Some (date 100) ∧
  timers (exec (ActWithDeadline (ctxRef 0) (date 100) 0) ex_family)
    = timers ex_family ++ [mkTimeout 2 4 (Num (100 - 0))] ∧
  (∀ q, tracks (exec (ActWithDeadline (ctxRef 0) (date 100) 0) ex_family) q 4 ↔
        ctxRef 0 = ctxRef q) ∧
  error (ctxRef 4)
    (exec (ActTimer 2) (exec (ActWithDeadline (ctxRef 0) (date 100) 0) ex_family))
    = Some deadlineExceededErr.
Proof.
  apply (withDeadline_arms_timer (ctxRef 0) 100 0 ex_family).
  - apply reachable_ex_family.
  - reflexivity.
  - intros pd H. vm_compute in H. discriminate H.
  - lia.
  - reflexivity.
Defined.

Lemma withDeadline_settled_parent_witness :
  error (ctxRef 4) (exec (ActWithDeadline (ctxRef 0) (date 500) 0) ex_cancelled)
    = Some cancelledErr ∧
  timers (exec (ActWithDeadline (ctxRef 0) (date 500) 0) ex_cancelled)
    = timers ex_cancelled ∧
  nextTimer (exec (ActWithDeadline (ctxRef 0) (date 500) 0) ex_cancelled)
    = nextTimer ex_cancelled ∧
  (∀ q, ¬ tracks (exec (ActWithDeadline (ctxRef 0) (date 500) 0) ex_cancelled) q 4).
Proof.
  eapply (withDeadline_settled_parent 0 _ cancelledErr (date 500) 0 ex_cancelled).
  - apply reachable_ex_cancelled.
  - reflexivity.
  - reflexivity.
Defined.

Lemma earlier_parent_deadline_wins_witness :
  deadline (ctxRef 1) (exec (ActWithDeadline (ctxRef 0) (date 200) 0) ex_deadline)
    = None ∧
  timers (exec (ActWithDeadline (ctxRef 0) (date 200) 0) ex_deadline)
    = timers ex_deadline ∧
  ∃ t, t ∈ timers ex_deadline ∧ target t = 0 ∧
    error (ctxRef 0)
      (exec (ActTimer (handle t))
         (exec (ActWithDeadline (ctxRef 0) (date 200) 0) ex_deadline))
      = Some deadlineExceededErr ∧
    error (ctxRef 1)
      (exec (ActTimer (handle t))
         (exec (ActWithDeadline (ctxRef 0) (date 200) 0) ex_deadline))
      = Some deadlineExceededErr.
Proof.
  eapply (earlier_parent_deadline_wins 0 _ _ 100 200 0 ex_deadline).
  - apply reachable_ex_deadline.
  - reflexivity.
  - reflexivity.
  - reflexivity.
  - reflexivity.
  - lia.
Defined.

Lemma withTimeout_invalid_date_witness :
  error (ctxRef 1)
    (exec (ActWithTimeout (ctxRef 0) (Num 10000000000000000) 0 0) ex_deadline)
    = None ∧
  deadline (ctxRef 1)
    (exec (ActWithTimeout (ctxRef 0) (Num 10000000000000000) 0 0) ex_deadline)
    = Some invalidDate ∧
  timers (exec (ActWithTimeout (ctxRef 0) (Num 10000000000000000) 0 0) ex_deadline)
    = timers ex_deadline ++ [mkTimeout 2 1 NaN] ∧
  error (ctxRef 1)
    (exec (ActTimer 2)
       (exec (ActWithTimeout (ctxRef 0) (Num 10000000000000000) 0 0) ex_deadline))
    = Some deadlineExceededErr.
Proof.
  apply (withTimeout_invalid_date (ctxRef 0) (Num 10000000000000000) 0 0
           ex_deadline).
  - apply reachable_ex_deadline.
  - reflexivity.
  - reflexivity.
  - reflexivity.
Defined.



Lemma subtree_shares_error_witness :
  error (ctxRef 2) ex_cancelled = error (ctxRef 0) ex_cancelled.
Proof.
  apply (subtree_shares_error 0 2 ex_cancelled).
  - apply reachable_ex_cancelled.
  - apply (desc_step ex_cancelled 0 1 2).
    + apply desc_child. eexists _, _. split; [reflexivity|].
      split; [reflexivity|]. left.
    + eexists _, _. split; [reflexivity|]. split; [reflexivity|]. left.
Defined.

Lemma cancel_releases_timers_witness :
  error (ctxRef 0) (exec (ActCancelFunc 0) ex_family) ≠ None ∧
  (∀ d, descendant ex_family 0 d →
     error (ctxRef d) (exec (ActCancelFunc 0) ex_family) ≠ None) ∧
  (∀ t, t ∈ timers (exec (ActCancelFunc 0) ex_family) →
     target t ≠ 0 ∧ ¬ descendant ex_family 0 (target t)).
Proof.
  apply (cancel_releases_timers 0 ex_family).
  - apply reachable_ex_family.
  - vm_compute. lia.
Defined.
